(** * Peregrine: parser and C++ code generator, verified against their description

    A shallow embedding of three source files of the Peregrine compiler:

    - [utils/symbolTable.hpp]: the two-tier name-mangling table [MangleName];
    - [parser/parser.cpp]: the statement parser and its Pratt expression parser;
    - [codegen/cpp/codegen.cpp]: the visitor that writes the C++ translation unit.

    Strings are [string], [std::map<std::string,std::string>] is stdpp's
    [gmap string string], vectors are lists.  The parser threads its cursor and
    its error list through a state monad; recursion and loops that the source
    does not bound are driven by a fuel argument and running out of fuel is
    [None].  The code generator is a structural recursion over the tree; a
    failed unchecked downcast or an out-of-range index is [None]. *)

From Stdlib Require Import String Ascii ZArith List Bool Lia DecimalString.
From stdpp Require Import base option list strings gmap.

Open Scope string_scope.
Open Scope list_scope.

(** The line feed and the double quote of the emitted C++ text. *)
Definition nl : string := String "010" "".
Definition dquote : string := String "034" "".

(** ** [std::to_string] on integers *)

Definition to_string (n : nat) : string :=
  NilEmpty.string_of_uint (Nat.to_uint n).

Definition to_string_Z (z : Z) : string :=
  NilEmpty.string_of_int (Z.to_int z).

(** ** utils/symbolTable.hpp: [MangleName] *)

Module SymbolTable.

Record MangleName := mkMangleName {
  m_global_names : gmap string string;
  m_local_names : gmap string string
}.

Definition empty : MangleName := mkMangleName ∅ ∅.

Definition local_prefix : string := "____PEREGRINE____PEREGRINE____".

Definition set_local (original : string) (m : MangleName) : MangleName :=
  mkMangleName (m_global_names m)
               (<[original := local_prefix +:+ original]> (m_local_names m)).

Definition set_global (original mangled : string) (m : MangleName) : MangleName :=
  mkMangleName (<[original := mangled]> (m_global_names m)) (m_local_names m).

Definition clear_local (m : MangleName) : MangleName :=
  mkMangleName (m_global_names m) ∅.

(** [std::map::count(name) != 0] *)
Definition count_ne_0 (m : gmap string string) (name : string) : bool :=
  bool_decide (is_Some (m !! name)).

(** [m[name]] on a [std::map] that holds the key; a missing key would be
    inserted with the empty string, which the two callers below exclude by
    testing [count] first. *)
Definition at_key (m : gmap string string) (name : string) : string :=
  default "" (m !! name).

Definition contains (m : MangleName) (name : string) : bool :=
  if String.eqb name "error" || String.eqb name "printf" then true
  else if count_ne_0 (m_local_names m) name then true
  else if count_ne_0 (m_global_names m) name then true
  else false.

(** [MangleName::operator[]] *)
Definition lookup (m : MangleName) (name : string) : string :=
  if String.eqb name "printf" || String.eqb name "error" then name
  else if count_ne_0 (m_local_names m) name then at_key (m_local_names m) name
  else if count_ne_0 (m_global_names m) name then at_key (m_global_names m) name
  else name.

Definition reserved (name : string) : Prop := name = "printf" ∨ name = "error".

(** The lookup rule in the words of the description: reserved names first,
    then the local map, then the global map, then the name itself. *)
Definition is_reserved (name : string) : bool :=
  String.eqb name "printf" || String.eqb name "error".

Definition contains_by_precedence (m : MangleName) (name : string) : bool :=
  is_reserved name
  || bool_decide (is_Some (m_local_names m !! name))
  || bool_decide (is_Some (m_global_names m !! name)).

Definition lookup_by_precedence (m : MangleName) (name : string) : string :=
  if is_reserved name then name
  else match m_local_names m !! name with
       | Some v => v
       | None => match m_global_names m !! name with
                 | Some v => v
                 | None => name
                 end
       end.

(** ** utils/symbolTable.hpp: [SymbolTable<T>] *)

Module Scoped.

(** [SymbolTable<T>]: the symbols of one scope and the table of the enclosing
    scope.  The source holds the parent behind a shared pointer; here a table
    carries its chain of parents, and an operation that writes into a parent
    returns the chain with that parent updated. *)
#[local] Unset Elimination Schemes.
Inductive SymbolTable (T : Type) := mkSymbolTable {
  m_symbols : gmap string T;
  m_parent : option (SymbolTable T)
}.
#[local] Set Elimination Schemes.
Arguments mkSymbolTable {T}.
Arguments m_symbols {T}.
Arguments m_parent {T}.

Section WithT.
Context {T : Type}.

(** [SymbolTable(parent)] *)
Definition new (parent : option (SymbolTable T)) : SymbolTable T :=
  mkSymbolTable ∅ parent.

Fixpoint get (t : SymbolTable T) (name : string) : option T :=
  match t with
  | mkSymbolTable symbols parent =>
      match symbols !! name with
      | None =>
          match parent with
          | None => None
          | Some p => get p name
          end
      | Some v => Some v
      end
  end.

(** [set]: the flag that it returns and the table that it leaves. *)
Definition set (t : SymbolTable T) (name : string) (value : T)
  : bool * SymbolTable T :=
  match get t name with
  | Some _ => (false, t)
  | None => (true, mkSymbolTable (<[name := value]> (m_symbols t)) (m_parent t))
  end.

Fixpoint reassign (t : SymbolTable T) (name : string) (value : T)
  : bool * SymbolTable T :=
  match t with
  | mkSymbolTable symbols parent =>
      match symbols !! name with
      | None =>
          match parent with
          | None => (false, t)
          | Some p =>
              let r := reassign p name value in
              (r.1, mkSymbolTable symbols (Some r.2))
          end
      | Some _ => (true, mkSymbolTable (<[name := value]> symbols) parent)
      end
  end.

Definition parent (t : SymbolTable T) : option (SymbolTable T) := m_parent t.

(** The names of each scope of the chain, innermost first. *)
Fixpoint scopes (t : SymbolTable T) : list (gset string) :=
  match t with
  | mkSymbolTable symbols parent =>
      dom symbols :: match parent with
                     | None => []
                     | Some p => scopes p
                     end
  end.

End WithT.
End Scoped.

End SymbolTable.

(** ** Tokens

    Modelled from the spec: [lexer/tokens.hpp] is not among the sources.  A
    token is the record [(kind, keyword, line, column, statement)]; the kinds
    are the enumerators that [parser.cpp] and [codegen.cpp] name, and
    [tk_other] stands for every enumerator that they do not name.  The
    enumerator [tk_ident] marks the beginning of an indented block. *)

Inductive TokenType :=
| tk_eof | tk_ident | tk_dedent | tk_new_line | tk_cppcode
| tk_identifier | tk_integer | tk_decimal | tk_string | tk_format | tk_raw
| tk_true | tk_false | tk_none
| tk_const | tk_at | tk_if | tk_elif | tk_else | tk_while | tk_for
| tk_from | tk_import | tk_as | tk_def | tk_break | tk_pass | tk_match
| tk_case | tk_default | tk_continue | tk_return | tk_scope | tk_type
| tk_assign | tk_colon | tk_comma | tk_arrow | tk_underscore
| tk_l_paren | tk_r_paren | tk_list_open | tk_list_close | tk_dict_open
| tk_dot
| tk_negative | tk_bit_not | tk_not
| tk_and | tk_or
| tk_not_equal | tk_is_not | tk_is | tk_not_in | tk_in
| tk_greater | tk_less | tk_gr_or_equ | tk_less_or_equ | tk_equal
| tk_bit_or | tk_xor | tk_bit_and | tk_shift_left | tk_shift_right
| tk_plus | tk_minus | tk_multiply | tk_divide | tk_modulo | tk_floor
| tk_exponent
| tk_other (code : nat).

#[global] Instance TokenType_eq_dec : EqDecision TokenType.
Proof. solve_decision. Defined.

Record Token := mkToken {
  tkType : TokenType;
  keyword : string;
  line : Z;
  start : Z;
  statement : string
}.

(** [a.tkType == k] *)
Definition is_kind (k : TokenType) (t : Token) : bool :=
  bool_decide (tkType t = k).

(** ** parser/parser.cpp *)

Module Parse.

(** Modelled from the spec: the enumeration [PrecedenceType] of [parser.hpp],
    in the order
    [lowest < and_or < not < compare < bit_or < bit_xor < bit_and < bit_shift
     < sum_minus < mul_div < expo < prefix < dot_ref < list_access < call]. *)
Inductive PrecedenceType :=
| pr_lowest | pr_and_or | pr_not | pr_compare | pr_bit_or | pr_bit_xor
| pr_bit_and | pr_bit_shift | pr_sum_minus | pr_mul_div | pr_expo
| pr_prefix | pr_dot_ref | pr_list_access | pr_call.

Definition pr_rank (p : PrecedenceType) : nat :=
  match p with
  | pr_lowest => 0 | pr_and_or => 1 | pr_not => 2 | pr_compare => 3
  | pr_bit_or => 4 | pr_bit_xor => 5 | pr_bit_and => 6 | pr_bit_shift => 7
  | pr_sum_minus => 8 | pr_mul_div => 9 | pr_expo => 10 | pr_prefix => 11
  | pr_dot_ref => 12 | pr_list_access => 13 | pr_call => 14
  end.

(** [a > b] on precedences *)
Definition pr_gt (a b : PrecedenceType) : bool := (pr_rank b <? pr_rank a)%nat.

(** [createMap]: the table as a partial function of the token kind. *)
Definition precedenceMap (k : TokenType) : option PrecedenceType :=
  match k with
  | tk_negative => Some pr_prefix
  | tk_bit_not => Some pr_prefix
  | tk_and => Some pr_and_or
  | tk_or => Some pr_and_or
  | tk_not => Some pr_not
  | tk_not_equal => Some pr_compare
  | tk_is_not => Some pr_compare
  | tk_is => Some pr_compare
  | tk_not_in => Some pr_compare
  | tk_in => Some pr_compare
  | tk_greater => Some pr_compare
  | tk_less => Some pr_compare
  | tk_gr_or_equ => Some pr_compare
  | tk_less_or_equ => Some pr_compare
  | tk_equal => Some pr_compare
  | tk_bit_or => Some pr_bit_or
  | tk_xor => Some pr_bit_xor
  | tk_bit_and => Some pr_bit_and
  | tk_shift_left => Some pr_bit_shift
  | tk_shift_right => Some pr_bit_shift
  | tk_plus => Some pr_sum_minus
  | tk_minus => Some pr_sum_minus
  | tk_multiply => Some pr_mul_div
  | tk_divide => Some pr_mul_div
  | tk_modulo => Some pr_mul_div
  | tk_floor => Some pr_mul_div
  | tk_exponent => Some pr_expo
  | tk_dot => Some pr_dot_ref
  | tk_list_open => Some pr_list_access
  | tk_l_paren => Some pr_call
  | _ => None
  end.

(** [precedenceMap[k]]: a key that is not in the table is read as the
    value-initialised enumerator, [pr_lowest]; the entry that [operator[]]
    then adds maps to [pr_lowest], which is also what [nextPrecedence]
    answers for a missing key, so the table is kept immutable here. *)
Definition precedenceMap_at (k : TokenType) : PrecedenceType :=
  default pr_lowest (precedenceMap k).

(** Modelled from the spec: the node classes of [ast/ast.hpp], with the
    constructor arguments that [parser.cpp] passes to [std::make_shared].
    [nullptr] is the null [AstNodePtr]; the literal nodes are what the
    literal parsers (not in [parser.cpp]) build. *)
#[local] Unset Elimination Schemes.
Inductive AstNode :=
| nullptr
| Program (statements : list AstNode)
| BlockStatement (statements : list AstNode)
| ImportStatement (tok : Token) (moduleName : AstNode * AstNode)
    (importedSymbols : list (AstNode * AstNode))
| VariableStatement (tok : Token) (varType name value : AstNode)
| ConstDeclaration (tok : Token) (constType name value : AstNode)
| IfStatement (tok : Token) (condition ifBody elseBody : AstNode)
    (elifs : list (AstNode * AstNode))
| ScopeStatement (tok : Token) (body : AstNode)
| WhileStatement (tok : Token) (condition body : AstNode)
| ForStatement (tok : Token) (variable sequence body : AstNode)
| FunctionDefinition (tok : Token) (returnType name : AstNode)
    (parameters : list (AstNode * AstNode)) (body : AstNode)
| ReturnStatement (tok : Token) (returnValue : AstNode)
| TypeDefinition (tok : Token) (name baseType : AstNode)
| LamdaDefine (tok : Token) (types return_types : list AstNode)
| BinaryOperation (tok : Token) (left : AstNode) (op : Token) (right : AstNode)
| FunctionCall (tok : Token) (name : AstNode) (arguments : list AstNode)
| ListOrDictAccess (tok : Token) (container keyOrIndex : AstNode)
| DotExpression (tok : Token) (owner referenced : AstNode)
| PrefixExpression (tok : Token) (prefix : Token) (right : AstNode)
| IdentifierExpression (tok : Token) (value : string)
| TypeExpression (tok : Token) (value : string)
| MatchStatement (tok : Token) (matchItem : list AstNode)
    (caseBody : list (list AstNode * AstNode)) (defaultBody : AstNode)
| DecoratorStatement (tok : Token) (decoratorItem : list AstNode)
    (body : AstNode)
| NoLiteral
| BreakStatement (tok : Token)
| PassStatement (tok : Token)
| ContinueStatement (tok : Token)
| IntegerLiteral (tok : Token) (value : string)
| DecimalLiteral (tok : Token) (value : string)
| StringLiteral (tok : Token) (value : string) (formatted raw : bool)
| BoolLiteral (tok : Token) (value : string)
| NoneLiteral (tok : Token)
| ListLiteral (tok : Token) (elements : list AstNode)
| DictLiteral (tok : Token) (elements : list (AstNode * AstNode))
| CppStatement (tok : Token) (code : string).
#[local] Set Elimination Schemes.

(** The error record that [Parser::error] builds:
    [{{line, start, filename, statement}, msg, "", "", ""}]. *)
Record Location := mkLocation {
  loc_line : Z;
  loc_col : Z;
  loc_file : string;
  loc_code : string
}.

Record PEError := mkPEError {
  loc : Location;
  msg : string;
  submsg : string;
  hint : string;
  ecode : string
}.

Record Parser := mkParser {
  m_tokens : list Token;
  m_tokIndex : nat;
  m_currentToken : Token;
  m_errors : list PEError;
  m_filename : string
}.

(** [Parser::Parser]: the current token is [tokens[0]], which does not exist
    for an empty vector.  The index starts at 0 and the file name is a
    member that [parser.hpp] initialises. *)
Definition Parser_new (filename : string) (tokens : list Token) : option Parser :=
  match tokens with
  | [] => None
  | t :: _ => Some (mkParser tokens 0 t [] filename)
  end.

(** The parser monad: the parser object is threaded through every call and
    [None] means that the call did not finish within the fuel. *)
Definition M (A : Type) : Type := Parser → option (A * Parser).

#[global] Instance M_ret : MRet M := λ A a p, Some (a, p).
#[global] Instance M_bind : MBind M := λ A B f m p,
  match m p with
  | Some (a, p') => f a p'
  | None => None
  end.

Definition gets {A} (f : Parser → A) : M A := λ p, Some (f p, p).
Definition lift (f : Parser → Parser) : M unit := λ p, Some (tt, f p).
Definition diverge {A} : M A := λ _, None.

(** What [parser.cpp] takes from headers and from files that are not among
    the sources: the value of a default-constructed [Token], the integer
    value of each [TokenType] enumerator (printed in messages), and the
    literal parsers. *)
Class Externals := {
  default_token : Token;
  tk_code : TokenType → Z;
  parseInteger : M AstNode;
  parseDecimal : M AstNode;
  parseNone : M AstNode;
  parseString : bool → bool → M AstNode;
  parseBool : M AstNode;
  parseList : M AstNode;
  parseDict : M AstNode;
  parseCpp : M AstNode
}.

Section Parser.
Context `{Externals}.

Definition advance (p : Parser) : Parser :=
  let i := S (m_tokIndex p) in
  match m_tokens p !! i with
  | Some t => mkParser (m_tokens p) i t (m_errors p) (m_filename p)
  | None => mkParser (m_tokens p) i (m_currentToken p) (m_errors p) (m_filename p)
  end.

Definition next (p : Parser) : Token :=
  match m_tokens p !! S (m_tokIndex p) with
  | Some t => t
  | None => default_token
  end.

Definition advanceOnNewLine (p : Parser) : Parser :=
  if is_kind tk_new_line (next p) then advance p else p.

Definition nextPrecedence (p : Parser) : PrecedenceType :=
  match precedenceMap (tkType (next p)) with
  | Some pr => pr
  | None => pr_lowest
  end.

Definition error (tok : Token) (message : string) (p : Parser) : Parser :=
  let err := mkPEError (mkLocation (line tok) (start tok) (m_filename p)
                                   (statement tok)) message "" "" "" in
  mkParser (m_tokens p) (m_tokIndex p) (m_currentToken p)
           (m_errors p ++ [err]) (m_filename p).

Definition expect (expectedType : TokenType) (p : Parser) : Parser :=
  let p1 :=
    if negb (is_kind expectedType (next p)) then
      error (next p)
            ("expected token of type " +:+ to_string_Z (tk_code expectedType)
             +:+ ", got " +:+ to_string_Z (tk_code (tkType (next p)))
             +:+ " instead") p
    else p in
  advance p1.

Definition cur_is (k : TokenType) (p : Parser) : bool :=
  is_kind k (m_currentToken p).

Definition next_is (k : TokenType) (p : Parser) : bool :=
  is_kind k (next p).

Definition parseIdentifier (p : Parser) : AstNode :=
  IdentifierExpression (m_currentToken p) (keyword (m_currentToken p)).

Definition parseType (p : Parser) : AstNode :=
  TypeExpression (m_currentToken p) (keyword (m_currentToken p)).

Definition parseName : M AstNode := λ p,
  let p1 :=
    if negb (cur_is tk_identifier p) then
      error (m_currentToken p)
            ("expected an identifier, got "
             +:+ to_string_Z (tk_code (tkType (m_currentToken p)))
             +:+ " instead") p
    else p in
  Some (parseIdentifier p1, p1).

(** [while (cond) { body }], with [break]: the body answers whether the loop
    goes on, together with the loop-carried locals. *)
Fixpoint while_loop {A} (fuel : nat) (cond : Parser → bool)
    (body : A → M (bool * A)) (acc : A) : M A := λ p,
  if cond p then
    match fuel with
    | 0 => None
    | S n =>
        match body acc p with
        | Some ((true, acc'), p') => while_loop n cond body acc' p'
        | Some ((false, acc'), p') => Some (acc', p')
        | None => None
        end
    end
  else Some (acc, p).

(** [do { body } while (cond)] *)
Definition do_while {A} (fuel : nat) (body : A → M (bool * A))
    (cond : Parser → bool) (acc : A) : M A :=
  '(continue, acc') ← body acc;
  if continue : bool then while_loop fuel cond body acc' else mret acc'.

(** The three routines through which the parser calls itself, at the fuel
    that is left for them. *)
Record Self := mkSelf {
  self_parseStatement : M AstNode;
  self_parseBlockStatement : M AstNode;
  self_parseExpression : PrecedenceType → M AstNode
}.

Section Routines.
Variable fuel : nat.
Variable self : Self.

Definition parseBinaryOperation (left : AstNode) : M AstNode :=
  op ← gets m_currentToken;
  let precedence := precedenceMap_at (tkType op) in
  lift advance;;
  right ← self_parseExpression self precedence;
  mret (BinaryOperation op left op right).

Definition parseFunctionCall (left : AstNode) : M AstNode :=
  tok ← gets m_currentToken;
  no_args ← gets (next_is tk_r_paren);
  arguments ←
    (if negb no_args then
       do_while fuel
         (λ arguments,
            lift advance;;
            arg ← self_parseExpression self pr_lowest;
            lift advance;;
            mret (true, arguments ++ [arg]))
         (cur_is tk_comma) []
     else
       lift advance;; mret []);
  cur ← gets m_currentToken;
  (if negb (is_kind tk_r_paren cur) then
     lift (error cur ("expected ), got " +:+ keyword cur +:+ " instead"))
   else mret tt);;
  lift advanceOnNewLine;;
  mret (FunctionCall tok left arguments).

Definition parseListOrDictAccess (left : AstNode) : M AstNode :=
  tok ← gets m_currentToken;
  lift advance;;
  keyOrIndex ← self_parseExpression self pr_lowest;
  lift (expect tk_list_close);;
  let node := ListOrDictAccess tok left keyOrIndex in
  is_assign ← gets (next_is tk_assign);
  if negb is_assign then mret node
  else
    lift advance;;
    lift advance;;
    newValue ← self_parseExpression self pr_lowest;
    lift advanceOnNewLine;;
    mret (VariableStatement tok NoLiteral node newValue).

Definition parseDotExpression (left : AstNode) : M AstNode :=
  tok ← gets m_currentToken;
  lift advance;;
  referenced ← self_parseExpression self pr_lowest;
  mret (DotExpression tok left referenced).

Definition parsePrefixExpression : M AstNode :=
  prefix ← gets m_currentToken;
  let precedence := precedenceMap_at (tkType prefix) in
  lift advance;;
  right ← self_parseExpression self precedence;
  mret (PrefixExpression prefix prefix right).

Definition parseGroupedExpr : M AstNode :=
  lift advance;;
  expr ← self_parseExpression self pr_lowest;
  lift (expect tk_r_paren);;
  mret expr.

(** The prefix dispatch of [parseExpression]: [left] stays null when the
    current token starts no expression. *)
Definition parsePrefix : M AstNode :=
  cur ← gets m_currentToken;
  match tkType cur with
  | tk_integer => parseInteger
  | tk_decimal => parseDecimal
  | tk_none => parseNone
  | tk_format => lift advance;; parseString true false
  | tk_raw => lift advance;; parseString false true
  | tk_string => parseString false false
  | tk_true | tk_false => parseBool
  | tk_identifier => gets parseIdentifier
  | tk_l_paren => parseGroupedExpr
  | tk_list_open => parseList
  | tk_dict_open => parseDict
  | tk_negative | tk_not | tk_bit_not => parsePrefixExpression
  | _ =>
      lift (error cur (keyword cur +:+ " is not an expression"));;
      mret nullptr
  end.

(** One turn of the infix loop of [parseExpression]. *)
Definition parseInfix (left : AstNode) : M AstNode :=
  lift advance;;
  cur ← gets m_currentToken;
  match tkType cur with
  | tk_l_paren => parseFunctionCall left
  | tk_list_open => parseListOrDictAccess left
  | tk_dot => parseDotExpression left
  | _ => parseBinaryOperation left
  end.

Definition parseExpression_ (currPrecedence : PrecedenceType) : M AstNode :=
  left ← parsePrefix;
  left ← while_loop fuel (λ p, pr_gt (nextPrecedence p) currPrecedence)
            (λ left, left' ← parseInfix left; mret (true, left')) left;
  lift advanceOnNewLine;;
  mret left.


Definition parseBlockStatement_ : M AstNode :=
  lift advance;;
  statements ←
    while_loop fuel (λ p, negb (cur_is tk_dedent p))
      (λ statements,
         cur ← gets m_currentToken;
         (if is_kind tk_eof cur then
            lift (error cur "expected end of identation, got eof instead")
          else mret tt);;
         stmt ← self_parseStatement self;
         lift advance;;
         mret (true, statements ++ [stmt]))
      [];
  mret (BlockStatement statements).

(** The optional [as alias] of an import: two [advance] and a name, or the
    null pointer of the default-constructed pair. *)
Definition parseAlias : M AstNode :=
  has_as ← gets (next_is tk_as);
  if has_as : bool then
    lift advance;;
    lift advance;;
    parseName
  else mret nullptr.

Definition parseImport : M AstNode :=
  tok ← gets m_currentToken;
  let hasFrom := is_kind tk_from tok in
  lift advance;;
  moduleFirst ← parseName;
  if negb hasFrom then
    moduleSecond ← parseAlias;
    mret (ImportStatement tok (moduleFirst, moduleSecond) [])
  else
    lift (expect tk_import);;
    importedSymbols ←
      do_while fuel
        (λ importedSymbols,
           lift advance;;
           first ← parseName;
           second ← parseAlias;
           has_comma ← gets (next_is tk_comma);
           (if has_comma : bool then lift advance else mret tt);;
           mret (true, importedSymbols ++ [(first, second)]))
        (cur_is tk_comma) [];
    lift advanceOnNewLine;;
    mret (ImportStatement tok (moduleFirst, nullptr) importedSymbols).

(** The optional leading type of a variable or constant declaration. *)
Definition parseOptionalType : M AstNode :=
  typed ← gets (next_is tk_identifier);
  if typed : bool then
    ty ← gets parseType;
    lift advance;;
    mret ty
  else mret NoLiteral.

Definition parseVariableStatement : M AstNode :=
  tok ← gets m_currentToken;
  varType ← parseOptionalType;
  name ← parseName;
  is_assign ← gets (next_is tk_assign);
  value ←
    (if is_assign : bool then
       lift advance;;
       lift advance;;
       self_parseExpression self pr_lowest
     else
       lift advanceOnNewLine;; mret NoLiteral);
  mret (VariableStatement tok varType name value).

Definition parseConstDeclaration : M AstNode :=
  tok ← gets m_currentToken;
  lift (expect tk_identifier);;
  constType ← parseOptionalType;
  name ← parseName;
  lift (expect tk_assign);;
  lift advance;;
  value ← self_parseExpression self pr_lowest;
  mret (ConstDeclaration tok constType name value).

Definition parseIf : M AstNode :=
  tok ← gets m_currentToken;
  lift advance;;
  condition ← self_parseExpression self pr_lowest;
  lift (expect tk_colon);;
  lift (expect tk_ident);;
  ifBody ← self_parseBlockStatement self;
  elifs ←
    while_loop fuel (next_is tk_elif)
      (λ elifs,
         lift advance;;
         lift advance;;
         condition ← self_parseExpression self pr_lowest;
         lift (expect tk_colon);;
         lift (expect tk_ident);;
         body ← self_parseBlockStatement self;
         mret (true, elifs ++ [(condition, body)]))
      [];
  has_else ← gets (next_is tk_else);
  elseBody ←
    (if has_else : bool then
       lift advance;;
       lift (expect tk_colon);;
       lift (expect tk_ident);;
       self_parseBlockStatement self
     else mret NoLiteral);
  mret (IfStatement tok condition ifBody elseBody elifs).

Definition parseScope : M AstNode :=
  tok ← gets m_currentToken;
  lift (expect tk_colon);;
  lift (expect tk_ident);;
  scope_body ← self_parseBlockStatement self;
  mret (ScopeStatement tok scope_body).

Definition parseWhile : M AstNode :=
  tok ← gets m_currentToken;
  lift advance;;
  condition ← self_parseExpression self pr_lowest;
  lift (expect tk_colon);;
  lift (expect tk_ident);;
  body ← self_parseBlockStatement self;
  mret (WhileStatement tok condition body).

Definition parseFor : M AstNode :=
  tok ← gets m_currentToken;
  lift advance;;
  variable ← parseName;
  lift (expect tk_in);;
  lift advance;;
  sequence ← self_parseExpression self pr_lowest;
  lift (expect tk_colon);;
  lift (expect tk_ident);;
  body ← self_parseBlockStatement self;
  mret (ForStatement tok variable sequence body).

Definition parseFunctionDef : M AstNode :=
  tok ← gets m_currentToken;
  lift (expect tk_identifier);;
  name ← parseName;
  lift (expect tk_l_paren);;
  no_params ← gets (next_is tk_r_paren);
  parameters ←
    (if negb no_params then
       do_while fuel
         (λ parameters,
            lift advance;;
            cur ← gets m_currentToken;
            nxt ← gets next;
            (if negb (is_kind tk_identifier cur) then
               lift (error nxt
                       ("expected token of type "
                        +:+ to_string_Z (tk_code tk_identifier)
                        +:+ ", got " +:+ to_string_Z (tk_code (tkType cur))
                        +:+ " instead"))
             else mret tt);;
            paramType ← gets parseType;
            lift (expect tk_identifier);;
            paramName ← parseName;
            lift advance;;
            mret (true, parameters ++ [(paramType, paramName)]))
         (cur_is tk_comma) []
     else
       lift advance;; mret []);
  cur ← gets m_currentToken;
  (if negb (is_kind tk_r_paren cur) then
     lift (error cur ("expected ), got " +:+ keyword cur +:+ " instead"))
   else mret tt);;
  has_arrow ← gets (next_is tk_arrow);
  returnType ←
    (if has_arrow : bool then
       lift advance;;
       lift (expect tk_identifier);;
       gets parseType
     else mret (IdentifierExpression cur "void"));
  lift (expect tk_colon);;
  lift (expect tk_ident);;
  body ← self_parseBlockStatement self;
  mret (FunctionDefinition tok returnType name parameters body).

Definition parseReturn : M AstNode :=
  tok ← gets m_currentToken;
  bare ← gets (next_is tk_new_line);
  returnValue ←
    (if negb bare then
       lift advance;;
       self_parseExpression self pr_lowest
     else
       lift advance;; mret NoLiteral);
  mret (ReturnStatement tok returnValue).

Definition parseLamda : M AstNode :=
  tok ← gets m_currentToken;
  lift (expect tk_l_paren);;
  types ←
    while_loop fuel (λ p, negb (cur_is tk_r_paren p))
      (λ types,
         lift advance;;
         cur ← gets m_currentToken;
         if is_kind tk_identifier cur then
           ty ← parseName;
           lift advance;;
           mret (true, types ++ [ty])
         else if is_kind tk_comma cur then
           lift (expect tk_identifier);;
           ty ← parseName;
           lift advance;;
           mret (true, types ++ [ty])
         else if is_kind tk_r_paren cur then
           mret (false, types)
         else
           lift advance;;
           mret (true, types))
      [];
  has_arrow ← gets (next_is tk_arrow);
  return_types ←
    (if has_arrow : bool then
       lift advance;;
       lift (expect tk_identifier);;
       ty ← parseName;
       mret [ty]
     else mret []);
  mret (LamdaDefine tok types return_types).

Definition parseTypeDef : M AstNode :=
  tok ← gets m_currentToken;
  lift advance;;
  name ← parseName;
  lift (expect tk_assign);;
  lift advance;;
  cur ← gets m_currentToken;
  ty ←
    (if is_kind tk_identifier cur then gets parseType
     else if is_kind tk_def cur then parseLamda
     else mret nullptr);
  lift advanceOnNewLine;;
  mret (TypeDefinition tok name ty).

(** The comma-separated list before a colon, in [parseMatch]: every item is
    followed by one [advance], and by a second one unless the colon has
    been reached. *)
Definition parseUntilColon (item : M AstNode) : M (list AstNode) :=
  while_loop fuel (λ p, negb (cur_is tk_colon p))
    (λ items,
       x ← item;
       lift advance;;
       at_colon ← gets (cur_is tk_colon);
       (if negb at_colon then lift advance else mret tt);;
       mret (true, items ++ [x]))
    [].

Definition parseMatch : M AstNode :=
  tok ← gets m_currentToken;
  lift advance;;
  to_match ← parseUntilColon (self_parseExpression self pr_lowest);
  lift (expect tk_ident);;
  cases ←
    while_loop fuel (next_is tk_case)
      (λ cases,
         lift advance;;
         lift advance;;
         cases_arg ←
           parseUntilColon
             (underscore ← gets (cur_is tk_underscore);
              if underscore : bool then mret NoLiteral
              else self_parseExpression self pr_lowest);
         lift (expect tk_ident);;
         body ← self_parseBlockStatement self;
         mret (true, cases ++ [(cases_arg, body)]))
      [];
  has_default ← gets (next_is tk_default);
  default_body ←
    (if has_default : bool then
       lift advance;;
       lift (expect tk_colon);;
       lift (expect tk_ident);;
       self_parseBlockStatement self
     else mret NoLiteral);
  lift (expect tk_dedent);;
  mret (MatchStatement tok to_match cases default_body).

(** [parseFunctionDef] is called directly, so it runs at the caller's fuel;
    the vector [decorators] is declared, never written, and handed to the
    node. *)
Definition parseDecoratorCall : M AstNode :=
  tok ← gets m_currentToken;
  let decorators : list AstNode := [] in
  while_loop fuel (cur_is tk_at)
    (λ _ : unit,
       lift (expect tk_identifier);;
       _ ← self_parseExpression self pr_lowest;
       lift advance;;
       mret (true, tt))
    tt;;
  is_def ← gets (cur_is tk_def);
  body ← (if is_def : bool then parseFunctionDef else mret nullptr);
  mret (DecoratorStatement tok decorators body).

Definition parseStatement_ : M AstNode :=
  cur ← gets m_currentToken;
  nxt ← gets next;
  match tkType cur with
  | tk_const => parseConstDeclaration
  | tk_at => parseDecoratorCall
  | tk_if => parseIf
  | tk_while => parseWhile
  | tk_for => parseFor
  | tk_from | tk_import => parseImport
  | tk_def => parseFunctionDef
  | tk_break => lift advanceOnNewLine;; mret (BreakStatement cur)
  | tk_pass => lift advanceOnNewLine;; mret (PassStatement cur)
  | tk_match => parseMatch
  | tk_continue => lift advanceOnNewLine;; mret (ContinueStatement cur)
  | tk_return => parseReturn
  | tk_scope => parseScope
  | tk_cppcode =>
      lift advance;;
      stmt ← parseCpp;
      lift advanceOnNewLine;;
      mret stmt
  | tk_type => parseTypeDef
  | tk_identifier =>
      if is_kind tk_identifier nxt || is_kind tk_assign nxt
      then parseVariableStatement
      else self_parseExpression self pr_lowest
  | _ => self_parseExpression self pr_lowest
  end.

End Routines.

(** The parser at a given fuel: every call through [Self] costs one unit,
    and a loop runs for at most as many turns as its routine has fuel. *)
Fixpoint parser_at (fuel : nat) : Self :=
  match fuel with
  | 0 => mkSelf diverge diverge (λ _, diverge)
  | S n =>
      mkSelf (parseStatement_ n (parser_at n))
             (parseBlockStatement_ n (parser_at n))
             (parseExpression_ n (parser_at n))
  end.

Definition parseStatement (fuel : nat) : M AstNode :=
  self_parseStatement (parser_at fuel).

Definition parseBlockStatement (fuel : nat) : M AstNode :=
  self_parseBlockStatement (parser_at fuel).

(** [parseExpression]'s parameter defaults to [pr_lowest] where the source
    calls it without an argument. *)
Definition parseExpression (fuel : nat) (currPrecedence : PrecedenceType)
  : M AstNode :=
  self_parseExpression (parser_at fuel) currPrecedence.

(** How [Parser::parse] ends: it returns the tree, or it shows the errors and
    leaves the process through [exit(1)]. *)
Inductive Outcome :=
| Returned (ast : AstNode)
| Exited (status : Z) (displayed : list PEError).

(** The statement loop of [Parser::parse]. *)
Definition parse_statements (fuel : nat) : M (list AstNode) :=
  while_loop fuel (λ p, negb (cur_is tk_eof p))
    (λ statements,
       stmt ← parseStatement fuel;
       lift advance;;
       mret (true, statements ++ [stmt]))
    [].

(** What [Parser::parse] does once the loop has ended. *)
Definition parse_finish (statements : list AstNode) (p : Parser) : Outcome :=
  if bool_decide (m_errors p = []) then Returned (Program statements)
  else Exited 1 (m_errors p).

Definition parse (fuel : nat) (p : Parser) : option Outcome :=
  match parse_statements fuel p with
  | Some (statements, p') => Some (parse_finish statements p')
  | None => None
  end.

(** The body of the loop of [parseBlockStatement], by name. *)
Definition block_body (self : Self) (statements : list AstNode)
  : M (bool * list AstNode) :=
  cur ← gets m_currentToken;
  (if is_kind tk_eof cur then
     lift (error cur "expected end of identation, got eof instead")
   else mret tt);;
  stmt ← self_parseStatement self;
  lift advance;;
  mret (true, statements ++ [stmt]).

(** The body of the loop of [parseUntilColon], by name. *)
Definition until_colon_body (item : M AstNode) (items : list AstNode)
  : M (bool * list AstNode) :=
  x ← item;
  lift advance;;
  at_colon ← gets (cur_is tk_colon);
  (if negb at_colon then lift advance else mret tt);;
  mret (true, items ++ [x]).

End Parser.

(** A binary operator: a token kind of the precedence table that the infix
    loop hands to [parseBinaryOperation]. *)
Definition is_binary_operator (k : TokenType) : bool :=
  match k with
  | tk_l_paren | tk_list_open | tk_dot => false
  | _ => bool_decide (is_Some (precedenceMap k))
  end.

(** The tokens that follow an expression and end it: a token without a
    precedence that is not a line break, or a line break followed by a
    token without a precedence. *)
Definition ends_expression (after : list Token) : bool :=
  match after with
  | t :: after' =>
      bool_decide (precedenceMap (tkType t) = None)
      && (negb (is_kind tk_new_line t)
          || match after' with
             | u :: _ => bool_decide (precedenceMap (tkType u) = None)
             | [] => false
             end)
  | [] => false
  end.

(** The cursor has run past the tokens: the current token is [EOF] and no
    token follows it. *)
Definition at_end (p : Parser) : Prop :=
  tkType (m_currentToken p) = tk_eof
  ∧ (length (m_tokens p) ≤ S (m_tokIndex p))%nat.

(** Token vectors for the examples. *)
Definition example_token (k : TokenType) (kw : string) : Token :=
  mkToken k kw 1 0 "".

(** [a ** b ** c], a line break, end of file *)
Definition tokens_power : list Token :=
  [example_token tk_identifier "a"; example_token tk_exponent "**";
   example_token tk_identifier "b"; example_token tk_exponent "**";
   example_token tk_identifier "c"; example_token tk_new_line "";
   example_token tk_eof ""].

(** [while x:], an indented [pass], and the end of the file without the
    token that closes the block *)
Definition tokens_unterminated_block : list Token :=
  [example_token tk_while "while"; example_token tk_identifier "x";
   example_token tk_colon ":"; example_token tk_ident "";
   example_token tk_pass "pass"; example_token tk_new_line "";
   example_token tk_eof ""].

Definition parser_unterminated_block : Parser :=
  mkParser tokens_unterminated_block 0 (example_token tk_while "while") []
           "a.pg".

(** [match x] without its colon *)
Definition tokens_match_without_colon : list Token :=
  [example_token tk_match "match"; example_token tk_identifier "x";
   example_token tk_new_line ""; example_token tk_eof ""].

Definition parser_match_without_colon : Parser :=
  mkParser tokens_match_without_colon 0 (example_token tk_match "match") []
           "a.pg".

(** [@deco] over [def g(): pass] *)
Definition tokens_decorated : list Token :=
  [example_token tk_at "@"; example_token tk_identifier "deco";
   example_token tk_new_line ""; example_token tk_def "def";
   example_token tk_identifier "g"; example_token tk_l_paren "(";
   example_token tk_r_paren ")"; example_token tk_colon ":";
   example_token tk_ident ""; example_token tk_pass "pass";
   example_token tk_new_line ""; example_token tk_dedent "";
   example_token tk_eof ""].

Definition parser_decorated : Parser :=
  mkParser tokens_decorated 0 (example_token tk_at "@") [] "a.pg".

(** An instance of the externals for running the parser on examples: the
    default token has a kind that [parser.cpp] does not name, every
    enumerator prints as 0, and each literal parser builds its node from the
    current token without moving. *)
Definition example_externals : Externals := {|
  default_token := mkToken (tk_other 0) "" 0 0 "";
  tk_code := λ _, 0%Z;
  parseInteger := λ p, Some (IntegerLiteral (m_currentToken p)
                                            (keyword (m_currentToken p)), p);
  parseDecimal := λ p, Some (DecimalLiteral (m_currentToken p)
                                            (keyword (m_currentToken p)), p);
  parseNone := λ p, Some (NoneLiteral (m_currentToken p), p);
  parseString := λ formatted raw p,
    Some (StringLiteral (m_currentToken p) (keyword (m_currentToken p))
                        formatted raw, p);
  parseBool := λ p, Some (BoolLiteral (m_currentToken p)
                                      (keyword (m_currentToken p)), p);
  parseList := λ p, Some (ListLiteral (m_currentToken p) [], p);
  parseDict := λ p, Some (DictLiteral (m_currentToken p) [], p);
  parseCpp := λ p, Some (CppStatement (m_currentToken p)
                                      (keyword (m_currentToken p)), p)
|}.

(** A closing parenthesis where a statement should start, and the end of
    the file. *)
Definition parser_stray : Parser :=
  mkParser [example_token tk_r_paren ")"; example_token tk_eof ""] 0
           (example_token tk_r_paren ")") [] "a.pg".

(** [a + b * c] and, with a line break after [b], [a + b] and [* c]. *)
Definition tokens_sum_product : list Token :=
  [example_token tk_identifier "a"; example_token tk_plus "+";
   example_token tk_identifier "b"; example_token tk_multiply "*";
   example_token tk_identifier "c"; example_token tk_new_line "";
   example_token tk_eof ""].

Definition tokens_sum_break_product : list Token :=
  [example_token tk_identifier "a"; example_token tk_plus "+";
   example_token tk_identifier "b"; example_token tk_new_line "";
   example_token tk_multiply "*"; example_token tk_identifier "c";
   example_token tk_new_line ""; example_token tk_eof ""].

(** The tokens that end an expression and the statement it stands in: a
    token without a precedence that is not a line break, or a line break
    followed by such a token. *)
Definition ends_statement (after : list Token) : bool :=
  let plain (t : Token) :=
    bool_decide (precedenceMap (tkType t) = None)
    && negb (is_kind tk_new_line t) in
  match after with
  | t :: rest =>
      plain t
      || (is_kind tk_new_line t
          && match rest with
             | u :: _ => plain u
             | [] => false
             end)
  | [] => false
  end.

(** The token kinds for which neither [parseStatement] nor the prefix
    dispatch of [parseExpression] has a case. *)
Definition starts_nothing (k : TokenType) : bool :=
  match k with
  | tk_const | tk_at | tk_if | tk_while | tk_for | tk_from | tk_import
  | tk_def | tk_break | tk_pass | tk_match | tk_continue | tk_return
  | tk_scope | tk_cppcode | tk_type | tk_identifier
  | tk_integer | tk_decimal | tk_none | tk_format | tk_raw | tk_string
  | tk_true | tk_false | tk_l_paren | tk_list_open | tk_dict_open
  | tk_negative | tk_not | tk_bit_not => false
  | _ => true
  end.

(** [p'] is a later state of the parser [p]: the same tokens and file, the
    cursor not before where it was, and the errors of [p] followed by the
    ones recorded since. *)
Definition grows (p p' : Parser) : Prop :=
  m_tokens p' = m_tokens p
  ∧ m_filename p' = m_filename p
  ∧ (m_tokIndex p ≤ m_tokIndex p')%nat
  ∧ m_errors p `prefix_of` m_errors p'.

(** A routine that only moves the parser forward. *)
Definition steady {A} (m : M A) : Prop :=
  ∀ p a p', m p = Some (a, p') → grows p p'.

(** What is assumed of the literal parsers, which are not in [parser.cpp]:
    they only move the parser forward. *)
Class ExternalsSteady `{Externals} : Prop := {
  parseInteger_steady : steady parseInteger;
  parseDecimal_steady : steady parseDecimal;
  parseNone_steady : steady parseNone;
  parseString_steady : ∀ formatted raw, steady (parseString formatted raw);
  parseBool_steady : steady parseBool;
  parseList_steady : steady parseList;
  parseDict_steady : steady parseDict;
  parseCpp_steady : steady parseCpp
}.

Definition self_steady (self : Self) : Prop :=
  steady (self_parseStatement self)
  ∧ steady (self_parseBlockStatement self)
  ∧ ∀ prec, steady (self_parseExpression self prec).


(** [a . b + c] and [( a + b ) * c] *)
Definition tokens_member_sum : list Token :=
  [example_token tk_identifier "a"; example_token tk_dot ".";
   example_token tk_identifier "b"; example_token tk_plus "+";
   example_token tk_identifier "c"; example_token tk_new_line "";
   example_token tk_eof ""].

Definition tokens_grouped_sum : list Token :=
  [example_token tk_l_paren "("; example_token tk_identifier "a";
   example_token tk_plus "+"; example_token tk_identifier "b";
   example_token tk_r_paren ")"; example_token tk_multiply "*";
   example_token tk_identifier "c"; example_token tk_new_line "";
   example_token tk_eof ""].

(** [a ** b . c ** d], a line break, end of file *)
Definition tokens_power_member : list Token :=
  [example_token tk_identifier "a"; example_token tk_exponent "**";
   example_token tk_identifier "b"; example_token tk_dot ".";
   example_token tk_identifier "c"; example_token tk_exponent "**";
   example_token tk_identifier "d"; example_token tk_new_line "";
   example_token tk_eof ""].

End Parse.

(** ** codegen/cpp/codegen.cpp *)

Module Codegen.
Import SymbolTable.

(** [global_name]: every backslash, slash and dot of the file name becomes
    four underscores. *)
Fixpoint global_name (name : string) : string :=
  match name with
  | EmptyString => EmptyString
  | String c rest =>
      if Ascii.eqb c "\" || Ascii.eqb c "/" || Ascii.eqb c "."
      then "____" +:+ global_name rest
      else String c (global_name rest)
  end.

(** Modelled from the spec: the node classes of [ast/ast.hpp], with the
    fields that the visitors of [codegen.cpp] read through accessors.
    [TypeTuple] and [ExpressionTuple] are the sequences of types and of
    values behind a tuple return. *)
Record parameter (A : Type) := mk_parameter {
  p_type : A;
  p_name : A;
  p_default : A
}.
Arguments mk_parameter {A}.
Arguments p_type {A}.
Arguments p_name {A}.
Arguments p_default {A}.

#[local] Unset Elimination Schemes.
Inductive AstNode :=
| Program (statements : list AstNode)
| BlockStatement (statements : list AstNode)
| ImportStatement (tok : Token)
| FunctionDefinition (tok : Token) (returnType name : AstNode)
    (parameters : list (parameter AstNode)) (body : AstNode)
| VariableStatement (tok : Token) (varType name value : AstNode)
| ConstDeclaration (tok : Token) (constType name value : AstNode)
| TypeDefinition (tok : Token) (name baseType : AstNode)
| PassStatement (tok : Token)
| IfStatement (tok : Token) (condition ifBody elseBody : AstNode)
    (elifs : list (AstNode * AstNode))
| WhileStatement (tok : Token) (condition body : AstNode)
| ForStatement (tok : Token) (variable : list AstNode)
    (sequence body : AstNode)
| MatchStatement (tok : Token) (matchItem : list AstNode)
    (caseBody : list (list AstNode * AstNode)) (defaultBody : AstNode)
| ScopeStatement (tok : Token) (body : AstNode)
| ReturnStatement (tok : Token) (returnValue : AstNode)
| ContinueStatement (tok : Token)
| BreakStatement (tok : Token)
| DecoratorStatement (tok : Token) (decoratorItem : list AstNode)
    (body : AstNode)
| ListLiteral (tok : Token) (elements : list AstNode)
| DictLiteral (tok : Token) (elements : list (AstNode * AstNode))
| ListOrDictAccess (tok : Token) (container : AstNode)
    (keyOrIndex : list AstNode)
| BinaryOperation (tok : Token) (left : AstNode) (op : Token)
    (right : AstNode)
| PrefixExpression (tok : Token) (prefix : Token) (right : AstNode)
| PostfixExpression (tok : Token) (left : AstNode) (postfix : Token)
| FunctionCall (tok : Token) (name : AstNode) (arguments : list AstNode)
| ArrowExpression (tok : Token) (owner referenced : AstNode)
| DotExpression (tok : Token) (owner referenced : AstNode)
| IdentifierExpression (tok : Token) (value : string)
| TypeExpression (tok : Token) (value : string)
    (generic_types : list AstNode)
| ListTypeExpr (tok : Token) (elemType : AstNode)
| DictTypeExpr (tok : Token) (keyType valueType : AstNode)
| FunctionTypeExpr (tok : Token) (argTypes : list AstNode)
    (returnTypes : AstNode)
| NoLiteral
| IntegerLiteral (tok : Token) (value : string)
| DecimalLiteral (tok : Token) (value : string)
| StringLiteral (tok : Token) (value : string) (formatted raw : bool)
| BoolLiteral (tok : Token) (value : string)
| NoneLiteral (tok : Token)
| AssertStatement (tok : Token) (condition : AstNode)
| StaticStatement (tok : Token) (body : AstNode)
| InlineStatement (tok : Token) (body : AstNode)
| RaiseStatement (tok : Token) (value : AstNode)
| UnionLiteral (tok : Token) (elements : list (AstNode * AstNode))
    (name : AstNode)
| EnumLiteral (tok : Token) (fields : list (AstNode * AstNode))
    (name : AstNode)
| CastStatement (tok : Token) (cast_type value : AstNode)
| PointerTypeExpr (tok : Token) (baseType : AstNode)
| RefTypeExpr (tok : Token) (baseType : AstNode)
| ClassDefinition (tok : Token) (name : AstNode) (parent : list AstNode)
    (attributes methods other : list AstNode)
| WithStatement (tok : Token) (variables values : list AstNode)
    (body : AstNode)
| DefaultArg (tok : Token) (name value : AstNode)
| ExportStatement (tok : Token) (body : AstNode)
| TernaryIf (tok : Token) (if_value if_condition else_value : AstNode)
| TryExcept (tok : Token) (body : AstNode)
    (except_clauses : list ((list AstNode * AstNode) * AstNode))
    (else_body : AstNode)
| MultipleAssign (tok : Token) (names values : list AstNode)
| AugAssign (tok : Token) (name : AstNode) (op : string) (value : AstNode)
| TypeTuple (tok : Token) (items : list AstNode)
| ExpressionTuple (tok : Token) (items : list AstNode).
#[local] Set Elimination Schemes.

(** [node->type() == KAst...] *)
Definition is_NoLiteral (n : AstNode) : bool :=
  match n with NoLiteral => true | _ => false end.
Definition is_BlockStmt (n : AstNode) : bool :=
  match n with BlockStatement _ => true | _ => false end.
Definition is_DotExpression (n : AstNode) : bool :=
  match n with DotExpression _ _ _ => true | _ => false end.
Definition is_ArrowExpression (n : AstNode) : bool :=
  match n with ArrowExpression _ _ _ => true | _ => false end.

(** Modelled from the spec: [TurpleTypes] and [TurpleExpression] are helpers
    of the generator that are not in [codegen.cpp]; they give the components
    of a tuple ("a function whose declared return is a sequence of types")
    and the empty vector for every other node. *)
Definition TurpleTypes (node : AstNode) : list AstNode :=
  match node with TypeTuple _ items => items | _ => [] end.

Definition TurpleExpression (node : AstNode) : list AstNode :=
  match node with ExpressionTuple _ items => items | _ => [] end.

(** The generator object.  [m_file] is the text written to the output file so
    far; [m_env] is created and never read, so it is left out. *)
Record Codegen := mkCodegen {
  m_file : string;
  m_filename : string;
  m_global_name : string;
  m_symbolMap : MangleName;
  res : string;
  save : bool;
  local : bool;
  is_define : bool;
  is_ref : bool;
  is_func_def : bool;
  is_class : bool;
  is_dot_exp : bool;
  enum_name : list string;
  curr_enum_name : string
}.

Definition with_m_file (v : string) (st : Codegen) : Codegen :=
  mkCodegen v (m_filename st) (m_global_name st) (m_symbolMap st) (res st) (save st) (local st) (is_define st) (is_ref st) (is_func_def st) (is_class st) (is_dot_exp st) (enum_name st) (curr_enum_name st).

Definition with_m_symbolMap (v : MangleName) (st : Codegen) : Codegen :=
  mkCodegen (m_file st) (m_filename st) (m_global_name st) v (res st) (save st) (local st) (is_define st) (is_ref st) (is_func_def st) (is_class st) (is_dot_exp st) (enum_name st) (curr_enum_name st).

Definition with_res (v : string) (st : Codegen) : Codegen :=
  mkCodegen (m_file st) (m_filename st) (m_global_name st) (m_symbolMap st) v (save st) (local st) (is_define st) (is_ref st) (is_func_def st) (is_class st) (is_dot_exp st) (enum_name st) (curr_enum_name st).

Definition with_save (v : bool) (st : Codegen) : Codegen :=
  mkCodegen (m_file st) (m_filename st) (m_global_name st) (m_symbolMap st) (res st) v (local st) (is_define st) (is_ref st) (is_func_def st) (is_class st) (is_dot_exp st) (enum_name st) (curr_enum_name st).

Definition with_local (v : bool) (st : Codegen) : Codegen :=
  mkCodegen (m_file st) (m_filename st) (m_global_name st) (m_symbolMap st) (res st) (save st) v (is_define st) (is_ref st) (is_func_def st) (is_class st) (is_dot_exp st) (enum_name st) (curr_enum_name st).

Definition with_is_define (v : bool) (st : Codegen) : Codegen :=
  mkCodegen (m_file st) (m_filename st) (m_global_name st) (m_symbolMap st) (res st) (save st) (local st) v (is_ref st) (is_func_def st) (is_class st) (is_dot_exp st) (enum_name st) (curr_enum_name st).

Definition with_is_ref (v : bool) (st : Codegen) : Codegen :=
  mkCodegen (m_file st) (m_filename st) (m_global_name st) (m_symbolMap st) (res st) (save st) (local st) (is_define st) v (is_func_def st) (is_class st) (is_dot_exp st) (enum_name st) (curr_enum_name st).

Definition with_is_func_def (v : bool) (st : Codegen) : Codegen :=
  mkCodegen (m_file st) (m_filename st) (m_global_name st) (m_symbolMap st) (res st) (save st) (local st) (is_define st) (is_ref st) v (is_class st) (is_dot_exp st) (enum_name st) (curr_enum_name st).

Definition with_is_class (v : bool) (st : Codegen) : Codegen :=
  mkCodegen (m_file st) (m_filename st) (m_global_name st) (m_symbolMap st) (res st) (save st) (local st) (is_define st) (is_ref st) (is_func_def st) v (is_dot_exp st) (enum_name st) (curr_enum_name st).

Definition with_is_dot_exp (v : bool) (st : Codegen) : Codegen :=
  mkCodegen (m_file st) (m_filename st) (m_global_name st) (m_symbolMap st) (res st) (save st) (local st) (is_define st) (is_ref st) (is_func_def st) (is_class st) v (enum_name st) (curr_enum_name st).

Definition with_enum_name (v : list string) (st : Codegen) : Codegen :=
  mkCodegen (m_file st) (m_filename st) (m_global_name st) (m_symbolMap st) (res st) (save st) (local st) (is_define st) (is_ref st) (is_func_def st) (is_class st) (is_dot_exp st) v (curr_enum_name st).

Definition with_curr_enum_name (v : string) (st : Codegen) : Codegen :=
  mkCodegen (m_file st) (m_filename st) (m_global_name st) (m_symbolMap st) (res st) (save st) (local st) (is_define st) (is_ref st) (is_func_def st) (is_class st) (is_dot_exp st) (enum_name st) v.

(** The generator monad: [None] is a failed unchecked downcast or an index
    past the end of a vector, which the source does not define. *)
Definition M (A : Type) : Type := Codegen → option (A * Codegen).

#[global] Instance M_ret : MRet M := λ A a st, Some (a, st).
#[global] Instance M_bind : MBind M := λ A B f m st,
  match m st with
  | Some (a, st') => f a st'
  | None => None
  end.

Definition gets {A} (f : Codegen → A) : M A := λ st, Some (f st, st).
Definition lift (f : Codegen → Codegen) : M unit := λ st, Some (tt, f st).
Definition undefined {A} : M A := λ _, None.

(** The state that a visit leaves, when it is defined. *)
Definition exec (m : M unit) (st : Codegen) : option Codegen :=
  match m st with
  | Some (_, st') => Some st'
  | None => None
  end.

(** [Codegen::write] *)
Definition write_to (code : string) (st : Codegen) : Codegen :=
  if save st then with_res (res st +:+ code) st
  else with_m_file (m_file st +:+ code) st.

Definition write (code : string) : M unit := lift (write_to code).

(** The stream that [write] currently appends to. *)
Definition sink (st : Codegen) : string :=
  if save st then res st else m_file st.

(** [local_mangle_start() ... local_mangle_end()] around [body] *)
Definition local_mangle (body : M unit) : M unit := λ st,
  let curr_state := local st in
  let symbol_map := m_symbolMap st in
  match body (with_local true st) with
  | Some (_, st') =>
      Some (tt, with_m_symbolMap symbol_map (with_local curr_state st'))
  | None => None
  end.

(** [handle_ref_start() ... handle_ref_end()] around [body] *)
Definition handle_ref (body : M unit) : M unit := λ st,
  let curr_ref := is_ref st in
  match body (with_is_ref false st) with
  | Some (_, st') => Some (tt, with_is_ref curr_ref st')
  | None => None
  end.

Section Loops.
Context {A B : Type}.

(** [for (auto& x : v) body(x)] *)
Section ForEach.
Variable body : A → M unit.
Fixpoint for_each (v : list A) : M unit :=
  match v with
  | [] => mret tt
  | x :: rest => body x;; for_each rest
  end.
End ForEach.

(** [for (size_t i = first; i < ...; ++i) body(i, v[i])], over the elements
    from index [first] on. *)
Section ForIndex.
Variable body : nat → A → M unit.
Fixpoint for_index (i : nat) (v : list A) : M unit :=
  match v with
  | [] => mret tt
  | x :: rest => body i x;; for_index (S i) rest
  end.
End ForIndex.

(** The same loop reading a second vector at the same index, which must
    exist.  [visit(WithStatement)] runs it over the visits of [values[i]] and
    [variables[i]], taken as actions. *)
Section ForIndex2.
Variable body : nat → A → B → M unit.
Fixpoint for_index2 (i : nat) (v : list A) (w : list B) : M unit :=
  match v, w with
  | [], _ => mret tt
  | x :: rest, y :: rest' => body i x y;; for_index2 (S i) rest rest'
  | _ :: _, [] => undefined
  end.
End ForIndex2.

End Loops.
Arguments for_each {A} body v.
Arguments for_index {A} body i v.
Arguments for_index2 {A B} body i v w.

(** [Codegen::visit(const ast::IdentifierExpression&)] *)
Definition visit_IdentifierExpression (x : string) : M unit := λ st,
  if is_ref st then
    write ("____PEREGRINE____PEREGRINE____" +:+ x) st
  else if negb (String.eqb (curr_enum_name st) "") then
    (write (lookup (m_symbolMap st) (curr_enum_name st)
            +:+ "________PEREGRINE____PEREGRINE____");;
     write x) st
  else
    let st1 :=
      if negb (contains (m_symbolMap st) x) then
        if local st then with_m_symbolMap (set_local x (m_symbolMap st)) st
        else with_m_symbolMap
               (set_global x ("____PEREGRINE____PEREGRINE____"
                              +:+ m_global_name st +:+ x)
                           (m_symbolMap st)) st
      else if is_define st then
        with_m_symbolMap (set_local x (m_symbolMap st)) st
      else st in
    write (lookup (m_symbolMap st1) x) st1.

(** The out-parameters of a tuple return, as the function definitions write
    them. *)
Definition return_parameter (i : nat) : string :=
  "*____PEREGRINE____RETURN____" +:+ to_string i +:+ "=NULL".


(** Helpers of the generator that [codegen.cpp] calls and does not define,
    and the visitors of the two tuple nodes. *)
Class Utils := {
  matchArg : list AstNode → list AstNode → M unit;
  magic_methord : AstNode → string → M unit;
  wrap : AstNode → string → M string;
  visit_TypeTuple : Token → list AstNode → M unit;
  visit_ExpressionTuple : Token → list AstNode → M unit
}.

Section Visitor.
Context `{Utils}.

Definition when (b : bool) (m : M unit) : M unit :=
  if b then m else mret tt.

(** [Codegen::codegenFuncParams]; [start] is 0 wherever [codegen.cpp] calls
    it. *)
Definition codegenFuncParams (visit : AstNode → M unit)
    (parameters : list (parameter AstNode)) (start : nat) : M unit :=
  for_index
    (λ i p,
       when (negb (i - start =? 0)%nat) (write ", ");;
       (if is_NoLiteral (p_type p) then write "auto" else visit (p_type p));;
       write " ";;
       lift (with_is_define true);;
       visit (p_name p);;
       lift (with_is_define false);;
       when (negb (is_NoLiteral (p_default p)))
            (write "=";; visit (p_default p)))
    start (drop start parameters).

(** The loop over the components of a tuple return type in the two
    branches of [visit(FunctionDefinition)]. *)
Definition codegenReturnParams (visit : AstNode → M unit)
    (return_type : list AstNode) : M unit :=
  for_index
    (λ i t,
       visit t;;
       write ("*____PEREGRINE____RETURN____" +:+ to_string i +:+ "=NULL");;
       when (i <? length return_type - 1)%nat (write ","))
    0 return_type.

(** [over_tuple_types returnType loop] is [loop (TurpleTypes returnType)],
    written so that the components are seen to be parts of the node. *)
Definition over_tuple_types (returnType : AstNode)
    (loop : list AstNode → M unit) : M unit :=
  match returnType with
  | TypeTuple _ items => loop items
  | _ => loop []
  end.

Definition over_tuple_values (returnValue : AstNode)
    (loop : list AstNode → M unit) : M unit :=
  match returnValue with
  | ExpressionTuple _ items => loop items
  | _ => loop []
  end.

(** The same loop in [visit(DecoratorStatement)], which writes the star
    on its own. *)
Definition codegenReturnParamsDecorator (visit : AstNode → M unit)
    (return_type : list AstNode) : M unit :=
  for_index
    (λ i t,
       visit t;;
       write "*";;
       write ("____PEREGRINE____RETURN____" +:+ to_string i +:+ "=NULL");;
       when (i <? length return_type - 1)%nat (write ","))
    0 return_type.

(** The part of [visit(DecoratorStatement)] that writes the decorated
    function into the accumulator: [x] receives the text up to the equals
    sign, [contains] the lambda. *)
Definition codegenDecorated (visit : AstNode → M unit)
    (function_name returnType fbody : AstNode)
    (parameters : list (parameter AstNode)) : M (string * string) :=
  write "auto ";;
  lift (with_is_define true);;
  visit function_name;;
  lift (with_is_define false);;
  write "=";;
  x ← gets res;
  lift (with_res "");;
  in_function ← gets is_func_def;
  (if in_function : bool then write "[=](" else write "[](");;
  let return_type := TurpleTypes returnType in
  local_mangle
    (codegenFuncParams visit parameters 0;;
     when ((0 <? length return_type)%nat
           && (0 <? length parameters)%nat) (write ",");;
     over_tuple_types returnType (codegenReturnParamsDecorator visit);;
     write ")mutable->";;
     (if (length return_type =? 0)%nat then visit returnType
      else write "void");;
     write ("{" +:+ nl);;
     in_function ← gets is_func_def;
     (if negb in_function then
        lift (with_is_func_def true);;
        visit fbody;;
        lift (with_is_func_def false)
      else visit fbody);;
     write (nl +:+ "}"));;
  contains ← gets res;
  lift (with_res "");;
  mret (x, contains).

(** [for (size_t i = items.size() - 1; i != (size_t)-1; i--)
       contains = wrap(items[i], contains);]
    with [n] the number of items that are still to be wrapped. *)
Fixpoint wrap_all (items : list AstNode) (n : nat) (contains : string)
  : M string :=
  match n with
  | 0 => mret contains
  | S i =>
      match items !! i with
      | Some item => contains' ← wrap item contains; wrap_all items i contains'
      | None => undefined
      end
  end.

(** One case of a match statement, [i] being its index. *)
Definition codegenCase (visit : AstNode → M unit) (toMatch : list AstNode)
    (i : nat) (currCase : list AstNode * AstNode) : M unit :=
  let wildcard :=
    match currCase.1 with
    | [only] => is_NoLiteral only
    | _ => false
    end in
  if wildcard then
    if (i =? 0)%nat then
      visit currCase.2;;
      write nl
    else
      write ("else {" +:+ nl);;
      visit currCase.2;;
      write (nl +:+ "}" +:+ nl)
  else if (i =? 0)%nat then
    write "if (";;
    matchArg toMatch currCase.1;;
    write (") {" +:+ nl);;
    visit currCase.2;;
    write (nl +:+ "}" +:+ nl)
  else
    write "else if (";;
    matchArg toMatch currCase.1;;
    write (") {" +:+ nl);;
    visit currCase.2;;
    write (nl +:+ "}" +:+ nl).

(** One clause of a try statement: the test of the caught value against
    the listed exceptions, the optional binding, and the handler. *)
Definition codegenExceptClause (visit : AstNode → M unit)
    (x : (list AstNode * AstNode) * AstNode) : M unit :=
  for_index
    (λ i e,
       write "__PEREGRINE__exception==";;
       visit e;;
       when (i <? length x.1.1 - 1)%nat (write " or "))
    0 x.1.1;;
  write ("){" +:+ nl);;
  when (negb (is_NoLiteral x.1.2))
       (write "auto ";;
        visit x.1.2;;
        write ("=__PEREGRINE__exception;" +:+ nl));;
  visit x.2;;
  write ("}" +:+ nl).

(** The attributes and methods of a class body. *)
Definition codegenClassMembers (visit : AstNode → M unit)
    (attributes methods : list AstNode) (name : string) : M unit :=
  for_each (λ x, visit x;; write (";" +:+ nl)) attributes;;
  for_each (λ x, magic_methord x name;; write (";" +:+ nl)) methods.

(** [Codegen::visit], one case for each overload. *)
Fixpoint visit (node : AstNode) {struct node} : M unit :=
  match node with
  | Program statements =>
      for_each (λ stmt, visit stmt;; write (";" +:+ nl)) statements

  | BlockStatement statements =>
      for_each (λ stmt, write "    ";; visit stmt;; write (";" +:+ nl))
               statements

  | ImportStatement _ => mret tt

  | FunctionDefinition _ returnType name parameters body =>
      let return_type := TurpleTypes returnType in
      match name with
      | IdentifierExpression _ functionName =>
          in_function ← gets is_func_def;
          if negb in_function then
            lift (with_is_func_def true);;
            (if String.eqb functionName "main" then
               write "int main (";;
               lift (λ st, with_m_symbolMap
                             (set_global "main" "main" (m_symbolMap st)) st);;
               local_mangle
                 (codegenFuncParams visit parameters 0;;
                  write (") {" +:+ nl);;
                  visit body;;
                  write ("return 0;" +:+ nl +:+ "}"))
             else
               (if (length return_type =? 0)%nat then visit returnType
                else write "void");;
               write " ";;
               lift (with_is_define true);;
               visit name;;
               lift (with_is_define false);;
               write "(";;
               local_mangle
                 (codegenFuncParams visit parameters 0;;
                  when ((0 <? length return_type)%nat
                        && (0 <? length parameters)%nat) (write ",");;
                  over_tuple_types returnType (codegenReturnParams visit);;
                  write (") {" +:+ nl);;
                  visit body;;
                  write (nl +:+ "}")));;
            lift (with_is_func_def false)
          else
            local_mangle
              (write "auto ";;
               lift (with_is_define true);;
               visit name;;
               lift (with_is_define false);;
               write "=[=](";;
               codegenFuncParams visit parameters 0;;
               when ((0 <? length return_type)%nat
                     && (0 <? length parameters)%nat) (write ",");;
               over_tuple_types returnType (codegenReturnParams visit);;
               write ")mutable->";;
               (if (length return_type =? 0)%nat then visit returnType
                else write "void");;
               write (" {" +:+ nl);;
               visit body;;
               write (nl +:+ "}"))
      | _ => undefined
      end

  | VariableStatement _ varType name value =>
      when (negb (is_NoLiteral varType))
           (visit varType;;
            lift (with_is_define true);;
            write " ");;
      visit name;;
      lift (with_is_define false);;
      when (negb (is_NoLiteral value))
           (write " = ";; visit value)

  | ConstDeclaration _ constType name value =>
      write "const ";;
      when (negb (is_NoLiteral constType)) (visit constType);;
      write " ";;
      lift (with_is_define true);;
      visit name;;
      lift (with_is_define false);;
      write "=";;
      visit value

  | TypeDefinition _ name baseType =>
      write "typedef ";;
      visit baseType;;
      write " ";;
      lift (with_is_define true);;
      visit name;;
      lift (with_is_define false)

  | PassStatement _ => write (nl +:+ "//pass")

  | IfStatement _ condition ifBody elseBody elifs =>
      write "if (";;
      visit condition;;
      write (") {" +:+ nl);;
      visit ifBody;;
      write "}";;
      when (negb (length elifs =? 0)%nat)
           (write nl;;
            for_each (λ body,
                        write "else if (";;
                        visit body.1;;
                        write (") {" +:+ nl);;
                        visit body.2;;
                        write "}") elifs);;
      when (is_BlockStmt elseBody)
           (write (nl +:+ "else {" +:+ nl);;
            visit elseBody;;
            write "}")

  | WhileStatement _ condition body =>
      write "while (";;
      visit condition;;
      write (") {" +:+ nl);;
      visit body;;
      write "}"

  | ForStatement _ variable sequence body =>
      write ("{" +:+ nl +:+ "auto ____PEREGRINE____VALUE=");;
      visit sequence;;
      write (";" +:+ nl);;
      write ("for (size_t ____PEREGRINE____i=0;____PEREGRINE____i<____PEREGRINE____VALUE.____PEREGRINE____PEREGRINE______iter__();++____PEREGRINE____i){" +:+ nl);;
      match variable with
      | [only] =>
          write "auto ";;
          visit only;;
          write ("=____PEREGRINE____VALUE.____PEREGRINE____PEREGRINE______iterate__();" +:+ nl)
      | _ =>
          write ("auto ____PEREGRINE____TEMP=____PEREGRINE____VALUE.____PEREGRINE____PEREGRINE______iterate__();" +:+ nl);;
          for_index (λ i x,
                       write "auto ";;
                       visit x;;
                       write "=____PEREGRINE____TEMP.____PEREGRINE____PEREGRINE______getitem__(";;
                       write (to_string i);;
                       write (");" +:+ nl))
                    0 variable
      end;;
      visit body;;
      write (nl +:+ "}" +:+ nl +:+ "}")

  | MatchStatement _ toMatch cases defaultBody =>
      write (nl +:+ "while (true) {" +:+ nl);;
      for_index (codegenCase visit toMatch) 0 cases;;
      when (negb (is_NoLiteral defaultBody)) (visit defaultBody);;
      write (nl +:+ "break;" +:+ nl +:+ "}")

  | ScopeStatement _ body =>
      write ("{" +:+ nl);;
      visit body;;
      write (nl +:+ "}")

  | ReturnStatement _ returnValue =>
      if negb (is_NoLiteral returnValue) then
        let return_values := TurpleExpression returnValue in
        if (length return_values =? 0)%nat then
          write "return ";;
          visit returnValue
        else
          write ("if (____PEREGRINE____RETURN____0!=NULL){" +:+ nl);;
          over_tuple_values returnValue
            (for_index (λ i e,
                          write "    ";;
                          write ("*____PEREGRINE____RETURN____" +:+ to_string i
                                 +:+ "=");;
                          visit e;;
                          write (";" +:+ nl))
                       0);;
          write ("}" +:+ nl)
      else write "return "

  | ContinueStatement _ => write "continue"

  | BreakStatement _ => write "break"

  | DecoratorStatement _ items body =>
      lift (with_save true);;
      res0 ← gets res;
      prev ← (if negb (String.eqb res0 "") then
                lift (with_res "");; mret res0
              else mret "");
      '(x, contains) ←
        match body with
        | FunctionDefinition _ returnType function_name parameters fbody =>
            codegenDecorated visit function_name returnType fbody parameters
        | StaticStatement _ sbody =>
            write "static ";;
            match sbody with
            | FunctionDefinition _ returnType function_name parameters
                                 fbody =>
                codegenDecorated visit function_name returnType fbody
                                 parameters
            | _ => undefined
            end
        | _ => mret ("", "")
        end;
      contains ← wrap_all items (length items) contains;
      if String.eqb prev "" then
        lift (with_save false);;
        write (x +:+ contains)
      else
        write (prev +:+ x +:+ contains)

  | ListLiteral _ elements =>
      write "{";;
      for_index (λ i e,
                   visit e;;
                   when (i <? length elements - 1)%nat (write ","))
                0 elements;;
      write "}"

  | DictLiteral _ _ => mret tt

  | ListOrDictAccess _ container keyOrIndex =>
      visit container;;
      write ".____PEREGRINE____PEREGRINE______getitem__(";;
      handle_ref
        (match keyOrIndex with
         | [] => undefined
         | [first; second] => visit first;; write ",";; visit second
         | first :: _ => visit first
         end);;
      write ")"

  | BinaryOperation tok lhs op rhs =>
      if String.eqb (keyword op) "**" then
        write "_PEREGRINE_POWER(";;
        visit lhs;;
        write ",";;
        visit rhs;;
        write ")"
      else if String.eqb (keyword op) "//" then
        write "_PEREGRINE_FLOOR(";;
        visit lhs;;
        write "/";;
        visit rhs;;
        write ")"
      else if is_kind tk_in tok then
        write "(";;
        visit rhs;;
        write ".____PEREGRINE____PEREGRINE______contains__(";;
        visit lhs;;
        write "))"
      else if is_kind tk_not_in tok then
        write "(not ";;
        visit rhs;;
        write ".____PEREGRINE____PEREGRINE______contains__(";;
        visit lhs;;
        write "))"
      else
        write "(";;
        visit lhs;;
        write (" " +:+ keyword op +:+ " ");;
        visit rhs;;
        write ")"

  | PrefixExpression _ prefix rhs =>
      write ("(" +:+ keyword prefix +:+ " ");;
      visit rhs;;
      write ")"

  | PostfixExpression _ lhs postfix =>
      visit lhs;;
      write (keyword postfix)

  | FunctionCall _ name args =>
      visit name;;
      write "(";;
      handle_ref
        (for_index (λ i arg, when (negb (i =? 0)%nat) (write ", ");; visit arg)
                   0 args);;
      write ")"

  | ArrowExpression _ owner referenced =>
      x ← gets is_ref;
      when (negb (is_DotExpression owner) || negb (is_ArrowExpression owner))
           (lift (with_is_ref false);;
            visit owner);;
      write "->";;
      lift (with_is_ref true);;
      visit referenced;;
      lift (with_is_ref x)

  | DotExpression _ owner referenced =>
      x ← gets is_ref;
      lift (with_is_ref true);;
      when (negb (is_DotExpression owner) || negb (is_ArrowExpression owner))
           (lift (with_is_ref false));;
      in_dot ← gets is_dot_exp;
      (if negb in_dot then
         match owner with
         | IdentifierExpression _ name =>
             enums ← gets enum_name;
             known ← gets (λ st, contains (m_symbolMap st) name);
             if bool_decide (name ∈ enums) && known then
               mangled ← gets (λ st, lookup (m_symbolMap st) name);
               write (mangled +:+ "________PEREGRINE____PEREGRINE____");;
               match referenced with
               | IdentifierExpression _ field => write field
               | _ => undefined
               end
             else
               lift (with_is_dot_exp true);;
               visit owner;;
               write ".";;
               lift (with_is_ref true);;
               visit referenced
         | _ =>
             when (negb (is_DotExpression owner))
                  (lift (with_is_dot_exp true));;
             visit owner;;
             write ".";;
             lift (with_is_ref true);;
             visit referenced
         end;;
         lift (with_is_dot_exp false)
       else
         visit owner;;
         write ".";;
         lift (with_is_ref true);;
         visit referenced);;
      lift (with_is_ref x)

  | IdentifierExpression _ x => visit_IdentifierExpression x

  | TypeExpression _ x generic_types =>
      known ← gets (λ st, contains (m_symbolMap st) x);
      (if negb known then write x
       else mangled ← gets (λ st, lookup (m_symbolMap st) x); write mangled);;
      when (0 <? length generic_types)%nat
           (write "<";;
            for_index (λ i t,
                         visit t;;
                         when (i <? length generic_types - 1)%nat (write ","))
                      0 generic_types;;
            write ">")

  | ListTypeExpr _ _ => mret tt

  | DictTypeExpr _ _ _ => mret tt

  | FunctionTypeExpr _ argTypes returnTypes =>
      write "std::function<";;
      let return_type := TurpleTypes returnTypes in
      (if (length return_type =? 0)%nat then
         visit returnTypes;;
         write "("
       else write "void(");;
      when (0 <? length argTypes)%nat
           (for_index (λ i t, when (negb (i =? 0)%nat) (write ",");; visit t)
                      0 argTypes;;
            when (0 <? length return_type)%nat (write ","));;
      over_tuple_types returnTypes
        (for_index (λ i t,
                      visit t;;
                      write "*";;
                      when (i <? length return_type - 1)%nat (write ","))
                   0);;
      write ")>"

  | NoLiteral => mret tt

  | IntegerLiteral _ value => write value

  | DecimalLiteral _ value => write value

  | StringLiteral _ value _ _ => write (dquote +:+ value +:+ dquote)

  | BoolLiteral _ value =>
      write (if String.eqb value "True" then "true" else "false")

  | NoneLiteral _ => write "NULL"

  | AssertStatement tok condition =>
      write "if(not ";;
      visit condition;;
      write ("){" +:+ nl);;
      filename ← gets m_filename;
      write ("printf(" +:+ dquote +:+ "AssertionError : in line "
             +:+ to_string_Z (line tok) +:+ " in file " +:+ filename
             +:+ "\n   " +:+ statement tok +:+ "\n" +:+ dquote
             +:+ ");fflush(stdout);throw error________PEREGRINE____PEREGRINE____AssertionError;");;
      write (nl +:+ "}")

  | StaticStatement _ body =>
      write "static ";;
      visit body

  | InlineStatement _ body =>
      write "inline ";;
      visit body

  | RaiseStatement _ value =>
      write "throw ";;
      if negb (is_NoLiteral value) then visit value else write "0"

  | UnionLiteral _ elements name =>
      write ("typedef union{" +:+ nl);;
      local_mangle
        (for_each (λ element,
                     visit element.1;;
                     write " ";;
                     lift (with_is_define true);;
                     visit element.2;;
                     lift (with_is_define false);;
                     write (";" +:+ nl))
                  elements;;
         write (nl +:+ "}"));;
      lift (with_is_define true);;
      visit name;;
      lift (with_is_define false)

  | EnumLiteral _ fields name_ast =>
      write ("typedef enum{" +:+ nl);;
      match name_ast with
      | IdentifierExpression _ name =>
          lift (λ st, with_enum_name (enum_name st ++ [name]) st);;
          for_index (λ i field,
                       visit name_ast;;
                       write "____";;
                       local_mangle (visit field.1);;
                       when (negb (is_NoLiteral field.2))
                            (lift (with_curr_enum_name name);;
                             write " = ";;
                             visit field.2;;
                             lift (with_curr_enum_name ""));;
                       when (negb (i =? length fields - 1)%nat)
                            (write ("," +:+ nl)))
                    0 fields;;
          write (nl +:+ "}");;
          visit name_ast
      | _ => undefined
      end

  | CastStatement _ cast_type value =>
      write "(";;
      visit cast_type;;
      write ")(";;
      visit value;;
      write ")"

  | PointerTypeExpr _ baseType =>
      visit baseType;;
      write "*"

  | RefTypeExpr _ baseType =>
      visit baseType;;
      write "&"

  | ClassDefinition _ name_ast parents attributes methods other =>
      write "class ";;
      lift (with_is_define true);;
      visit name_ast;;
      lift (with_is_define false);;
      match name_ast with
      | IdentifierExpression _ class_name =>
          name ← gets (λ st, lookup (m_symbolMap st) class_name);
          when (negb (length parents =? 0)%nat) (write ":");;
          for_index (λ i parent,
                       write "public ";;
                       visit parent;;
                       when (i <? length parents - 1)%nat (write ","))
                    0 parents;;
          write (nl +:+ "{");;
          local_mangle
            (for_each (λ x, visit x;; write (";" +:+ nl)) other;;
             write ("public:" +:+ nl);;
             in_class ← gets is_class;
             (if negb in_class then
                lift (with_is_class true);;
                codegenClassMembers visit attributes methods name;;
                lift (with_is_class false)
              else
                lift (with_is_class true);;
                codegenClassMembers visit attributes methods name;;
                lift (with_is_class false));;
             write (nl +:+ "}"))
      | _ => undefined
      end

  | WithStatement _ variables values body =>
      write ("{" +:+ nl);;
      for_index2 (λ i (accept_value : M unit) (variable : bool * M unit),
                    write "auto CONTEXT____MANAGER____PEREGRINE____";;
                    write (to_string i);;
                    write "=";;
                    accept_value;;
                    write (";" +:+ nl);;
                    (if negb variable.1 then
                       write "auto ";;
                       variable.2;;
                       write "=";;
                       write ("CONTEXT____MANAGER____PEREGRINE____"
                              +:+ to_string i);;
                       write ".____PEREGRINE____PEREGRINE______enter__()"
                     else
                       write ("CONTEXT____MANAGER____PEREGRINE____"
                              +:+ to_string i);;
                       write ".____PEREGRINE____PEREGRINE______enter__()");;
                    write (";" +:+ nl))
                 0 (map visit values)
                 (map (λ variable, (is_NoLiteral variable, visit variable))
                      variables);;
      visit body;;
      for_index (λ i _,
                   write ("CONTEXT____MANAGER____PEREGRINE____"
                          +:+ to_string i);;
                   write (".____PEREGRINE____PEREGRINE______end__();" +:+ nl))
                0 values;;
      write (nl +:+ "}" +:+ nl)

  | DefaultArg _ _ value => visit value

  | ExportStatement _ body =>
      write ("extern " +:+ dquote +:+ "C" +:+ dquote +:+ " ");;
      match body with
      | FunctionDefinition _ _ (IdentifierExpression _ name) _ _ =>
          lift (λ st, with_m_symbolMap
                        (set_global name name (m_symbolMap st)) st);;
          visit body
      | _ => undefined
      end

  | TernaryIf _ if_value if_condition else_value =>
      write "(";;
      visit if_condition;;
      write ")?";;
      visit if_value;;
      write ":";;
      visit else_value

  | TryExcept _ body except_clauses else_body =>
      write ("try{" +:+ nl);;
      visit body;;
      write ("}" +:+ nl +:+ "catch(error __PEREGRINE__exception){" +:+ nl);;
      for_index (λ i x,
                   (if (i =? 0)%nat then write "if (" else write "else if (");;
                   codegenExceptClause visit x)
                0 except_clauses;;
      (if negb (is_NoLiteral else_body) then
         if (0 <? length except_clauses)%nat then
           write "else{";;
           visit else_body;;
           write ("}" +:+ nl)
         else visit else_body
       else
         if (0 <? length except_clauses)%nat then
           write "else{";;
           write ("throw __PEREGRINE__exception;" +:+ nl);;
           write ("}" +:+ nl)
         else write ("throw __PEREGRINE__exception;" +:+ nl));;
      write "}"

  | MultipleAssign _ names values =>
      write "{";;
      for_index (λ i value,
                   write ("auto _____PEREGRINE____temp____" +:+ to_string i
                          +:+ "=");;
                   visit value;;
                   write ";")
                0 values;;
      for_index (λ i name,
                   visit name;;
                   write ("=_____PEREGRINE____temp____" +:+ to_string i);;
                   write ";")
                0 names;;
      write "}"

  | AugAssign _ name op value =>
      visit name;;
      write op;;
      visit value

  | TypeTuple tok items => visit_TypeTuple tok items

  | ExpressionTuple tok items => visit_ExpressionTuple tok items
  end.

(** What the constructor writes before the visit. *)
Definition prologue : string :=
  "#include <cstdio>" +:+ nl +:+ "#include <functional>" +:+ nl
  +:+ "typedef enum{error________PEREGRINE____PEREGRINE____AssertionError,error________PEREGRINE____PEREGRINE____ZeroDivisionError} error;"
  +:+ nl.

(** Modelled from the spec: the member initialisers of [codegen.hpp], which
    is not among the sources: every flag is off, the accumulator and the
    current enum name are empty, the symbol map is empty. *)
Definition Codegen_new (filename : string) : Codegen :=
  mkCodegen prologue filename (global_name filename) SymbolTable.empty
            "" false false false false false false false [] "".

(** [Codegen::Codegen]: the text of the output file after the visit of the
    tree. *)
Definition codegen (filename : string) (ast : AstNode) : option string :=
  match visit ast (Codegen_new filename) with
  | Some (_, st) => Some (m_file st)
  | None => None
  end.

End Visitor.

(** Modelled from the spec: [wrap], a helper that is not in [codegen.cpp].
    A decorator [deco] over the text [inner] of a function gives
    [deco(inner)]; the decorator is a plain name, written as it is. *)
Definition wrap_call (item : AstNode) (contains : string) : option string :=
  match item with
  | IdentifierExpression _ deco => Some (deco +:+ "(" +:+ contains +:+ ")")
  | _ => None
  end.

(** An instance of the helpers for running the generator on examples:
    [wrap] as above, the other helpers write nothing. *)
Definition example_utils : Utils := {|
  matchArg := λ _ _, mret tt;
  magic_methord := λ _ _, mret tt;
  wrap := λ item contains st,
    match wrap_call item contains with
    | Some text => Some (text, st)
    | None => None
    end;
  visit_TypeTuple := λ _ _, mret tt;
  visit_ExpressionTuple := λ _ _, mret tt
|}.

(** A measure of the tree, for inductions over it. *)
Fixpoint size (node : AstNode) : nat :=
  let sizes := λ l : list AstNode, list_sum (map size l) in
  let pair_sizes := λ l : list (AstNode * AstNode),
    list_sum (map (λ x, size x.1 + size x.2)%nat l) in
  match node with
  | Program statements => S (sizes statements)
  | BlockStatement statements => S (sizes statements)
  | ImportStatement _ => 1
  | FunctionDefinition _ returnType name parameters body =>
      S (size returnType + size name
         + list_sum (map (λ p, size (p_type p) + size (p_name p)
                               + size (p_default p))%nat parameters)
         + size body)
  | VariableStatement _ a b c => S (size a + size b + size c)
  | ConstDeclaration _ a b c => S (size a + size b + size c)
  | TypeDefinition _ a b => S (size a + size b)
  | PassStatement _ => 1
  | IfStatement _ a b c elifs => S (size a + size b + size c + pair_sizes elifs)
  | WhileStatement _ a b => S (size a + size b)
  | ForStatement _ variable a b => S (sizes variable + size a + size b)
  | MatchStatement _ matchItem caseBody defaultBody =>
      S (sizes matchItem
         + list_sum (map (λ c, list_sum (map size c.1) + size c.2)%nat caseBody)
         + size defaultBody)
  | ScopeStatement _ a => S (size a)
  | ReturnStatement _ a => S (size a)
  | ContinueStatement _ => 1
  | BreakStatement _ => 1
  | DecoratorStatement _ items body => S (sizes items + size body)
  | ListLiteral _ elements => S (sizes elements)
  | DictLiteral _ elements => S (pair_sizes elements)
  | ListOrDictAccess _ a keys => S (size a + sizes keys)
  | BinaryOperation _ a _ b => S (size a + size b)
  | PrefixExpression _ _ a => S (size a)
  | PostfixExpression _ a _ => S (size a)
  | FunctionCall _ a args => S (size a + sizes args)
  | ArrowExpression _ a b => S (size a + size b)
  | DotExpression _ a b => S (size a + size b)
  | IdentifierExpression _ _ => 1
  | TypeExpression _ _ generic_types => S (sizes generic_types)
  | ListTypeExpr _ a => S (size a)
  | DictTypeExpr _ a b => S (size a + size b)
  | FunctionTypeExpr _ argTypes a => S (sizes argTypes + size a)
  | NoLiteral => 1
  | IntegerLiteral _ _ => 1
  | DecimalLiteral _ _ => 1
  | StringLiteral _ _ _ _ => 1
  | BoolLiteral _ _ => 1
  | NoneLiteral _ => 1
  | AssertStatement _ a => S (size a)
  | StaticStatement _ a => S (size a)
  | InlineStatement _ a => S (size a)
  | RaiseStatement _ a => S (size a)
  | UnionLiteral _ elements a => S (pair_sizes elements + size a)
  | EnumLiteral _ fields a => S (pair_sizes fields + size a)
  | CastStatement _ a b => S (size a + size b)
  | PointerTypeExpr _ a => S (size a)
  | RefTypeExpr _ a => S (size a)
  | ClassDefinition _ a parents attributes methods other =>
      S (size a + sizes parents + sizes attributes + sizes methods + sizes other)
  | WithStatement _ variables values a => S (sizes variables + sizes values + size a)
  | DefaultArg _ a b => S (size a + size b)
  | ExportStatement _ a => S (size a)
  | TernaryIf _ a b c => S (size a + size b + size c)
  | TryExcept _ a clauses b =>
      S (size a
         + list_sum (map (λ x, list_sum (map size x.1.1) + size x.1.2
                               + size x.2)%nat clauses)
         + size b)
  | MultipleAssign _ names values => S (sizes names + sizes values)
  | AugAssign _ a _ b => S (size a + size b)
  | TypeTuple _ items => S (sizes items)
  | ExpressionTuple _ items => S (sizes items)
  end.

(** The accumulator is in use exactly while [save] is set: outside a
    decorated function it is empty, inside it holds at least the text that
    opened the function. *)
Definition ok (st : Codegen) : Prop :=
  if save st then res st ≠ "" else res st = "".

(** [st'] has the output of [st]: nothing was written. *)
Definition same_output (st st' : Codegen) : Prop :=
  save st' = save st ∧ res st' = res st ∧ m_file st' = m_file st
  ∧ m_filename st' = m_filename st ∧ m_global_name st' = m_global_name st.

(** [st'] has the output of [st] and some more text at the end of the
    stream that [st] was writing. *)
Definition extends (st st' : Codegen) : Prop :=
  save st' = save st
  ∧ m_filename st' = m_filename st
  ∧ m_global_name st' = m_global_name st
  ∧ (∃ d, sink st' = sink st +:+ d)
  ∧ (save st = true → m_file st' = m_file st).

(** An action that only appends to the current stream. *)
Definition appends {A} (m : M A) : Prop :=
  ∀ st a st', ok st → m st = Some (a, st') → ok st' ∧ extends st st'.

(** While the generator writes into the accumulator on behalf of the
    state [st0]: the file is as [st0] left it. *)
Definition accumulating (st0 st : Codegen) : Prop :=
  save st = true ∧ m_file st = m_file st0
  ∧ m_filename st = m_filename st0 ∧ m_global_name st = m_global_name st0.

(** What is assumed of the helpers that are not in [codegen.cpp]: the four
    that write only append, and [wrap] computes its text without writing. *)
Class UtilsAppend `{Utils} : Prop := {
  matchArg_appends : ∀ toMatch patterns, appends (matchArg toMatch patterns);
  magic_methord_appends : ∀ x name, appends (magic_methord x name);
  visit_TypeTuple_appends : ∀ tok items, appends (visit_TypeTuple tok items);
  visit_ExpressionTuple_appends :
    ∀ tok items, appends (visit_ExpressionTuple tok items);
  wrap_same_output :
    ∀ item contains st contains' st',
      wrap item contains st = Some (contains', st') → same_output st st'
}.

(** The emission rule for identifiers in the words of the description: five
    cases, tried in this order. *)
Definition identifier_by_cases (x : string) (st : Codegen) : Codegen :=
  if is_ref st then
    (* 1: a reference on the right of a dot or an arrow *)
    write_to ("____PEREGRINE____PEREGRINE____" +:+ x) st
  else if negb (String.eqb (curr_enum_name st) "") then
    (* 2: inside the initialiser of an enum field *)
    write_to (lookup (m_symbolMap st) (curr_enum_name st)
              +:+ "________PEREGRINE____PEREGRINE____" +:+ x) st
  else if negb (contains (m_symbolMap st) x) then
    (* 3: a name that the symbol map does not hold *)
    if local st then
      write_to ("____PEREGRINE____PEREGRINE____" +:+ x)
               (with_m_symbolMap (set_local x (m_symbolMap st)) st)
    else
      write_to ("____PEREGRINE____PEREGRINE____" +:+ m_global_name st +:+ x)
               (with_m_symbolMap
                  (set_global x ("____PEREGRINE____PEREGRINE____"
                                 +:+ m_global_name st +:+ x)
                              (m_symbolMap st)) st)
  else if is_define st then
    (* 4: a definition that shadows a known name *)
    write_to (if is_reserved x then x
              else "____PEREGRINE____PEREGRINE____" +:+ x)
             (with_m_symbolMap (set_local x (m_symbolMap st)) st)
  else
    (* 5: a use of a known name *)
    write_to (lookup (m_symbolMap st) x) st.

Definition assert_message (tok : Token) (filename : string) : string :=
  "AssertionError : in line " +:+ to_string_Z (line tok) +:+ " in file "
  +:+ filename +:+ "\n   " +:+ statement tok +:+ "\n".

Definition assert_lowering (tok : Token) (filename c : string) : string :=
  "if(not " +:+ c +:+ "){" +:+ nl
  +:+ "printf(" +:+ dquote +:+ assert_message tok filename +:+ dquote
  +:+ ");fflush(stdout);throw error________PEREGRINE____PEREGRINE____AssertionError;"
  +:+ nl +:+ "}".

Definition example_assert : AstNode :=
  AssertStatement (mkToken tk_identifier "assert" 7 0 "assert x==1")
    (BinaryOperation (mkToken tk_equal "==" 7 9 "assert x==1")
       (IdentifierExpression (mkToken tk_identifier "x" 7 7 "assert x==1") "x")
       (mkToken tk_equal "==" 7 9 "assert x==1")
       (IntegerLiteral (mkToken tk_integer "1" 7 10 "assert x==1") "1")).

Definition match_open : string := nl +:+ "while (true) {" +:+ nl.
Definition match_close : string := nl +:+ "break;" +:+ nl +:+ "}".

Definition is_wildcard (currCase : list AstNode * AstNode) : bool :=
  match currCase.1 with
  | [only] => is_NoLiteral only
  | _ => false
  end.

(** The out-parameters of a tuple return, from the texts of the component
    types, [i] being the index of the first. *)
Fixpoint out_parameters (i : nat) (types : list string) : string :=
  match types with
  | [] => ""
  | t :: rest =>
      t +:+ "*____PEREGRINE____RETURN____" +:+ to_string i +:+ "=NULL"
      +:+ (match rest with [] => "" | _ => "," end)
      +:+ out_parameters (S i) rest
  end.

(** The assignments of a tuple return, from the texts of the values. *)
Fixpoint out_assignments (i : nat) (values : list string) : string :=
  match values with
  | [] => ""
  | e :: rest =>
      "    " +:+ "*____PEREGRINE____RETURN____" +:+ to_string i +:+ "="
      +:+ e +:+ ";" +:+ nl +:+ out_assignments (S i) rest
  end.

(** [text] is what the action writes, from some state of the generator. *)
Definition writes (m : M unit) (text : string) : Prop :=
  ∃ st st', ok st ∧ exec m st = Some st' ∧ sink st' = sink st +:+ text.

(** The lowering of a function with a tuple return, from the texts of its
    name [N], parameters [P], component types [Ts] and body [B]. *)
Definition tuple_function_text (nested has_parameters : bool)
    (N P Ts B : string) : string :=
  if nested then
    "auto " +:+ N +:+ "=[=](" +:+ P
    +:+ (if has_parameters then "," else "") +:+ Ts
    +:+ ")mutable->" +:+ "void" +:+ " {" +:+ nl +:+ B +:+ nl +:+ "}"
  else
    "void" +:+ " " +:+ N +:+ "(" +:+ P
    +:+ (if has_parameters then "," else "") +:+ Ts
    +:+ ") {" +:+ nl +:+ B +:+ nl +:+ "}".

(** The lambda that a decorated function becomes, from the texts of its
    parameters [P], return type [R] and body [B]; the capture list depends
    on whether the decorated function is itself inside a function. *)
Definition decorated_lambda_text (nested : bool) (P R B : string) : string :=
  (if nested then "[=](" else "[](") +:+ P +:+ ")mutable->" +:+ R
  +:+ "{" +:+ nl +:+ B +:+ nl +:+ "}".

(** The parameter list of a decorated function: its parameters, then the
    out-parameters of a tuple return. *)
Definition decorated_parameters `{Utils} (returnType : AstNode)
    (parameters : list (parameter AstNode)) : M unit :=
  codegenFuncParams visit parameters 0;;
  when ((0 <? length (TurpleTypes returnType))%nat
        && (0 <? length parameters)%nat) (write ",");;
  over_tuple_types returnType (codegenReturnParamsDecorator visit).

(** What [visit(FunctionDefinition)] writes for a function at the top
    level, other than [main], before [local_mangle_start]: the return type
    and the name. *)
Definition function_head `{Utils} (returnType name : AstNode) : M unit :=
  lift (with_is_func_def true);;
  (if (length (TurpleTypes returnType) =? 0)%nat then visit returnType
   else write "void");;
  write " ";;
  lift (with_is_define true);;
  visit name;;
  lift (with_is_define false);;
  write "(".

(** What [visit(ClassDefinition)] writes before [local_mangle_start]: the
    name and the parents. *)
Definition class_head `{Utils} (name_ast : AstNode) (parents : list AstNode)
  : M unit :=
  write "class ";;
  lift (with_is_define true);;
  visit name_ast;;
  lift (with_is_define false);;
  when (negb (length parents =? 0)%nat) (write ":");;
  for_index (λ i parent,
               write "public ";;
               visit parent;;
               when (i <? length parents - 1)%nat (write ","))
            0 parents;;
  write (nl +:+ "{").

(** The two halves of [visit(UnionLiteral)]: the elements, between
    [local_mangle_start] and [local_mangle_end], and the name after it. *)
Definition union_elements `{Utils} (elements : list (AstNode * AstNode))
  : M unit :=
  write ("typedef union{" +:+ nl);;
  local_mangle
    (for_each (λ element,
                 visit element.1;;
                 write " ";;
                 lift (with_is_define true);;
                 visit element.2;;
                 lift (with_is_define false);;
                 write (";" +:+ nl))
              elements;;
     write (nl +:+ "}")).

Definition union_name `{Utils} (name : AstNode) : M unit :=
  lift (with_is_define true);;
  visit name;;
  lift (with_is_define false).

(** What a scope restores: the symbol map and the flag [local]. *)
Definition scope (st : Codegen) : MangleName * bool :=
  (m_symbolMap st, local st).

(** Nodes for running the generator on examples. *)
Definition example_tok (kw : string) : Token :=
  mkToken tk_identifier kw 1 0 "".

Definition example_name (x : string) : AstNode :=
  IdentifierExpression (example_tok x) x.

Definition example_int : AstNode := TypeExpression (example_tok "int") "int" [].

Definition example_number (n : string) : AstNode :=
  IntegerLiteral (mkToken tk_integer n 1 0 "") n.

(** [def f() -> int: (nothing)] *)
Definition example_function : AstNode :=
  FunctionDefinition (example_tok "def") example_int (example_name "f") []
                     (BlockStatement []).

(** [return 1, 2] and [return 1] *)
Definition example_return_pair : AstNode :=
  ReturnStatement (example_tok "return")
    (ExpressionTuple (example_tok "(") [example_number "1"; example_number "2"]).

Definition example_return_one : AstNode :=
  ReturnStatement (example_tok "return") (example_number "1").

(** [def pair() -> (int, int): return 1, 2], and the same function under
    the name [main]. *)
Definition example_pair_named (name : string) : AstNode :=
  FunctionDefinition (example_tok "def")
    (TypeTuple (example_tok "(") [example_int; example_int])
    (example_name name) [] (BlockStatement [example_return_pair]).

(** [@d0] [@d1] [def f() -> int: (nothing)] *)
Definition example_decorated : AstNode :=
  DecoratorStatement (example_tok "@") [example_name "d0"; example_name "d1"]
                     example_function.

(** [match x: case 1: pass  default: pass] *)
Definition example_match : AstNode :=
  MatchStatement (example_tok "match") [example_name "x"]
    [([example_number "1"], PassStatement (example_tok "pass"))]
    (PassStatement (example_tok "pass")).

(** [with m as r: (nothing)] *)
Definition example_with : AstNode :=
  WithStatement (example_tok "with") [example_name "r"] [example_name "m"]
                (BlockStatement []).

(** The state that the visit of [node] leaves, with the helpers of
    [example_utils]; [st] itself where the visit is undefined. *)
Definition run (node : AstNode) (st : Codegen) : Codegen :=
  default st (exec (visit (H := example_utils) node) st).

(** The text that [wrap] of [example_utils] computes. *)
Definition example_wrap_text (item : AstNode) (contains : string) : string :=
  default contains (wrap_call item contains).

(** The characters that [global_name] replaces. *)
Definition separator (c : ascii) : bool :=
  Ascii.eqb c "\" || Ascii.eqb c "/" || Ascii.eqb c ".".


(** The text of one case of a match statement, from its index, whether it
    is a wildcard, and the texts of its test and of its body. *)
Definition case_text (i : nat) (wildcard : bool) (test body : string)
  : string :=
  if wildcard then
    if (i =? 0)%nat then body +:+ nl
    else "else {" +:+ nl +:+ body +:+ nl +:+ "}" +:+ nl
  else
    (if (i =? 0)%nat then "if (" else "else if (")
    +:+ test +:+ ") {" +:+ nl +:+ body +:+ nl +:+ "}" +:+ nl.

(** The chain of the cases, [i] being the index of the first. *)
Fixpoint chain_text (i : nat) (parts : list (bool * string * string))
  : string :=
  match parts with
  | [] => ""
  | (wildcard, test, body) :: rest =>
      case_text i wildcard test body +:+ chain_text (S i) rest
  end.

(** Modelled from the C++ language, not from code of the repository: the
    statements that a lowered match statement is made of, their text, and
    how control runs through them.

    The body of a case: [Code] is a statement that is not looked into,
    [Break] is [break], and [Line s rest] is a statement of a block, as
    [visit(BlockStatement)] writes it, followed by the rest of the block. *)
Inductive Cpp :=
| Done
| Code (code : string)
| Break
| Line (s rest : Cpp).

(** [if (test) { body }], then [else if (test) { body }] for each further
    case, and at the end of the cases [else { body }] for a wildcard. *)
Inductive Chain :=
| NoMore
| Case (test : string) (body : Cpp) (rest : Chain)
| Otherwise (body : Cpp).

Fixpoint render (s : Cpp) : string :=
  match s with
  | Done => ""
  | Code code => code
  | Break => "break"
  | Line s rest => "    " +:+ render s +:+ ";" +:+ nl +:+ render rest
  end.

Fixpoint render_chain (first : bool) (chain : Chain) : string :=
  match chain with
  | NoMore => ""
  | Case test body rest =>
      (if first then "if (" else "else if (")
      +:+ test +:+ ") {" +:+ nl +:+ render body +:+ nl +:+ "}" +:+ nl
      +:+ render_chain false rest
  | Otherwise body =>
      if first then render body +:+ nl
      else "else {" +:+ nl +:+ render body +:+ nl +:+ "}" +:+ nl
  end.

(** [while (true) { chain dflt break; }] *)
Definition render_match (chain : Chain) (dflt : Cpp) : string :=
  match_open +:+ render_chain true chain +:+ render dflt +:+ match_close.

(** How a statement ends: control comes to the statement after it, or it
    does not, as after [break], which leaves the loop. *)
Inductive Ending := runs_on | leaves.

(** One pass of control through the lowered construct: the tests that
    hold in it, and how each statement that is not looked into ends in
    it. *)
Record Execution := mkExecution {
  test_holds : string → bool;
  ends_code : string → Ending
}.

Fixpoint ends (e : Execution) (s : Cpp) : Ending :=
  match s with
  | Done => runs_on
  | Code code => ends_code e code
  | Break => leaves
  | Line s rest =>
      match ends e s with
      | runs_on => ends e rest
      | leaves => leaves
      end
  end.

(** The statement runs to its end. *)
Definition completes (e : Execution) (s : Cpp) : bool :=
  match ends e s with
  | runs_on => true
  | leaves => false
  end.

(** The body that the chain runs: that of the first case whose test holds,
    or that of the wildcard at its end. *)
Fixpoint taken (e : Execution) (chain : Chain) : option Cpp :=
  match chain with
  | NoMore => None
  | Case test body rest =>
      if test_holds e test then Some body else taken e rest
  | Otherwise body => Some body
  end.

Fixpoint chain_ends (e : Execution) (chain : Chain) : Ending :=
  match chain with
  | NoMore => runs_on
  | Case test body rest =>
      if test_holds e test then ends e body else chain_ends e rest
  | Otherwise body => ends e body
  end.

(** In [while (true) { chain dflt break; }] the default body is run when
    control comes to the end of the chain, and only then. *)
Definition default_runs (e : Execution) (chain : Chain) : bool :=
  match chain_ends e chain with
  | runs_on => true
  | leaves => false
  end.

(** The chain that the texts of the cases are the text of, when they are
    one: cases with a test, and at most one wildcard, at the end. *)
Fixpoint chain_of (parts : list (bool * string * string)) : option Chain :=
  match parts with
  | [] => Some NoMore
  | (true, _, body) :: rest =>
      match rest with
      | [] => Some (Otherwise (Code body))
      | _ => None
      end
  | (false, test, body) :: rest =>
      match chain_of rest with
      | Some chain => Some (Case test (Code body) chain)
      | None => None
      end
  end.

(** [match x: case 1: break  default: pass], with the bodies as the parser
    builds them *)
Definition example_match_break : AstNode :=
  MatchStatement (example_tok "match") [example_name "x"]
    [([example_number "1"],
      BlockStatement [BreakStatement (example_tok "break")])]
    (BlockStatement [PassStatement (example_tok "pass")]).

(** The action hands back the flags [local] and [is_func_def] as it found
    them, and also [is_ref] unless [r] is set, and [is_dot_exp] unless [d]
    is set. *)
Definition keeps (r d : bool) {A} (m : M A) : Prop :=
  ∀ st a st', m st = Some (a, st') →
    local st' = local st
    ∧ is_func_def st' = is_func_def st
    ∧ (r = false → is_ref st' = is_ref st)
    ∧ (d = false → is_dot_exp st' = is_dot_exp st).

(** The same for an action that ends by setting [is_ref] to [x]. *)
Definition ends_ref (x d : bool) {A} (m : M A) : Prop :=
  ∀ st a st', m st = Some (a, st') →
    local st' = local st
    ∧ is_func_def st' = is_func_def st
    ∧ is_ref st' = x
    ∧ (d = false → is_dot_exp st' = is_dot_exp st).

(** What is assumed of the helpers that are not in [codegen.cpp]: they hand
    back the four flags. *)
Class UtilsKeep `{Utils} : Prop := {
  matchArg_keeps : ∀ toMatch patterns, keeps false false (matchArg toMatch patterns);
  magic_methord_keeps : ∀ x name, keeps false false (magic_methord x name);
  visit_TypeTuple_keeps : ∀ tok items, keeps false false (visit_TypeTuple tok items);
  visit_ExpressionTuple_keeps :
    ∀ tok items, keeps false false (visit_ExpressionTuple tok items);
  wrap_keeps : ∀ item contains, keeps false false (wrap item contains)
}.


(** Expressions made of literals, names, operators, conditional
    expressions, calls and list literals. *)
Fixpoint plain (e : AstNode) : bool :=
  match e with
  | IntegerLiteral _ _ | DecimalLiteral _ _ | StringLiteral _ _ _ _
  | BoolLiteral _ _ | NoneLiteral _ | IdentifierExpression _ _ => true
  | PrefixExpression _ _ rhs => plain rhs
  | PostfixExpression _ lhs _ => plain lhs
  | BinaryOperation _ lhs _ rhs => plain lhs && plain rhs
  | TernaryIf _ if_value if_condition else_value =>
      plain if_value && plain if_condition && plain else_value
  | FunctionCall _ name args => plain name && forallb plain args
  | ListLiteral _ elements => forallb plain elements
  | _ => false
  end.

(** The texts with [sep] after each but the last. *)
Definition join (sep : string) (texts : list string) : string :=
  match texts with
  | [] => ""
  | t :: rest => t +:+ fold_right (λ x acc, sep +:+ x +:+ acc) "" rest
  end.

(** The C++ text of a plain expression under the symbol map [m]. *)
Fixpoint expression_text (m : MangleName) (e : AstNode) : string :=
  match e with
  | IntegerLiteral _ value => value
  | DecimalLiteral _ value => value
  | StringLiteral _ value _ _ => dquote +:+ value +:+ dquote
  | BoolLiteral _ value => if String.eqb value "True" then "true" else "false"
  | NoneLiteral _ => "NULL"
  | IdentifierExpression _ x => lookup m x
  | PrefixExpression _ prefix rhs =>
      "(" +:+ keyword prefix +:+ " " +:+ expression_text m rhs +:+ ")"
  | PostfixExpression _ lhs postfix => expression_text m lhs +:+ keyword postfix
  | BinaryOperation tok lhs op rhs =>
      if String.eqb (keyword op) "**" then
        "_PEREGRINE_POWER(" +:+ expression_text m lhs +:+ ","
        +:+ expression_text m rhs +:+ ")"
      else if String.eqb (keyword op) "//" then
        "_PEREGRINE_FLOOR(" +:+ expression_text m lhs +:+ "/"
        +:+ expression_text m rhs +:+ ")"
      else if is_kind tk_in tok then
        "(" +:+ expression_text m rhs
        +:+ ".____PEREGRINE____PEREGRINE______contains__("
        +:+ expression_text m lhs +:+ "))"
      else if is_kind tk_not_in tok then
        "(not " +:+ expression_text m rhs
        +:+ ".____PEREGRINE____PEREGRINE______contains__("
        +:+ expression_text m lhs +:+ "))"
      else
        "(" +:+ expression_text m lhs +:+ " " +:+ keyword op +:+ " "
        +:+ expression_text m rhs +:+ ")"
  | TernaryIf _ if_value if_condition else_value =>
      "(" +:+ expression_text m if_condition +:+ ")?"
      +:+ expression_text m if_value +:+ ":" +:+ expression_text m else_value
  | FunctionCall _ name args =>
      expression_text m name +:+ "("
      +:+ join ", " (map (expression_text m) args) +:+ ")"
  | ListLiteral _ elements =>
      "{" +:+ join "," (map (expression_text m) elements) +:+ "}"
  | _ => ""
  end.

(** The generator is not writing a reference, an enumeration value or the
    name of a definition. *)
Definition settled (st : Codegen) : Prop :=
  is_ref st = false ∧ curr_enum_name st = "" ∧ is_define st = false.

(** Every name that [m] binds is bound in [m'] to the same text. *)
Definition keeps_names (m m' : MangleName) : Prop :=
  ∀ x, contains m x = true → contains m' x = true ∧ lookup m' x = lookup m x.

(** From a settled state the action writes [T] of the symbol map that it
    leaves, binds names without changing a bound one, and [T] stays the same
    under every map that binds more. *)
Definition emits (m : M unit) (T : MangleName → string) : Prop :=
  ∀ st, settled st →
    ∃ st', m st = Some (tt, st')
      ∧ settled st'
      ∧ keeps_names (m_symbolMap st) (m_symbolMap st')
      ∧ sink st' = sink st +:+ T (m_symbolMap st')
      ∧ ∀ m', keeps_names (m_symbolMap st') m' → T m' = T (m_symbolMap st').

(** [a + g(1, a)] *)
Definition example_sum : AstNode :=
  BinaryOperation (mkToken tk_plus "+" 1 0 "") (example_name "a")
    (mkToken tk_plus "+" 1 0 "")
    (FunctionCall (example_tok "g") (example_name "g")
                  [example_number "1"; example_name "a"]).


(** Three things that a visit does not undo: the name [x] is bound; the
    generator is not writing the name of a definition; it is not writing the
    value of an enumeration field. *)
Inductive aspect :=
| Bound (x : string)
| NoDefine
| NoEnum.

Definition holds (a : aspect) (st : Codegen) : Prop :=
  match a with
  | Bound x => contains (m_symbolMap st) x = true
  | NoDefine => is_define st = false
  | NoEnum => curr_enum_name st = ""
  end.

(** The action leaves [a] as it holds before; with [b] set it establishes
    [a] whatever the state before. *)
Definition upholds (a : aspect) (b : bool) {A} (m : M A) : Prop :=
  ∀ st r st', m st = Some (r, st') → b = true ∨ holds a st → holds a st'.

(** What is assumed of the helpers that are not in [codegen.cpp]. *)
Class UtilsSettled `{Utils} : Prop := {
  matchArg_upholds :
    ∀ a toMatch patterns, upholds a false (matchArg toMatch patterns);
  magic_methord_upholds : ∀ a x name, upholds a false (magic_methord x name);
  visit_TypeTuple_upholds :
    ∀ a tok items, upholds a false (visit_TypeTuple tok items);
  visit_ExpressionTuple_upholds :
    ∀ a tok items, upholds a false (visit_ExpressionTuple tok items);
  wrap_upholds : ∀ a item contains, upholds a false (wrap item contains)
}.

(** [export def f() -> int: (nothing)] *)
Definition example_export : AstNode :=
  ExportStatement (example_tok "export") example_function.

End Codegen.

(** * Properties *)

(** ** The symbol map *)

Module MangleFacts.
Import SymbolTable.

Lemma reserved_eqb name :
  String.eqb name "printf" || String.eqb name "error" = true ↔ reserved name.
Proof.
  unfold reserved. rewrite orb_true_iff, !String.eqb_eq. reflexivity.
Qed.

Lemma not_reserved_eqb name :
  ¬ reserved name → String.eqb name "printf" || String.eqb name "error" = false.
Proof.
  intros H. destruct (_ || _) eqn:E; [|reflexivity].
  apply reserved_eqb in E. contradiction.
Qed.

Lemma not_reserved_eqb' name :
  ¬ reserved name → String.eqb name "error" || String.eqb name "printf" = false.
Proof. intros H. rewrite orb_comm. by apply not_reserved_eqb. Qed.

Lemma count_ne_0_Some m name v : m !! name = Some v → count_ne_0 m name = true.
Proof. intros H. unfold count_ne_0. apply bool_decide_eq_true. eauto. Qed.

Lemma count_ne_0_None m name : m !! name = None → count_ne_0 m name = false.
Proof.
  intros H. unfold count_ne_0. apply bool_decide_eq_false.
  rewrite H. by intros [? ?].
Qed.

Lemma contains_reserved m name : reserved name → contains m name = true.
Proof.
  intros H. unfold contains.
  destruct H as [-> | ->]; reflexivity.
Qed.

Lemma lookup_reserved m name : reserved name → lookup m name = name.
Proof. intros H. unfold lookup. destruct H as [-> | ->]; reflexivity. Qed.

Lemma lookup_local m name v :
  ¬ reserved name → m_local_names m !! name = Some v → lookup m name = v.
Proof.
  intros Hr Hl. unfold lookup. rewrite (not_reserved_eqb _ Hr).
  rewrite (count_ne_0_Some _ _ _ Hl). unfold at_key. by rewrite Hl.
Qed.

Lemma lookup_global m name v :
  ¬ reserved name → m_local_names m !! name = None →
  m_global_names m !! name = Some v → lookup m name = v.
Proof.
  intros Hr Hl Hg. unfold lookup. rewrite (not_reserved_eqb _ Hr).
  rewrite (count_ne_0_None _ _ Hl), (count_ne_0_Some _ _ _ Hg).
  unfold at_key. by rewrite Hg.
Qed.

Lemma lookup_absent m name :
  m_local_names m !! name = None → m_global_names m !! name = None →
  lookup m name = name.
Proof.
  intros Hl Hg. unfold lookup.
  rewrite (count_ne_0_None _ _ Hl), (count_ne_0_None _ _ Hg).
  by destruct (_ || _).
Qed.

Lemma contains_spec m name :
  contains m name = true ↔
  reserved name ∨ is_Some (m_local_names m !! name)
                ∨ is_Some (m_global_names m !! name).
Proof.
  unfold contains, count_ne_0. split.
  - destruct (String.eqb name "error" || String.eqb name "printf") eqn:E.
    + intros _. left. apply reserved_eqb. by rewrite orb_comm.
    + repeat case_bool_decide; auto. discriminate.
  - intros [H | [H | H]].
    + by apply contains_reserved.
    + destruct (_ || _); [done|]. by rewrite bool_decide_eq_true_2.
    + destruct (_ || _); [done|].
      case_bool_decide; [done|]. by rewrite bool_decide_eq_true_2.
Qed.

Lemma contains_false m name :
  contains m name = false →
  ¬ reserved name ∧ m_local_names m !! name = None
                  ∧ m_global_names m !! name = None.
Proof.
  intros H. assert (Hn : ¬ (contains m name = true)) by (rewrite H; discriminate).
  rewrite contains_spec in Hn.
  repeat split.
  - tauto.
  - destruct (m_local_names m !! name) eqn:E; [|done]. exfalso. apply Hn. eauto.
  - destruct (m_global_names m !! name) eqn:E; [|done]. exfalso. apply Hn. eauto.
Qed.

Lemma set_local_lookup_local original m :
  m_local_names (set_local original m) !! original
  = Some (local_prefix +:+ original).
Proof. simpl. apply lookup_insert_eq. Qed.


(** C8: [contains] and [operator[]] treat [printf] and [error] as present and
    identity-mangled; otherwise the local map takes precedence over the global
    map and a name found in neither map is returned unchanged; [set_local name]
    maps [name] to [____PEREGRINE____PEREGRINE____<name>] in the local map and
    leaves the global map alone. *)
Theorem C8_mangle_name_lookup (m : MangleName) (name : string) :
  contains m name = contains_by_precedence m name ∧
  lookup m name = lookup_by_precedence m name ∧
  m_local_names (set_local name m)
    = <[name := "____PEREGRINE____PEREGRINE____" +:+ name]> (m_local_names m) ∧
  m_global_names (set_local name m) = m_global_names m.
Proof.
  split; [|split; [|split]]; try reflexivity.
  - unfold contains, contains_by_precedence, is_reserved, count_ne_0.
    rewrite (orb_comm (String.eqb name "error")).
    destruct (_ || _); [reflexivity|]. simpl.
    repeat case_bool_decide; reflexivity.
  - unfold lookup, lookup_by_precedence, is_reserved, count_ne_0, at_key.
    destruct (_ || _); [reflexivity|].
    destruct (m_local_names m !! name) as [v|] eqn:El.
    + rewrite bool_decide_eq_true_2 by eauto. reflexivity.
    + rewrite bool_decide_eq_false_2 by (by intros [? ?]).
      destruct (m_global_names m !! name) as [v|] eqn:Eg.
      * rewrite bool_decide_eq_true_2 by eauto. reflexivity.
      * rewrite bool_decide_eq_false_2 by (by intros [? ?]). reflexivity.
Qed.

Lemma is_reserved_true name : is_reserved name = true ↔ reserved name.
Proof. apply reserved_eqb. Qed.

Lemma lookup_set_local_fresh m x :
  ¬ reserved x → lookup (set_local x m) x = local_prefix +:+ x.
Proof.
  intros Hr. apply lookup_local; [done|]. apply set_local_lookup_local.
Qed.

Lemma lookup_set_global_fresh m x v :
  ¬ reserved x → m_local_names m !! x = None →
  lookup (set_global x v m) x = v.
Proof.
  intros Hr Hl. apply lookup_global; [done|done|]. simpl.
  apply lookup_insert_eq.
Qed.

End MangleFacts.

(** ** The parser *)

Module ParseFacts.
Import Parse.

Section WithExternals.
Context `{Externals}.

Lemma parser_bind_eq {A B} (m : M A) (f : A → M B) p :
  (m ≫= f) p = match m p with Some (a, p') => f a p' | None => None end.
Proof. reflexivity. Qed.

Lemma while_loop_exit {A} fuel cond (body : A → M (bool * A)) acc p :
  cond p = false → while_loop fuel cond body acc p = Some (acc, p).
Proof. intros Hc. destruct fuel; simpl; by rewrite Hc. Qed.

Lemma while_loop_step {A} fuel cond (body : A → M (bool * A)) acc acc' p p' :
  cond p = true → body acc p = Some ((true, acc'), p') →
  while_loop (S fuel) cond body acc p = while_loop fuel cond body acc' p'.
Proof. intros Hc Hb. simpl. by rewrite Hc, Hb. Qed.

Lemma binary_operator_facts k :
  is_binary_operator k = true →
  pr_gt (precedenceMap_at k) pr_lowest = true ∧
  precedenceMap k = Some (precedenceMap_at k) ∧
  k ≠ tk_new_line.
Proof. destruct k; try discriminate; intros _; by repeat split. Qed.

Lemma parseExpression_unfold fuel prec :
  parseExpression (S fuel) prec = parseExpression_ fuel (parser_at fuel) prec.
Proof. reflexivity. Qed.

Lemma parsePrefix_identifier self p :
  cur_is tk_identifier p = true →
  parsePrefix self p = Some (parseIdentifier p, p).
Proof.
  intros Hc. unfold parsePrefix. rewrite parser_bind_eq. unfold gets at 1.
  unfold cur_is, is_kind in Hc. apply bool_decide_eq_true in Hc.
  rewrite Hc. reflexivity.
Qed.

Lemma cur_is_intro k p : tkType (m_currentToken p) = k → cur_is k p = true.
Proof. intros E. unfold cur_is, is_kind. by rewrite bool_decide_eq_true_2. Qed.

Lemma parseExpression_operand fuel prec p :
  cur_is tk_identifier p = true →
  pr_gt (nextPrecedence p) prec = false →
  parseExpression (S fuel) prec p = Some (parseIdentifier p, advanceOnNewLine p).
Proof.
  intros Hc Hn. rewrite parseExpression_unfold. unfold parseExpression_.
  rewrite parser_bind_eq.
  rewrite parsePrefix_identifier by done.
  rewrite parser_bind_eq, while_loop_exit by done. reflexivity.
Qed.

Lemma parseInfix_binary fuel self left p :
  is_binary_operator (tkType (m_currentToken (advance p))) = true →
  parseInfix fuel self left p = parseBinaryOperation self left (advance p).
Proof.
  intros Hk. unfold parseInfix. rewrite parser_bind_eq. unfold lift at 1.
  rewrite parser_bind_eq. unfold gets at 1.
  destruct (tkType (m_currentToken (advance p))); try discriminate; reflexivity.
Qed.


Lemma parseBinaryOperation_operand fuel left p :
  cur_is tk_identifier (advance p) = true →
  pr_gt (nextPrecedence (advance p))
        (precedenceMap_at (tkType (m_currentToken p))) = false →
  parseBinaryOperation (parser_at (S fuel)) left p
  = Some (BinaryOperation (m_currentToken p) left (m_currentToken p)
                          (parseIdentifier (advance p)),
          advanceOnNewLine (advance p)).
Proof.
  intros Hc Hn. unfold parseBinaryOperation.
  rewrite parser_bind_eq. unfold gets at 1. rewrite parser_bind_eq. unfold lift at 1.
  rewrite parser_bind_eq.
  change (self_parseExpression (parser_at (S fuel)))
    with (parseExpression (S fuel)).
  rewrite parseExpression_operand by done. reflexivity.
Qed.



(** *** The cursor past the end of the tokens *)

Lemma advance_at_end p : at_end p → at_end (advance p).
Proof.
  intros [Hc Hl]. unfold advance.
  rewrite (lookup_ge_None_2 (m_tokens p) (S (m_tokIndex p))) by lia.
  split; simpl; [done|lia].
Qed.

Lemma error_at_end tok message p : at_end p → at_end (error tok message p).
Proof. intros [Hc Hl]. by split. Qed.

Lemma advanceOnNewLine_at_end p : at_end p → at_end (advanceOnNewLine p).
Proof.
  intros Hp. unfold advanceOnNewLine.
  destruct (is_kind _ _); [by apply advance_at_end|done].
Qed.

Lemma while_loop_preserves {A} (I : Parser → Prop) fuel cond
    (body : A → M (bool * A)) :
  (∀ acc p r p', I p → body acc p = Some (r, p') → I p') →
  ∀ acc p r p', I p → while_loop fuel cond body acc p = Some (r, p') → I p'.
Proof.
  intros Hbody. induction fuel as [|fuel IH]; intros acc p r p' Hp; simpl.
  - destruct (cond p); [discriminate|]. by intros [= _ <-].
  - destruct (cond p); [|by intros [= _ <-]].
    destruct (body acc p) as [[[[] acc'] p1]|] eqn:Hb; [| |discriminate].
    + apply IH. eapply Hbody; eauto.
    + intros [= _ <-]. eapply Hbody; eauto.
Qed.

Lemma parsePrefix_at_end self p :
  at_end p →
  parsePrefix self p
  = Some (nullptr,
          error (m_currentToken p)
                (keyword (m_currentToken p) +:+ " is not an expression") p).
Proof.
  intros [Hc _]. unfold parsePrefix. rewrite parser_bind_eq. unfold gets at 1.
  rewrite Hc. reflexivity.
Qed.

Lemma parseInfix_at_end fuel self left p :
  at_end p →
  parseInfix fuel self left p = parseBinaryOperation self left (advance p).
Proof.
  intros Hp. apply advance_at_end in Hp as [Hc _].
  unfold parseInfix. rewrite parser_bind_eq. unfold lift at 1.
  rewrite parser_bind_eq. unfold gets at 1. rewrite Hc. reflexivity.
Qed.

Lemma parseExpression_at_end fuel :
  ∀ prec p r p', at_end p → parseExpression fuel prec p = Some (r, p') →
                 at_end p'.
Proof.
  induction fuel as [|fuel IH]; intros prec p r p' Hp; [discriminate|].
  rewrite parseExpression_unfold. unfold parseExpression_.
  rewrite parser_bind_eq, parsePrefix_at_end by done. rewrite parser_bind_eq.
  destruct (while_loop _ _ _ _ _) as [[left p1]|] eqn:Hloop; [|discriminate].
  intros [= _ <-]. apply advanceOnNewLine_at_end.
  revert Hloop. apply while_loop_preserves with (I := at_end).
  - clear -IH. intros acc p r p' Hp. rewrite parser_bind_eq, parseInfix_at_end by done.
    unfold parseBinaryOperation. rewrite parser_bind_eq. unfold gets at 1.
    rewrite parser_bind_eq. unfold lift at 1. rewrite parser_bind_eq.
    change (self_parseExpression (parser_at fuel)) with (parseExpression fuel).
    destruct (parseExpression fuel _ _) as [[right p1]|] eqn:He; [|discriminate].
    intros [= _ <-]. eapply IH; [|exact He]. by do 2 apply advance_at_end.
  - by apply error_at_end.
Qed.

Lemma parseStatement_at_end fuel p r p' :
  at_end p → parseStatement fuel p = Some (r, p') → at_end p'.
Proof.
  intros Hp. destruct fuel as [|fuel]; [discriminate|].
  change (parseStatement (S fuel)) with (parseStatement_ fuel (parser_at fuel)).
  unfold parseStatement_. rewrite parser_bind_eq. unfold gets at 1.
  rewrite parser_bind_eq. unfold gets at 1. destruct Hp as [Hc Hl]. rewrite Hc.
  apply parseExpression_at_end. by split.
Qed.

Lemma block_loop_never_ends fuel k :
  ∀ acc p, at_end p →
    while_loop k (λ p, negb (cur_is tk_dedent p))
               (block_body (parser_at fuel)) acc p = None.
Proof.
  induction k as [|k IH]; intros acc p Hp; simpl.
  - unfold cur_is, is_kind. destruct Hp as [-> _]. reflexivity.
  - assert (Hd : cur_is tk_dedent p = false).
    { unfold cur_is, is_kind. destruct Hp as [-> _]. reflexivity. }
    rewrite Hd. simpl.
    unfold block_body at 1. rewrite parser_bind_eq. unfold gets at 1.
    assert (He : is_kind tk_eof (m_currentToken p) = true).
    { unfold is_kind. destruct Hp as [-> _]. reflexivity. }
    rewrite He, parser_bind_eq. unfold lift at 1. rewrite parser_bind_eq.
    change (self_parseStatement (parser_at fuel)) with (parseStatement fuel).
    destruct (parseStatement fuel _) as [[stmt p1]|] eqn:Hs; [|reflexivity].
    rewrite parser_bind_eq. unfold lift at 1.
    unfold mret, M_ret. apply IH. apply advance_at_end.
    eapply parseStatement_at_end; [|exact Hs]. by apply error_at_end.
Qed.

Lemma parseBlockStatement_never_ends fuel p :
  at_end (advance p) → parseBlockStatement fuel p = None.
Proof.
  intros Hp. destruct fuel as [|fuel]; [reflexivity|].
  change (parseBlockStatement (S fuel))
    with (parseBlockStatement_ fuel (parser_at fuel)).
  unfold parseBlockStatement_. rewrite parser_bind_eq. unfold lift at 1.
  rewrite parser_bind_eq.
  change (while_loop fuel _ _ [] (advance p))
    with (while_loop fuel (λ p, negb (cur_is tk_dedent p))
                     (block_body (parser_at fuel)) [] (advance p)).
  by rewrite block_loop_never_ends.
Qed.


Lemma parse_statements_unfold fuel p :
  cur_is tk_eof p = false →
  parse_statements (S fuel) p
  = match parseStatement (S fuel) p with
    | Some (stmt, p') =>
        while_loop fuel (λ p, negb (cur_is tk_eof p))
          (λ statements,
             stmt ← parseStatement (S fuel);
             lift advance;;
             mret (true, statements ++ [stmt]))
          [stmt] (advance p')
    | None => None
    end.
Proof.
  intros Hc. unfold parse_statements. simpl while_loop. rewrite Hc. simpl negb.
  cbv iota. rewrite parser_bind_eq. destruct (parseStatement (S fuel) p) as [[stmt p']|];
    reflexivity.
Qed.

(** C5, at [while x:] with an indented [pass] and no closing token before
    [EOF]: the loop of [parseBlockStatement] records its error at [EOF] and
    goes on, the cursor stays on [EOF], and [Parser::parse] neither shows
    the errors nor returns, whatever the fuel. *)
Theorem C5_unterminated_block_is_never_reported (fuel : nat) :
  parse fuel parser_unterminated_block = None.
Proof.
  unfold parse.
  destruct fuel as [|f1]; [reflexivity|].
  rewrite parse_statements_unfold by reflexivity.
  assert (Hs : parseStatement (S f1) parser_unterminated_block = None);
    [|by rewrite Hs].
  change (parseStatement (S f1)) with (parseStatement_ f1 (parser_at f1)).
  change (parseStatement_ f1 (parser_at f1) parser_unterminated_block)
    with (parseWhile (parser_at f1) parser_unterminated_block).
  unfold parseWhile. rewrite parser_bind_eq. unfold gets at 1.
  rewrite parser_bind_eq. unfold lift at 1. rewrite parser_bind_eq.
  destruct f1 as [|f2]; [reflexivity|].
  change (self_parseExpression (parser_at (S f2)))
    with (parseExpression (S f2)).
  rewrite parseExpression_operand by reflexivity.
  rewrite parser_bind_eq. unfold lift at 1. rewrite parser_bind_eq. unfold lift at 1.
  rewrite parser_bind_eq.
  change (self_parseBlockStatement (parser_at (S f2)))
    with (parseBlockStatement_ f2 (parser_at f2)).
  unfold parseBlockStatement_. rewrite parser_bind_eq. unfold lift at 1.
  rewrite parser_bind_eq.
  match goal with
  | |- context [while_loop f2 ?c ?b ?acc ?p] =>
      change (while_loop f2 c b acc p)
        with (while_loop f2 c (block_body (parser_at f2)) acc p);
      assert (Hl : while_loop f2 c (block_body (parser_at f2)) acc p = None);
      [|by rewrite Hl]
  end.
  destruct f2 as [|f3]; [reflexivity|].
  erewrite while_loop_step; [apply block_loop_never_ends| |].
  2: reflexivity.
  2: reflexivity.
  split; [reflexivity|]. vm_compute. lia.
Qed.


Lemma while_loop_ends_on_cond {A} fuel cond (body : A → M (bool * A)) :
  (∀ acc p b r p', body acc p = Some ((b, r), p') → b = true) →
  ∀ acc p r p', while_loop fuel cond body acc p = Some (r, p') →
                cond p' = false.
Proof.
  intros Hbody. induction fuel as [|fuel IH]; intros acc p r p'; simpl.
  - destruct (cond p) eqn:Hc; [discriminate|]. by intros [= _ <-].
  - destruct (cond p) eqn:Hc; [|by intros [= _ <-]].
    destruct (body acc p) as [[[[] acc'] p1]|] eqn:Hb; [|exfalso|discriminate].
    + apply IH.
    + by apply Hbody in Hb.
Qed.

(** What [Parser::parse] answers once its loop has ended: the loop ends on
    [EOF], and then the error list alone decides between the program and
    the exit with status 1 after all errors have been shown. *)
Lemma parse_after_the_loop fuel p statements p' :
  parse_statements fuel p = Some (statements, p') →
  cur_is tk_eof p' = true ∧
  parse fuel p = Some (parse_finish statements p') ∧
  (m_errors p' = [] →
   parse_finish statements p' = Returned (Program statements)) ∧
  (m_errors p' ≠ [] →
   parse_finish statements p' = Exited 1 (m_errors p')).
Proof.
  intros Hl. repeat split.
  - apply negb_false_iff.
    revert Hl. unfold parse_statements.
    apply (while_loop_ends_on_cond fuel (λ p, negb (cur_is tk_eof p))).
    intros acc q b r q'. rewrite parser_bind_eq.
    destruct (parseStatement fuel q) as [[stmt q1]|]; [|discriminate].
    by intros [= <- _ _].
  - unfold parse. by rewrite Hl.
  - intros He. unfold parse_finish. by rewrite bool_decide_eq_true_2.
  - intros He. unfold parse_finish. by rewrite bool_decide_eq_false_2.
Qed.

Lemma parseDecoratorCall_keeps_no_decorator fuel self p r p' :
  parseDecoratorCall fuel self p = Some (r, p') →
  ∃ body, r = DecoratorStatement (m_currentToken p) [] body.
Proof.
  unfold parseDecoratorCall. rewrite parser_bind_eq. unfold gets at 1.
  rewrite parser_bind_eq.
  destruct (while_loop _ _ _ _ _) as [[[] p1]|]; [|discriminate].
  rewrite parser_bind_eq. unfold gets at 1.
  destruct (cur_is tk_def p1).
  - rewrite parser_bind_eq. destruct (parseFunctionDef _ _ _) as [[body p2]|];
      [|discriminate].
    intros [= <- _]. eauto.
  - intros [= <- _]. eauto.
Qed.

(** C6, at [@deco] over [def g(): pass]: the parse succeeds without an
    error and the [DecoratorStatement] holds the function as its body and an
    empty decorator list: the parsed expression [deco] is dropped. *)
Theorem C6_decorators_are_dropped (fuel : nat) :
  parse (4 + fuel) parser_decorated
  = Some (Returned (Program
      [DecoratorStatement (example_token tk_at "@") []
         (FunctionDefinition (example_token tk_def "def")
            (IdentifierExpression (example_token tk_r_paren ")") "void")
            (IdentifierExpression (example_token tk_identifier "g") "g")
            []
            (BlockStatement [PassStatement (example_token tk_pass "pass")]))])).
Proof. vm_compute. reflexivity. Qed.


Lemma until_colon_never_ends (item : M AstNode) k :
  (∀ p r p', at_end p → item p = Some (r, p') → at_end p') →
  ∀ acc p, at_end p →
    while_loop k (λ p, negb (cur_is tk_colon p)) (until_colon_body item) acc p
    = None.
Proof.
  intros Hitem. induction k as [|k IH]; intros acc p Hp; simpl.
  - unfold cur_is, is_kind. destruct Hp as [-> _]. reflexivity.
  - assert (Hd : cur_is tk_colon p = false).
    { unfold cur_is, is_kind. destruct Hp as [-> _]. reflexivity. }
    rewrite Hd. simpl.
    unfold until_colon_body at 1. rewrite parser_bind_eq.
    destruct (item p) as [[x p1]|] eqn:Hi; [|reflexivity].
    rewrite parser_bind_eq. unfold lift at 1. rewrite parser_bind_eq. unfold gets at 1.
    assert (H1 : at_end (advance p1)) by (apply advance_at_end; eauto).
    assert (Hd1 : cur_is tk_colon (advance p1) = false).
    { unfold cur_is, is_kind. destruct H1 as [-> _]. reflexivity. }
    rewrite Hd1. simpl negb. cbv iota. rewrite parser_bind_eq. unfold lift at 1.
    unfold mret, M_ret. apply IH. by apply advance_at_end.
Qed.

(** The same at [match x] without its colon: the loop that collects the
    subjects of the match looks for a colon that never comes. *)
Lemma match_without_colon_is_never_reported (fuel : nat) :
  parse fuel parser_match_without_colon = None.
Proof.
  unfold parse.
  destruct fuel as [|f1]; [reflexivity|].
  rewrite parse_statements_unfold by reflexivity.
  assert (Hs : parseStatement (S f1) parser_match_without_colon = None);
    [|by rewrite Hs].
  change (parseStatement (S f1)) with (parseStatement_ f1 (parser_at f1)).
  change (parseStatement_ f1 (parser_at f1) parser_match_without_colon)
    with (parseMatch f1 (parser_at f1) parser_match_without_colon).
  unfold parseMatch. rewrite parser_bind_eq. unfold gets at 1.
  rewrite parser_bind_eq. unfold lift at 1. rewrite parser_bind_eq.
  unfold parseUntilColon at 1.
  match goal with
  | |- context [while_loop f1 ?c ?b ?acc ?p] =>
      change (while_loop f1 c b acc p)
        with (while_loop f1 c
                (until_colon_body (self_parseExpression (parser_at f1)
                                                         pr_lowest)) acc p);
      assert (Hl : while_loop f1 c
                     (until_colon_body (self_parseExpression (parser_at f1)
                                                             pr_lowest))
                     acc p = None);
      [|by rewrite Hl]
  end.
  destruct f1 as [|f2]; [reflexivity|].
  erewrite while_loop_step; cycle 1.
  { reflexivity. }
  { unfold until_colon_body. rewrite parser_bind_eq.
    change (self_parseExpression (parser_at (S f2)))
      with (parseExpression (S f2)).
    rewrite parseExpression_operand by reflexivity. reflexivity. }
  apply until_colon_never_ends.
  - intros p r p'. apply parseExpression_at_end.
  - split; [reflexivity|]. vm_compute. lia.
Qed.

End WithExternals.


End ParseFacts.

(** ** The code generator *)

Module CodegenFacts.
Import SymbolTable Codegen MangleFacts.

Lemma append_assoc (a b c : string) : (a +:+ b) +:+ c = a +:+ b +:+ c.
Proof.
  induction a as [|ch a IH]; [reflexivity|].
  change (String ch (a +:+ b) +:+ c = String ch (a +:+ b +:+ c)).
  change (String ch ((a +:+ b) +:+ c) = String ch (a +:+ b +:+ c)).
  by rewrite IH.
Qed.

Lemma append_nil_r (a : string) : a +:+ "" = a.
Proof.
  induction a as [|ch a IH]; [reflexivity|].
  change (String ch (a +:+ "") = String ch a). by rewrite IH.
Qed.

Lemma write_to_app a b st : write_to b (write_to a st) = write_to (a +:+ b) st.
Proof.
  unfold write_to. destruct st as [? ? ? ? ? [] ? ? ? ? ? ? ? ?]; simpl;
    by rewrite append_assoc.
Qed.

Lemma sink_write_to s st : sink (write_to s st) = sink st +:+ s.
Proof. unfold sink, write_to. by destruct st as [? ? ? ? ? [] ? ? ? ? ? ? ? ?]. Qed.

Lemma m_symbolMap_write_to s st : m_symbolMap (write_to s st) = m_symbolMap st.
Proof. unfold write_to. by destruct (save st). Qed.

Lemma local_write_to s st : local (write_to s st) = local st.
Proof. unfold write_to. by destruct (save st). Qed.

Lemma m_filename_write_to s st : m_filename (write_to s st) = m_filename st.
Proof. unfold write_to. by destruct (save st). Qed.

Lemma save_write_to s st : save (write_to s st) = save st.
Proof. unfold write_to. by destruct st as [? ? ? ? ? [] ? ? ? ? ? ? ? ?]. Qed.

Lemma append_eq_nil (a b : string) : a +:+ b = "" → a = "".
Proof. by destruct a. Qed.

Lemma bind_eq {A B} (m : M A) (f : A → M B) st :
  (m ≫= f) st = match m st with Some (a, st') => f a st' | None => None end.
Proof. reflexivity. Qed.

Lemma extends_refl st : extends st st.
Proof.
  repeat split; try done. exists "". by rewrite append_nil_r.
Qed.

Lemma extends_trans st1 st2 st3 :
  extends st1 st2 → extends st2 st3 → extends st1 st3.
Proof.
  intros (Hs1 & Hf1 & Hg1 & [d1 Hd1] & Hm1) (Hs2 & Hf2 & Hg2 & [d2 Hd2] & Hm2).
  repeat split; try congruence.
  - exists (d1 +:+ d2). by rewrite Hd2, Hd1, append_assoc.
  - intros Hs. rewrite Hm2, Hm1; congruence.
Qed.

Lemma same_output_extends st st' : same_output st st' → extends st st'.
Proof.
  intros (Hs & Hr & Hm & Hf & Hg). repeat split; try done.
  exists "". unfold sink. rewrite Hs, Hr, Hm, append_nil_r. reflexivity.
Qed.

Lemma same_output_ok st st' : same_output st st' → ok st → ok st'.
Proof. intros (Hs & Hr & _). unfold ok. by rewrite Hs, Hr. Qed.

Lemma appends_ret {A} (a : A) : appends (mret a).
Proof. intros st a' st' Hok [= _ <-]. split; [done|apply extends_refl]. Qed.

Lemma appends_gets {A} (f : Codegen → A) : appends (gets f).
Proof. intros st a' st' Hok [= _ <-]. split; [done|apply extends_refl]. Qed.

Lemma appends_undefined {A} : appends (@undefined A).
Proof. intros st a st' _ [=]. Qed.

Lemma appends_bind {A B} (m : M A) (f : A → M B) :
  appends m → (∀ a, appends (f a)) → appends (m ≫= f).
Proof.
  intros Hm Hf st b st' Hok. rewrite bind_eq.
  destruct (m st) as [[a st1]|] eqn:E; [|discriminate].
  intros Hb. destruct (Hm _ _ _ Hok E) as [Hok1 He1].
  destruct (Hf a _ _ _ Hok1 Hb) as [Hok2 He2].
  split; [done|]. by eapply extends_trans.
Qed.

Lemma appends_lift (f : Codegen → Codegen) :
  (∀ st, same_output st (f st)) → appends (lift f).
Proof.
  intros Hf st a st' Hok [= _ <-]. split.
  - by eapply same_output_ok.
  - by apply same_output_extends.
Qed.

Lemma write_to_ok s st : ok st → ok (write_to s st).
Proof.
  unfold ok, write_to. destruct st as [? ? ? ? r [] ? ? ? ? ? ? ? ?]; simpl;
    [|done].
  intros Hr Hn. by apply append_eq_nil in Hn.
Qed.

Lemma write_to_extends s st : extends st (write_to s st).
Proof.
  unfold extends, write_to, sink.
  destruct st as [? ? ? ? r [] ? ? ? ? ? ? ? ?]; simpl; repeat split;
    try done; try (eexists; reflexivity).
Qed.

Lemma appends_write s : appends (write s).
Proof.
  intros st a st' Hok [= _ <-]. split;
    [by apply write_to_ok | apply write_to_extends].
Qed.

Lemma appends_when b (m : M unit) : appends m → appends (when b m).
Proof. intros Hm. destruct b; [done|apply appends_ret]. Qed.

Lemma appends_local_mangle (m : M unit) : appends m → appends (local_mangle m).
Proof.
  intros Hm st a st' Hok. unfold local_mangle.
  destruct (m (with_local true st)) as [[[] st1]|] eqn:E; [|discriminate].
  intros [= _ <-].
  assert (Hok0 : ok (with_local true st)) by (by destruct st).
  destruct (Hm _ _ _ Hok0 E) as [Hok1 He1]. split.
  - by destruct st1.
  - eapply extends_trans; [|eapply extends_trans; [exact He1|]].
    + apply same_output_extends. by destruct st.
    + apply same_output_extends. by destruct st1.
Qed.

Lemma appends_handle_ref (m : M unit) : appends m → appends (handle_ref m).
Proof.
  intros Hm st a st' Hok. unfold handle_ref.
  destruct (m (with_is_ref false st)) as [[[] st1]|] eqn:E; [|discriminate].
  intros [= _ <-].
  assert (Hok0 : ok (with_is_ref false st)) by (by destruct st).
  destruct (Hm _ _ _ Hok0 E) as [Hok1 He1]. split.
  - by destruct st1.
  - eapply extends_trans; [|eapply extends_trans; [exact He1|]].
    + apply same_output_extends. by destruct st.
    + apply same_output_extends. by destruct st1.
Qed.

Lemma appends_for_each {A} (body : A → M unit) (v : list A) :
  (∀ x, x ∈ v → appends (body x)) → appends (for_each body v).
Proof.
  induction v as [|x v IH]; intros Hb; simpl; [apply appends_ret|].
  apply appends_bind; [apply Hb; left|].
  intros _. apply IH. intros y Hy. apply Hb. by right.
Qed.

Lemma appends_for_index {A} (body : nat → A → M unit) (v : list A) i :
  (∀ j x, x ∈ v → appends (body j x)) → appends (for_index body i v).
Proof.
  revert i. induction v as [|x v IH]; intros i Hb; simpl; [apply appends_ret|].
  apply appends_bind; [apply Hb; left|].
  intros _. apply IH. intros j y Hy. apply Hb. by right.
Qed.

Lemma appends_for_index2 {A B} (body : nat → A → B → M unit) v w i :
  (∀ j x y, x ∈ v → y ∈ w → appends (body j x y)) →
  appends (for_index2 body i v w).
Proof.
  revert i w. induction v as [|x v IH]; intros i w Hb; simpl.
  { destruct w; apply appends_ret. }
  destruct w as [|y w]; [apply appends_undefined|].
  apply appends_bind; [apply Hb; left|].
  intros _. apply IH. intros j x' y' Hx Hy. apply Hb; by right.
Qed.

Lemma elem_sum_le {A} (f : A → nat) (l : list A) (x : A) :
  x ∈ l → (f x ≤ list_sum (map f l))%nat.
Proof.
  induction 1 as [|x y l Hx IH]; simpl; lia.
Qed.

Section WithUtils.
Context `{Utils}.

(** C1: the visit of an [IdentifierExpression] applies the five emission
    cases in the order of the description: the reference prefix when
    [is_ref] is set; else the enum qualification when [curr_enum_name] is
    not empty; else, for a name that the symbol map does not hold, the
    insertion (local map in local scope, global map with the unit prefix
    otherwise) and the mangled form; else, when [is_define] is set, the
    insertion into the local map and the emission; else the looked-up
    form. *)
Theorem C1_identifier_cases_in_order (tok : Token) (x : string) (st : Codegen) :
  visit (IdentifierExpression tok x) st = Some (tt, identifier_by_cases x st).
Proof.
  change (visit (IdentifierExpression tok x) st)
    with (visit_IdentifierExpression x st).
  unfold visit_IdentifierExpression, identifier_by_cases.
  destruct (is_ref st); [reflexivity|].
  destruct (negb (String.eqb (curr_enum_name st) "")).
  { unfold write, lift, mbind, M_bind. by rewrite write_to_app, append_assoc. }
  destruct (contains (m_symbolMap st) x) eqn:Hc; simpl negb; cbv iota.
  - destruct (is_define st); [|reflexivity].
    unfold write, lift. do 2 f_equal. simpl m_symbolMap.
    destruct (is_reserved x) eqn:Hr.
    + rewrite lookup_reserved by (by apply is_reserved_true). reflexivity.
    + rewrite lookup_set_local_fresh; [reflexivity|].
      intros Hx%is_reserved_true. congruence.
  - apply contains_false in Hc as (Hr & Hl & Hg).
    destruct (local st); unfold write, lift; do 2 f_equal; simpl m_symbolMap.
    + by rewrite lookup_set_local_fresh.
    + by rewrite lookup_set_global_fresh.
Qed.

End WithUtils.

(** *** The generator only appends *)

Section Appending.
Context `{UtilsAppend}.


Lemma appends_wrap_all items n contains :
  ∀ st c st', wrap_all items n contains st = Some (c, st') → same_output st st'.
Proof.
  revert contains. induction n as [|n IH]; intros contains st c st'; simpl.
  - intros [= _ <-]. by repeat split.
  - destruct (items !! n) as [item|]; [|discriminate].
    rewrite bind_eq. destruct (wrap item contains st) as [[c1 st1]|] eqn:Hw;
      [|discriminate].
    intros Hr. apply wrap_same_output in Hw. apply IH in Hr.
    destruct Hw as (? & ? & ? & ? & ?), Hr as (? & ? & ? & ? & ?).
    repeat split; congruence.
Qed.

Lemma appends_visit_IdentifierExpression x :
  appends (visit_IdentifierExpression x).
Proof.
  intros st a st' Hok. unfold visit_IdentifierExpression.
  destruct (is_ref st).
  { intros Hw. exact (appends_write _ _ _ _ Hok Hw). }
  destruct (negb _).
  { intros Hw.
    exact (appends_bind (write _) (λ _, write x) (appends_write _)
                        (λ _, appends_write _) _ _ _ Hok Hw). }
  revert a st'.
  match goal with |- ∀ a st', write ?s ?st1 = _ → _ =>
    assert (Hs : same_output st st1); [|intros a st' Hw]
  end.
  { destruct (contains _ _); simpl; [destruct (is_define st)|destruct (local st)];
      by destruct st. }
  destruct (appends_write _ _ _ _ (same_output_ok _ _ Hs Hok) Hw) as [Hok' He].
  split; [done|]. eapply extends_trans; [|exact He].
  by apply same_output_extends.
Qed.

Lemma appends_codegenFuncParams v parameters start :
  (∀ p, p ∈ parameters →
        appends (v (p_type p)) ∧ appends (v (p_name p))
        ∧ appends (v (p_default p))) →
  appends (codegenFuncParams v parameters start).
Proof.
  intros Hp. unfold codegenFuncParams. apply appends_for_index.
  intros j p Hin. apply list_elem_of_lookup in Hin as [i Hi].
  rewrite lookup_drop in Hi. apply list_elem_of_lookup_2 in Hi.
  destruct (Hp _ Hi) as (Ht & Hn & Hd).
  apply appends_bind; [apply appends_when, appends_write|intros _].
  apply appends_bind; [destruct (is_NoLiteral _); [apply appends_write|done]|].
  intros _. apply appends_bind; [apply appends_write|intros _].
  apply appends_bind; [by apply appends_lift|intros _].
  apply appends_bind; [done|intros _].
  apply appends_bind; [by apply appends_lift|intros _].
  apply appends_when. apply appends_bind; [apply appends_write|done].
Qed.

Lemma appends_codegenReturnParams v return_type :
  (∀ t, t ∈ return_type → appends (v t)) →
  appends (codegenReturnParams v return_type).
Proof.
  intros Hv. unfold codegenReturnParams. apply appends_for_index.
  intros j t Hin. apply appends_bind; [by apply Hv|intros _].
  apply appends_bind; [apply appends_write|intros _].
  apply appends_when, appends_write.
Qed.

Lemma appends_codegenReturnParamsDecorator v return_type :
  (∀ t, t ∈ return_type → appends (v t)) →
  appends (codegenReturnParamsDecorator v return_type).
Proof.
  intros Hv. unfold codegenReturnParamsDecorator. apply appends_for_index.
  intros j t Hin. apply appends_bind; [by apply Hv|intros _].
  apply appends_bind; [apply appends_write|intros _].
  apply appends_bind; [apply appends_write|intros _].
  apply appends_when, appends_write.
Qed.

Lemma over_tuple_types_eq returnType loop :
  over_tuple_types returnType loop = loop (TurpleTypes returnType).
Proof. by destruct returnType. Qed.

Lemma over_tuple_values_eq returnValue loop :
  over_tuple_values returnValue loop = loop (TurpleExpression returnValue).
Proof. by destruct returnValue. Qed.

Lemma TurpleTypes_size node t :
  t ∈ TurpleTypes node → (size t < size node)%nat.
Proof.
  destruct node; simpl; try by intros ?%elem_of_nil.
  intros Hin. pose proof (elem_sum_le size _ _ Hin). lia.
Qed.

Lemma TurpleExpression_size node t :
  t ∈ TurpleExpression node → (size t < size node)%nat.
Proof.
  destruct node; simpl; try by intros ?%elem_of_nil.
  intros Hin. pose proof (elem_sum_le size _ _ Hin). lia.
Qed.

Lemma appends_codegenCase v toMatch i currCase :
  appends (v currCase.2) → appends (codegenCase v toMatch i currCase).
Proof.
  intros Hv. unfold codegenCase.
  repeat match goal with
  | |- appends (if ?b then _ else _) => destruct b
  | |- appends (_ ≫= _) => apply appends_bind; [|intros ?]
  | |- appends (write _) => apply appends_write
  | |- appends (matchArg _ _) => apply matchArg_appends
  | |- appends (v _) => exact Hv
  end.
Qed.

Lemma appends_codegenExceptClause v x :
  (∀ e, e ∈ x.1.1 → appends (v e)) → appends (v x.1.2) → appends (v x.2) →
  appends (codegenExceptClause v x).
Proof.
  intros He Hn Hb. unfold codegenExceptClause.
  apply appends_bind; [|intros _].
  { apply appends_for_index. intros j e Hin.
    apply appends_bind; [apply appends_write|intros _].
    apply appends_bind; [by apply He|intros _].
    apply appends_when, appends_write. }
  apply appends_bind; [apply appends_write|intros _].
  apply appends_bind; [|intros _].
  { apply appends_when. apply appends_bind; [apply appends_write|intros _].
    apply appends_bind; [done|intros _]. apply appends_write. }
  apply appends_bind; [done|intros _]. apply appends_write.
Qed.

Lemma appends_codegenClassMembers v attributes methods name :
  (∀ x, x ∈ attributes → appends (v x)) →
  appends (codegenClassMembers v attributes methods name).
Proof.
  intros Ha. unfold codegenClassMembers.
  apply appends_bind; [|intros _]; apply appends_for_each; intros x Hx.
  - apply appends_bind; [by apply Ha|intros _; apply appends_write].
  - apply appends_bind; [apply magic_methord_appends|intros _].
    apply appends_write.
Qed.

Lemma append_eq_nil_r (a b : string) : a +:+ b = "" → b = "".
Proof. destruct a; [done|discriminate]. Qed.

Lemma elem_of_map {A B} (f : A → B) (l : list A) (y : B) :
  y ∈ map f l → ∃ x, y = f x ∧ x ∈ l.
Proof.
  induction l as [|a l IH]; simpl; [by intros ?%elem_of_nil|].
  intros [->|Hy]%elem_of_cons.
  - exists a. split; [done|left].
  - destruct (IH Hy) as (x & -> & Hx). exists x. split; [done|by right].
Qed.

Lemma accumulating_step {A} (m : M A) st0 st a st' :
  appends m → ok st → accumulating st0 st → m st = Some (a, st') →
  ok st' ∧ accumulating st0 st'.
Proof.
  intros Hm Hok (Hs & Hf & Hn & Hg) Hr.
  destruct (Hm _ _ _ Hok Hr) as (Hok' & Hs' & Hn' & Hg' & _ & Hf').
  split; [done|]. repeat split; try congruence. rewrite Hf'; congruence.
Qed.

Lemma accumulating_write st0 st s :
  s ≠ "" → accumulating st0 st →
  ok (write_to s st) ∧ accumulating st0 (write_to s st).
Proof.
  intros Hne (Hs & Hf & Hn & Hg). unfold ok, write_to, accumulating.
  destruct st as [? ? ? ? r sv ? ? ? ? ? ? ? ?]; simpl in *. subst sv. simpl.
  split; [|done]. by intros ?%append_eq_nil_r.
Qed.

Lemma bind_inv {A B} (m : M A) (f : A → M B) st r :
  (m ≫= f) st = Some r → ∃ a st1, m st = Some (a, st1) ∧ f a st1 = Some r.
Proof.
  rewrite bind_eq. destruct (m st) as [[a st1]|]; [eauto|discriminate].
Qed.

Ltac accumulate Hr Hok Hacc lem s :=
  let E := fresh "E" in
  let Hok' := fresh "Hok" in
  let Hacc' := fresh "Hacc" in
  apply bind_inv in Hr as (? & s & E & Hr);
  destruct (accumulating_step _ _ _ _ _ lem Hok Hacc E) as [Hok' Hacc'];
  clear Hok Hacc E; rename Hok' into Hok, Hacc' into Hacc.

Lemma codegenDecorated_accumulates v function_name returnType fbody parameters :
  appends (v function_name) → appends (v returnType) → appends (v fbody) →
  (∀ t, t ∈ TurpleTypes returnType → appends (v t)) →
  (∀ p, p ∈ parameters →
        appends (v (p_type p)) ∧ appends (v (p_name p))
        ∧ appends (v (p_default p))) →
  ∀ st0 st x contains st',
    accumulating st0 st →
    codegenDecorated v function_name returnType fbody parameters st
    = Some ((x, contains), st') →
    accumulating st0 st' ∧ res st' = "".
Proof.
  intros Hname Hret Hbody Htuple Hparams st0 st x contains st' Hacc0.
  unfold codegenDecorated.
  intros (? & s1 & [= <- <-] & Hr)%bind_inv.
  destruct (accumulating_write st0 st "auto " ltac:(done) Hacc0) as [Hok Hacc].
  accumulate Hr Hok Hacc (appends_lift (with_is_define true)
                            ltac:(by intros [])) s2.
  accumulate Hr Hok Hacc Hname s3.
  accumulate Hr Hok Hacc (appends_lift (with_is_define false)
                            ltac:(by intros [])) s4.
  accumulate Hr Hok Hacc (appends_write "=") s5.
  apply bind_inv in Hr as (x' & s6 & [= <- <-] & Hr).
  apply bind_inv in Hr as (? & s7 & [= <- <-] & Hr).
  apply bind_inv in Hr as (inf & s8 & [= <- <-] & Hr).
  assert (Hacc7 : accumulating st0 (with_res "" s5)) by (by destruct s5).
  clear Hok Hacc.
  apply bind_inv in Hr as (? & s9 & E9 & Hr).
  assert (Hs9 : ok s9 ∧ accumulating st0 s9).
  { assert (E : s9 = write_to (if is_func_def (with_res "" s5)
                                then "[=](" else "[](") (with_res "" s5)).
    { destruct (is_func_def _); by injection E9. }
    subst s9. apply accumulating_write; [by destruct (is_func_def _)|done]. }
  destruct Hs9 as [Hok Hacc]. clear E9.
  assert (Hlambda : appends (local_mangle
    (codegenFuncParams v parameters 0;;
     when ((0 <? length (TurpleTypes returnType))%nat
           && (0 <? length parameters)%nat) (write ",");;
     over_tuple_types returnType (codegenReturnParamsDecorator v);;
     write ")mutable->";;
     (if (length (TurpleTypes returnType) =? 0)%nat then v returnType
      else write "void");;
     write ("{" +:+ nl);;
     in_function ← gets is_func_def;
     (if negb in_function then
        lift (with_is_func_def true);;
        v fbody;;
        lift (with_is_func_def false)
      else v fbody);;
     write (nl +:+ "}")))).
  { apply appends_local_mangle.
    apply appends_bind; [by apply appends_codegenFuncParams|intros _].
    apply appends_bind; [apply appends_when, appends_write|intros _].
    apply appends_bind; [|intros _].
    { rewrite over_tuple_types_eq.
      by apply appends_codegenReturnParamsDecorator. }
    apply appends_bind; [apply appends_write|intros _].
    apply appends_bind; [destruct (_ =? _)%nat; [done|apply appends_write]|].
    intros _. apply appends_bind; [apply appends_write|intros _].
    apply appends_bind; [apply appends_gets|intros b].
    apply appends_bind; [|intros _; apply appends_write].
    destruct (negb b); [|done].
    apply appends_bind; [by apply appends_lift|intros _].
    apply appends_bind; [done|intros _]. by apply appends_lift. }
  accumulate Hr Hok Hacc Hlambda s10.
  apply bind_inv in Hr as (c' & s11 & [= <- <-] & Hr).
  apply bind_inv in Hr as (? & s12 & [= <- <-] & [= _ _ <-]).
  split; [by destruct s10|reflexivity].
Qed.


Lemma ok_save_false st : ok st → res st = "" → save st = false.
Proof. unfold ok. destruct (save st); [intros Hn Hr; contradiction|done]. Qed.

Lemma ok_save_true st : ok st → res st ≠ "" → save st = true.
Proof. unfold ok. destruct (save st); [done|intros Hr Hn; contradiction]. Qed.

Lemma appends_DecoratorStatement tok items body :
  (∀ node, (size node < size (DecoratorStatement tok items body))%nat →
           appends (visit node)) →
  appends (visit (DecoratorStatement tok items body)).
Proof.
  intros IH st a st' Hok. cbn [visit].
  intros (? & s1 & [= <- <-] & Hr)%bind_inv.
  apply bind_inv in Hr as (res0 & ? & [= <- <-] & Hr).
  apply bind_inv in Hr as (prev & s2 & Hprev & Hr).
  assert (Hs2 : accumulating st s2 ∧ res s2 = "" ∧ prev = res st).
  { change (res (with_save true st)) with (res st) in Hprev.
    destruct (String.eqb_spec (res st) "") as [Hres|Hres]; simpl in Hprev.
    - injection Hprev as <- <-. by destruct st.
    - injection Hprev as <- <-. by destruct st. }
  clear Hprev. destruct Hs2 as (Hacc2 & Hres2 & ->).
  apply bind_inv in Hr as ([x contains] & s3 & Hlam & Hr).
  assert (Hs3 : accumulating st s3 ∧ res s3 = "").
  { destruct body; try (injection Hlam as _ _ <-; done).
    - eapply codegenDecorated_accumulates; [..|exact Hacc2|exact Hlam];
        try (apply IH; simpl; lia).
      + intros t Ht. apply IH. apply TurpleTypes_size in Ht. simpl. lia.
      + intros p Hp. pose proof (elem_sum_le
          (λ p, size (p_type p) + size (p_name p) + size (p_default p))%nat
          _ _ Hp) as Hle. cbv beta in Hle.
        (split; [|split]); apply IH; simpl; lia.
    - apply bind_inv in Hlam as (? & s2' & [= <- <-] & Hlam).
      destruct (accumulating_write st s2 "static " ltac:(done) Hacc2)
        as [_ Hacc2'].
      destruct body; try discriminate.
      eapply codegenDecorated_accumulates; [..|exact Hacc2'|exact Hlam];
        try (apply IH; simpl; lia).
      + intros t Ht. apply IH. apply TurpleTypes_size in Ht. simpl. lia.
      + intros p Hp. pose proof (elem_sum_le
          (λ p, size (p_type p) + size (p_name p) + size (p_default p))%nat
          _ _ Hp) as Hle. cbv beta in Hle.
        (split; [|split]); apply IH; simpl; lia. }
  clear Hlam. destruct Hs3 as [Hacc3 Hres3].
  apply bind_inv in Hr as (contains' & s4 & Hwrap & Hr).
  apply appends_wrap_all in Hwrap as (Hsv & Hrs & Hmf & Hfn & Hgn).
  destruct Hacc3 as (Hsv3 & Hmf3 & Hfn3 & Hgn3).
  assert (Hs4 : save s4 = true ∧ res s4 = "" ∧ m_file s4 = m_file st
                ∧ m_filename s4 = m_filename st
                ∧ m_global_name s4 = m_global_name st).
  { repeat split; congruence. }
  clear - Hok Hr Hs4. destruct Hs4 as (Hsv & Hrs & Hmf & Hfn & Hgn).
  destruct s4 as [mf fn gn sm rs sv ? ? ? ? ? ? ? ?]; simpl in *; subst.
  destruct (String.eqb_spec (res st) "") as [Hres|Hres].
  - apply bind_inv in Hr as (? & s5 & [= <- <-] & [= _ <-]).
    pose proof (ok_save_false _ Hok Hres) as Hsave.
    unfold ok, extends, sink, write_to. rewrite Hsave. simpl.
    repeat split; try congruence. by exists (x +:+ contains').
  - injection Hr as _ <-.
    pose proof (ok_save_true _ Hok Hres) as Hsave.
    unfold ok, extends, sink, write_to. rewrite Hsave. simpl.
    repeat split; try congruence.
    + change ("" +:+ ?s) with s. intros E%append_eq_nil. contradiction.
    + by exists (x +:+ contains').
Qed.

Ltac elem_facts :=
  repeat match goal with
  | Hx : ?x ∈ TurpleTypes ?l |- _ =>
      lazymatch goal with
      | _ : (size x < size l)%nat |- _ => fail
      | _ => pose proof (TurpleTypes_size l x Hx)
      end
  | Hx : ?x ∈ TurpleExpression ?l |- _ =>
      lazymatch goal with
      | _ : (size x < size l)%nat |- _ => fail
      | _ => pose proof (TurpleExpression_size l x Hx)
      end
  | Hx : ?x ∈ ?l, Hsz : context [list_sum (map ?f ?l)] |- _ =>
      lazymatch goal with
      | _ : (f x ≤ list_sum (map f l))%nat |- _ => fail
      | _ => pose proof (elem_sum_le f l x Hx)
      end
  end.

Ltac by_IH IH :=
  lazymatch goal with
  | |- appends (visit _) =>
      apply IH; elem_facts; cbv beta in *; elem_facts; cbv beta in *;
      cbn [list_sum fold_right map fst snd size] in *; lia
  end.

Lemma same_output_setters :
  (∀ v st, same_output st (with_m_symbolMap v st)) ∧
  (∀ v st, same_output st (with_local v st)) ∧
  (∀ v st, same_output st (with_is_define v st)) ∧
  (∀ v st, same_output st (with_is_ref v st)) ∧
  (∀ v st, same_output st (with_is_func_def v st)) ∧
  (∀ v st, same_output st (with_is_class v st)) ∧
  (∀ v st, same_output st (with_is_dot_exp v st)) ∧
  (∀ v st, same_output st (with_enum_name v st)) ∧
  (∀ v st, same_output st (with_curr_enum_name v st)).
Proof. repeat split. Qed.

Ltac appends_lift_tac :=
  apply appends_lift; intros ?;
  first [ apply same_output_setters ].

Ltac appends_step IH :=
  lazymatch goal with
  | |- appends (visit _) => by_IH IH
  | |- appends (mret _) => apply appends_ret
  | |- appends (gets _) => apply appends_gets
  | |- appends undefined => apply appends_undefined
  | |- appends (write _) => apply appends_write
  | |- appends (lift _) => appends_lift_tac
  | |- appends (visit_IdentifierExpression _) =>
      apply appends_visit_IdentifierExpression
  | |- appends (matchArg _ _) => apply matchArg_appends
  | |- appends (magic_methord _ _) => apply magic_methord_appends
  | |- appends (visit_TypeTuple _ _) => apply visit_TypeTuple_appends
  | |- appends (visit_ExpressionTuple _ _) => apply visit_ExpressionTuple_appends
  | |- appends (when _ _) => apply appends_when
  | |- appends (local_mangle _) => apply appends_local_mangle
  | |- appends (handle_ref _) => apply appends_handle_ref
  | |- appends (for_each _ _) => apply appends_for_each; intros ? ?
  | |- appends (for_index _ _ _) => apply appends_for_index; intros ? ? ?
  | |- appends (for_index2 _ _ _ _) =>
      apply appends_for_index2;
      intros ? ? ? [? [-> ?]]%elem_of_map [? [-> ?]]%elem_of_map;
      cbn [fst snd]
  | |- appends (codegenFuncParams _ _ _) =>
      apply appends_codegenFuncParams; intros ? ?; (split; [|split])
  | |- appends (codegenReturnParams _ _) =>
      apply appends_codegenReturnParams; intros ? ?
  | |- appends (codegenReturnParamsDecorator _ _) =>
      apply appends_codegenReturnParamsDecorator; intros ? ?
  | |- appends (over_tuple_types _ _) => rewrite over_tuple_types_eq
  | |- appends (over_tuple_values _ _) => rewrite over_tuple_values_eq
  | |- appends (codegenCase _ _ _ _) => apply appends_codegenCase
  | |- appends (codegenExceptClause _ _) =>
      apply appends_codegenExceptClause; [intros ? ?| |]
  | |- appends (codegenClassMembers _ _ _ _) =>
      apply appends_codegenClassMembers; intros ? ?
  | |- appends (_ ≫= _) => apply appends_bind; [|intros ?]
  | |- appends (if ?b then _ else _) => destruct b
  | |- appends (match ?x with _ => _ end) => destruct x
  end.

Lemma visit_appends_below n :
  ∀ node, (size node < n)%nat → appends (visit node).
Proof.
  induction n as [|n IH]; intros node Hsz; [lia|].
  destruct node;
    lazymatch goal with
    | |- appends (visit (DecoratorStatement _ _ _)) =>
        apply appends_DecoratorStatement; intros ? ?; apply IH; lia
    | _ => cbn [visit]; cbv zeta; simpl in Hsz
    end.
  all: solve [repeat appends_step IH].
Qed.

(** The generator only ever appends to the stream that it is writing: the
    output file, or the accumulator while a decorated function is built. *)
Theorem visit_appends node : appends (visit node).
Proof. apply (visit_appends_below (S (size node))). lia. Qed.


End Appending.
Section Scopes.
Context `{Utils}.

Lemma bind_intro {A B} (m : M A) (f : A → M B) st a st1 r :
  m st = Some (a, st1) → f a st1 = Some r → (m ≫= f) st = Some r.
Proof. intros Hm Hf. by rewrite bind_eq, Hm. Qed.

Lemma exec_inv (m : M unit) st st' :
  exec m st = Some st' → m st = Some (tt, st').
Proof.
  unfold exec. destruct (m st) as [[[] s]|]; [|discriminate].
  by intros [= <-].
Qed.

Lemma exec_intro (m : M unit) st st' :
  m st = Some (tt, st') → exec m st = Some st'.
Proof. unfold exec. by intros ->. Qed.

Lemma local_mangle_inv (m : M unit) st st' :
  local_mangle m st = Some (tt, st') →
  ∃ s, m (with_local true st) = Some (tt, s)
       ∧ st' = with_m_symbolMap (m_symbolMap st) (with_local (local st) s).
Proof.
  unfold local_mangle.
  destruct (m (with_local true st)) as [[[] s]|]; [|discriminate].
  intros [= <-]. eauto.
Qed.

Lemma scope_write_to s st : scope (write_to s st) = scope st.
Proof. unfold scope. by rewrite m_symbolMap_write_to, local_write_to. Qed.

Lemma local_mangle_scope (m : M unit) st st' :
  local_mangle m st = Some (tt, st') → scope st' = scope st.
Proof. by intros (s & _ & ->)%local_mangle_inv. Qed.


End Scopes.

Section Lowering.
Context `{UtilsAppend}.



Lemma visit_text node st st' :
  ok st → visit node st = Some (tt, st') →
  ok st' ∧ save st' = save st ∧ m_filename st' = m_filename st
  ∧ ∃ d, sink st' = sink st +:+ d.
Proof.
  intros Hok Hv. destruct (visit_appends node _ _ _ Hok Hv)
    as (Hok' & Hs & Hf & _ & Hd & _). by repeat split.
Qed.



Lemma appends_sink {A} (m : M A) st a st' :
  appends m → ok st → m st = Some (a, st') →
  ok st' ∧ ∃ d, sink st' = sink st +:+ d.
Proof.
  intros Hm Hok Hr. destruct (Hm _ _ _ Hok Hr) as (Hok' & _ & _ & _ & Hd & _).
  by split.
Qed.

Lemma same_output_sink st st' : same_output st st' → sink st' = sink st.
Proof. intros (Hs & Hr & Hm & _). unfold sink. by rewrite Hs, Hr, Hm. Qed.


(** The text of an action that only appends, as a witness of [writes]. *)
Lemma appends_writes (m : M unit) st st' :
  appends m → ok st → m st = Some (tt, st') →
  ok st' ∧ ∃ d, writes m d ∧ sink st' = sink st +:+ d.
Proof.
  intros Hm Hok Hr. destruct (appends_sink _ _ _ _ Hm Hok Hr) as [Hok' [d Hd]].
  split; [done|]. exists d. split; [|done].
  exists st, st'. split; [done|]. split; [by apply exec_intro|done].
Qed.

Lemma codegenCase_text subj i c st st' :
  ok st → codegenCase visit subj i c st = Some (tt, st') →
  ok st'
  ∧ ∃ t b,
      (is_wildcard c = false → writes (matchArg subj c.1) t)
      ∧ writes (visit c.2) b
      ∧ sink st' = sink st +:+ case_text i (is_wildcard c) t b.
Proof.
  intros Hok. unfold codegenCase, case_text.
  change (match c.1 with [only] => is_NoLiteral only | _ => false end)
    with (is_wildcard c).
  assert (Hbody : ∀ s s1 close,
    ok s → visit c.2 s = Some (tt, s1) →
    ok (write_to close s1)
    ∧ ∃ b, writes (visit c.2) b
           ∧ sink (write_to close s1) = sink s +:+ b +:+ close).
  { intros s s1 close Hs Hr.
    destruct (appends_writes _ _ _ (visit_appends _) Hs Hr)
      as (Hs1 & b & Hw & Hb).
    split; [by apply write_to_ok|]. exists b. split; [done|].
    by rewrite sink_write_to, Hb, append_assoc. }
  destruct (is_wildcard c) eqn:Hw, (i =? 0)%nat eqn:Hi.
  - intros Hr. apply bind_inv in Hr as ([] & s1 & Hr & [= <-]).
    destruct (Hbody _ _ nl Hok Hr) as (Hok' & b & Hb & Hs).
    split; [done|]. exists "", b. by repeat split.
  - intros Hr. apply bind_inv in Hr as ([] & s0 & [= <-] & Hr).
    apply bind_inv in Hr as ([] & s1 & Hr & [= <-]).
    destruct (Hbody _ _ (nl +:+ "}" +:+ nl) (write_to_ok _ _ Hok) Hr)
      as (Hok' & b & Hb & Hs).
    split; [done|]. exists "", b. split; [done|]. split; [done|].
    by rewrite Hs, sink_write_to, !append_assoc.
  - intros Hr. apply bind_inv in Hr as ([] & s0 & [= <-] & Hr).
    apply bind_inv in Hr as ([] & s1 & Hm & Hr).
    apply bind_inv in Hr as ([] & s2 & [= <-] & Hr).
    apply bind_inv in Hr as ([] & s3 & Hr & [= <-]).
    destruct (appends_writes _ _ _ (matchArg_appends _ _)
                (write_to_ok _ _ Hok) Hm) as (Hok1 & t & Ht & Hst).
    destruct (Hbody _ _ (nl +:+ "}" +:+ nl) (write_to_ok _ _ Hok1) Hr)
      as (Hok' & b & Hb & Hs).
    split; [done|]. exists t, b. split; [done|]. split; [done|].
    by rewrite Hs, sink_write_to, Hst, sink_write_to, !append_assoc.
  - intros Hr. apply bind_inv in Hr as ([] & s0 & [= <-] & Hr).
    apply bind_inv in Hr as ([] & s1 & Hm & Hr).
    apply bind_inv in Hr as ([] & s2 & [= <-] & Hr).
    apply bind_inv in Hr as ([] & s3 & Hr & [= <-]).
    destruct (appends_writes _ _ _ (matchArg_appends _ _)
                (write_to_ok _ _ Hok) Hm) as (Hok1 & t & Ht & Hst).
    destruct (Hbody _ _ (nl +:+ "}" +:+ nl) (write_to_ok _ _ Hok1) Hr)
      as (Hok' & b & Hb & Hs).
    split; [done|]. exists t, b. split; [done|]. split; [done|].
    by rewrite Hs, sink_write_to, Hst, sink_write_to, !append_assoc.
Qed.

Lemma case_chain_text subj cases :
  ∀ i st st',
    ok st → for_index (codegenCase visit subj) i cases st = Some (tt, st') →
    ok st'
    ∧ ∃ parts,
        Forall2 (λ c p,
                   p.1.1 = is_wildcard c
                   ∧ (is_wildcard c = false → writes (matchArg subj c.1) p.1.2)
                   ∧ writes (visit c.2) p.2) cases parts
        ∧ sink st' = sink st +:+ chain_text i parts.
Proof.
  induction cases as [|c cases IH]; intros i st st' Hok Hr; simpl in Hr.
  - injection Hr as <-. split; [done|]. exists []. split; [constructor|].
    by rewrite append_nil_r.
  - apply bind_inv in Hr as ([] & s1 & Hc & Hr).
    destruct (codegenCase_text _ _ _ _ _ Hok Hc) as (Hok1 & t & b & Ht & Hb & Hs).
    destruct (IH _ _ _ Hok1 Hr) as (Hok' & parts & Hparts & Hs').
    split; [done|]. exists ((is_wildcard c, t, b) :: parts). split.
    + constructor; [by repeat split|done].
    + simpl. by rewrite Hs', Hs, append_assoc.
Qed.

Lemma chain_of_text parts :
  ∀ i chain,
    chain_of parts = Some chain →
    chain_text i parts = render_chain (i =? 0)%nat chain.
Proof.
  induction parts as [|[[w t] b] parts IH]; intros i chain Hc; simpl in Hc.
  - injection Hc as <-. reflexivity.
  - destruct w.
    + destruct parts; [|discriminate]. injection Hc as <-. simpl.
      unfold case_text. destruct (i =? 0)%nat; by rewrite ?append_nil_r, ?append_assoc.
    + destruct (chain_of parts) as [rest|] eqn:Hrest; [|discriminate].
      injection Hc as <-. simpl. rewrite (IH (S i) rest eq_refl).
      unfold case_text. destruct (i =? 0)%nat; by rewrite !append_assoc.
Qed.

Lemma chain_of_tested cases parts :
  Forall2 (λ (c : list AstNode * AstNode) (p : bool * string * string),
             p.1.1 = is_wildcard c) cases parts →
  Forall (λ c, is_wildcard c = false) cases →
  is_Some (chain_of parts).
Proof.
  induction 1 as [|c [[w t] b] cases parts Hw _ IH]; intros Hall; [by eexists|].
  apply Forall_cons in Hall as [Hc Hall]. simpl in Hw. subst w.
  destruct (IH Hall) as [chain Hchain]. simpl. rewrite Hc, Hchain. by eexists.
Qed.

Lemma default_runs_taken e chain :
  default_runs e chain
  = match taken e chain with
    | None => true
    | Some body => completes e body
    end.
Proof.
  unfold default_runs, completes.
  induction chain as [|test body rest IH|body]; simpl; [done| |].
  - by destruct (test_holds e test).
  - done.
Qed.


Lemma return_parameters_text n l :
  ∀ i st st',
    ok st → (i + length l = n)%nat →
    for_index
      (λ i t,
         visit t;;
         write ("*____PEREGRINE____RETURN____" +:+ to_string i +:+ "=NULL");;
         when (i <? n - 1)%nat (write ","))
      i l st = Some (tt, st') →
    ok st' ∧ ∃ texts,
      Forall2 (λ t text, writes (visit t) text) l texts
      ∧ sink st' = sink st +:+ out_parameters i texts.
Proof.
  induction l as [|t l IH]; intros i st st' Hok Hn Hr; simpl in *.
  - injection Hr as <-. split; [done|]. exists []. split; [constructor|].
    by rewrite append_nil_r.
  - apply bind_inv in Hr as ([] & s1 & Hr1 & Hr).
    apply bind_inv in Hr1 as ([] & s2 & Ht & Hr1).
    apply bind_inv in Hr1 as ([] & s3 & [= <-] & Hw).
    destruct (appends_writes _ _ _ (visit_appends t) Hok Ht)
      as [Hok2 (d & Hwd & Hd)].
    assert (Hs1 : ok s1 ∧ sink s1
                  = sink st +:+ d +:+ "*____PEREGRINE____RETURN____"
                    +:+ to_string i +:+ "=NULL"
                    +:+ match l with [] => "" | _ => "," end).
    { destruct l as [|t' l]; simpl in Hn.
      - replace (i <? n - 1)%nat with false in Hw
          by (symmetry; apply Nat.ltb_ge; lia).
        injection Hw as <-. split; [by apply write_to_ok|].
        by rewrite sink_write_to, Hd, !append_assoc, append_nil_r.
      - replace (i <? n - 1)%nat with true in Hw
          by (symmetry; apply Nat.ltb_lt; lia).
        injection Hw as <-. split; [by do 2 apply write_to_ok|].
        by rewrite !sink_write_to, Hd, !append_assoc. }
    destruct Hs1 as [Hok1 Hs1].
    destruct (IH (S i) s1 st' Hok1 ltac:(lia) Hr) as [Hok' (texts & Hall & Hs)].
    split; [done|]. exists (d :: texts).
    split; [constructor; [exact Hwd|exact Hall]|].
    rewrite Hs, Hs1. simpl. rewrite !append_assoc. by destruct Hall.
Qed.


Lemma codegenReturnParams_text ts st st' :
  ok st → codegenReturnParams visit ts st = Some (tt, st') →
  ok st' ∧ ∃ texts,
    Forall2 (λ t text, writes (visit t) text) ts texts
    ∧ sink st' = sink st +:+ out_parameters 0 texts.
Proof.
  intros Hok Hr. by eapply (return_parameters_text (length ts)).
Qed.

Lemma appends_codegenFuncParams_visit parameters start :
  appends (codegenFuncParams visit parameters start).
Proof.
  apply appends_codegenFuncParams. intros p _.
  split; [|split]; apply visit_appends.
Qed.

Lemma separator_text (n k : nat) st st' :
  when ((0 <? n)%nat && (0 <? k)%nat) (write ",") st = Some (tt, st') →
  (0 < n)%nat →
  st' = write_to (if (0 <? k)%nat then "," else "") st
  ∨ (k = 0%nat ∧ st' = st).
Proof.
  intros Hr Hn. replace (0 <? n)%nat with true in Hr
    by (symmetry; by apply Nat.ltb_lt).
  destruct (0 <? k)%nat eqn:Hk; simpl in Hr; injection Hr as <-.
  - by left.
  - right. split; [|done]. apply Nat.ltb_ge in Hk. lia.
Qed.

Ltac sink_norm :=
  repeat first
    [ rewrite sink_write_to
    | progress change (sink (with_is_func_def ?b ?s)) with (sink s)
    | progress change (sink (with_is_define ?b ?s)) with (sink s)
    | progress change (sink (with_m_symbolMap ?m ?s)) with (sink s)
    | progress change (sink (with_local ?b ?s)) with (sink s) ].

Lemma toplevel_tuple_function_text tok ttok ts ntok fname params body st st' :
  ok st → ts ≠ [] → is_func_def st = false → fname ≠ "main" →
  visit (FunctionDefinition tok (TypeTuple ttok ts)
           (IdentifierExpression ntok fname) params body) st
  = Some (tt, st') →
  ∃ N P texts B,
    writes (visit (IdentifierExpression ntok fname)) N
    ∧ writes (codegenFuncParams visit params 0) P
    ∧ Forall2 (λ t text, writes (visit t) text) ts texts
    ∧ writes (visit body) B
    ∧ sink st' = sink st
        +:+ tuple_function_text false (0 <? length params)%nat N P
                                (out_parameters 0 texts) B.
Proof.
  intros Hok Hts Hf Hmain Hr. cbn [visit TurpleTypes] in Hr.
  apply bind_inv in Hr as (inf & s0 & [= <- <-] & Hr). rewrite Hf in Hr.
  simpl negb in Hr. cbv iota in Hr.
  apply bind_inv in Hr as ([] & s1 & [= <-] & Hr).
  apply bind_inv in Hr as ([] & s9 & Hr & [= <-]).
  rewrite (proj2 (String.eqb_neq _ _) Hmain) in Hr.
  replace (length ts =? 0)%nat with false in Hr
    by (symmetry; apply Nat.eqb_neq; by destruct ts).
  apply bind_inv in Hr as ([] & s2 & [= <-] & Hr).
  apply bind_inv in Hr as ([] & s3 & [= <-] & Hr).
  apply bind_inv in Hr as ([] & s4 & [= <-] & Hr).
  apply bind_inv in Hr as ([] & s5 & Hname & Hr).
  apply bind_inv in Hr as ([] & s6 & [= <-] & Hr).
  apply bind_inv in Hr as ([] & s7 & [= <-] & Hr).
  apply local_mangle_inv in Hr as (s8 & Hr & ->).
  apply bind_inv in Hr as ([] & sP & Hparams & Hr).
  apply bind_inv in Hr as ([] & sC & Hcomma & Hr).
  apply bind_inv in Hr as ([] & sT & Htypes & Hr).
  apply bind_inv in Hr as ([] & sO & [= <-] & Hr).
  apply bind_inv in Hr as ([] & sB & Hbody & [= <-]).
  (* the name *)
  match type of Hname with visit_IdentifierExpression _ ?s = _ =>
    assert (Hok4 : ok s) by (by do 2 apply write_to_ok);
    assert (Hs4 : sink s = sink st +:+ "void" +:+ " ")
      by (sink_norm; by rewrite ?append_assoc)
  end.
  destruct (appends_writes (visit (IdentifierExpression ntok fname)) _ _
              (visit_appends _) Hok4 Hname) as [Hok5 (N & HN & Hs5)].
  (* the parameters *)
  match type of Hparams with codegenFuncParams _ _ _ ?s = _ =>
    assert (Hok7 : ok s) by (by apply write_to_ok);
    assert (Hs7 : sink s = sink s5 +:+ "(") by (by sink_norm)
  end.
  destruct (appends_writes _ _ _ (appends_codegenFuncParams_visit params 0)
              Hok7 Hparams) as [HokP (P & HP & HsP)].
  (* the separator *)
  assert (HsC : ok sC ∧ sink sC
                = sink sP +:+ (if (0 <? length params)%nat then "," else "")).
  { apply separator_text in Hcomma as [->|[Hk ->]];
      [| |by destruct ts; simpl; [|lia]].
    - split; [by apply write_to_ok|by rewrite sink_write_to].
    - split; [done|]. by rewrite Hk, append_nil_r. }
  destruct HsC as [HokC HsC].
  (* the out-parameters *)
  cbn [over_tuple_types] in Htypes.
  apply codegenReturnParams_text in Htypes as [HokT (texts & Hall & HsT)];
    [|done].
  (* the body *)
  destruct (appends_writes _ _ _ (visit_appends body)
              (write_to_ok _ _ HokT) Hbody) as [HokB (B & HB & HsB)].
  exists N, P, texts, B. repeat split; try done.
  sink_norm. rewrite HsB. sink_norm. rewrite HsT, HsC, HsP, Hs7, Hs5, Hs4.
  unfold tuple_function_text. by rewrite !append_assoc.
Qed.


Lemma nested_tuple_function_text tok ttok ts ntok fname params body st st' :
  ok st → ts ≠ [] → is_func_def st = true →
  visit (FunctionDefinition tok (TypeTuple ttok ts)
           (IdentifierExpression ntok fname) params body) st
  = Some (tt, st') →
  ∃ N P texts B,
    writes (visit (IdentifierExpression ntok fname)) N
    ∧ writes (codegenFuncParams visit params 0) P
    ∧ Forall2 (λ t text, writes (visit t) text) ts texts
    ∧ writes (visit body) B
    ∧ sink st' = sink st
        +:+ tuple_function_text true (0 <? length params)%nat N P
                                (out_parameters 0 texts) B.
Proof.
  intros Hok Hts Hf Hr. cbn [visit TurpleTypes] in Hr.
  apply bind_inv in Hr as (inf & s0 & [= <- <-] & Hr). rewrite Hf in Hr.
  simpl negb in Hr. cbv iota in Hr.
  replace (length ts =? 0)%nat with false in Hr
    by (symmetry; apply Nat.eqb_neq; by destruct ts).
  apply local_mangle_inv in Hr as (s8 & Hr & ->).
  apply bind_inv in Hr as ([] & s1 & [= <-] & Hr).
  apply bind_inv in Hr as ([] & s2 & [= <-] & Hr).
  apply bind_inv in Hr as ([] & s3 & Hname & Hr).
  apply bind_inv in Hr as ([] & s4 & [= <-] & Hr).
  apply bind_inv in Hr as ([] & s5 & [= <-] & Hr).
  apply bind_inv in Hr as ([] & sP & Hparams & Hr).
  apply bind_inv in Hr as ([] & sC & Hcomma & Hr).
  apply bind_inv in Hr as ([] & sT & Htypes & Hr).
  apply bind_inv in Hr as ([] & s6 & [= <-] & Hr).
  apply bind_inv in Hr as ([] & s7 & [= <-] & Hr).
  apply bind_inv in Hr as ([] & sO & [= <-] & Hr).
  apply bind_inv in Hr as ([] & sB & Hbody & [= <-]).
  match type of Hname with visit_IdentifierExpression _ ?s = _ =>
    assert (Hok2 : ok s) by (by apply write_to_ok);
    assert (Hs2 : sink s = sink st +:+ "auto ") by (by sink_norm)
  end.
  destruct (appends_writes (visit (IdentifierExpression ntok fname)) _ _
              (visit_appends _) Hok2 Hname) as [Hok3 (N & HN & Hs3)].
  match type of Hparams with codegenFuncParams _ _ _ ?s = _ =>
    assert (Hok5 : ok s) by (by apply write_to_ok);
    assert (Hs5 : sink s = sink s3 +:+ "=[=](") by (by sink_norm)
  end.
  destruct (appends_writes _ _ _ (appends_codegenFuncParams_visit params 0)
              Hok5 Hparams) as [HokP (P & HP & HsP)].
  assert (HsC : ok sC ∧ sink sC
                = sink sP +:+ (if (0 <? length params)%nat then "," else "")).
  { apply separator_text in Hcomma as [->|[Hk ->]];
      [| |by destruct ts; simpl; [|lia]].
    - split; [by apply write_to_ok|by rewrite sink_write_to].
    - split; [done|]. by rewrite Hk, append_nil_r. }
  destruct HsC as [HokC HsC].
  cbn [over_tuple_types] in Htypes.
  apply codegenReturnParams_text in Htypes as [HokT (texts & Hall & HsT)];
    [|done].
  destruct (appends_writes _ _ _ (visit_appends body)
              (write_to_ok _ _ (write_to_ok _ _ (write_to_ok _ _ HokT))) Hbody)
    as [HokB (B & HB & HsB)].
  exists N, P, texts, B. repeat split; try done.
  sink_norm. rewrite HsB. sink_norm. rewrite HsT, HsC, HsP, Hs5, Hs3, Hs2.
  unfold tuple_function_text. by rewrite !append_assoc.
Qed.

Lemma return_assignments_text l :
  ∀ i st st',
    ok st →
    for_index
      (λ i e,
         write "    ";;
         write ("*____PEREGRINE____RETURN____" +:+ to_string i +:+ "=");;
         visit e;;
         write (";" +:+ nl))
      i l st = Some (tt, st') →
    ok st' ∧ ∃ texts,
      Forall2 (λ e text, writes (visit e) text) l texts
      ∧ sink st' = sink st +:+ out_assignments i texts.
Proof.
  induction l as [|e l IH]; intros i st st' Hok Hr; simpl in *.
  - injection Hr as <-. split; [done|]. exists []. split; [constructor|].
    by rewrite append_nil_r.
  - apply bind_inv in Hr as ([] & s1 & Hr1 & Hr).
    apply bind_inv in Hr1 as ([] & s2 & [= <-] & Hr1).
    apply bind_inv in Hr1 as ([] & s3 & [= <-] & Hr1).
    apply bind_inv in Hr1 as ([] & s4 & He & [= <-]).
    destruct (appends_writes _ _ _ (visit_appends e)
                (write_to_ok _ _ (write_to_ok _ _ Hok)) He)
      as [Hok4 (d & Hwd & Hd)].
    destruct (IH (S i) _ st' (write_to_ok _ _ Hok4) Hr)
      as [Hok' (texts & Hall & Hs)].
    split; [done|]. exists (d :: texts).
    split; [constructor; [exact Hwd|exact Hall]|].
    rewrite Hs. sink_norm. rewrite Hd. sink_norm. simpl.
    by rewrite !append_assoc.
Qed.




Lemma appends_run (m : M unit) st st' :
  appends m → ok st → m st = Some (tt, st') →
  ok st' ∧ save st' = save st
  ∧ ∃ d, writes m d ∧ sink st' = sink st +:+ d.
Proof.
  intros Hm Hok Hr. destruct (Hm _ _ _ Hok Hr) as (Hok' & Hsave & _).
  destruct (appends_writes _ _ _ Hm Hok Hr) as [_ Hd]. by repeat split.
Qed.

Lemma is_func_def_write_to s st :
  is_func_def (write_to s st) = is_func_def st.
Proof. unfold write_to. by destruct (save st). Qed.

Lemma visit_IdentifierExpression_is_func_def x st st' :
  visit_IdentifierExpression x st = Some (tt, st') →
  is_func_def st' = is_func_def st.
Proof.
  unfold visit_IdentifierExpression.
  destruct (is_ref st); [by intros [= <-]; rewrite is_func_def_write_to|].
  destruct (negb _).
  { intros ([] & s1 & [= <-] & [= <-])%bind_inv.
    by rewrite !is_func_def_write_to. }
  intros [= <-]. rewrite is_func_def_write_to.
  by destruct (negb _), (local st), (is_define st).
Qed.

Lemma appends_decorated_parameters returnType parameters :
  appends (decorated_parameters returnType parameters).
Proof.
  unfold decorated_parameters.
  apply appends_bind; [apply appends_codegenFuncParams_visit|intros _].
  apply appends_bind; [apply appends_when, appends_write|intros _].
  rewrite over_tuple_types_eq. apply appends_codegenReturnParamsDecorator.
  intros t _. apply visit_appends.
Qed.

Lemma sink_accumulating st : save st = true → sink st = res st.
Proof. unfold sink. by intros ->. Qed.

Lemma ok_accumulating_write s st :
  s ≠ "" → save st = true → ok (write_to s st).
Proof.
  intros Hs Hsave.
  by destruct (accumulating_write st st s Hs ltac:(by repeat split)).
Qed.


Lemma codegenDecorated_text ntok fname returnType fbody parameters
    st x contains st' :
  save st = true →
  codegenDecorated visit (IdentifierExpression ntok fname) returnType fbody
                   parameters st
  = Some ((x, contains), st') →
  ∃ N P R B,
    writes (visit (IdentifierExpression ntok fname)) N
    ∧ writes (decorated_parameters returnType parameters) P
    ∧ (if (length (TurpleTypes returnType) =? 0)%nat
       then writes (visit returnType) R else R = "void")
    ∧ writes (visit fbody) B
    ∧ x = res st +:+ "auto " +:+ N +:+ "="
    ∧ contains = decorated_lambda_text (is_func_def st) P R B.
Proof.
  intros Hsave Hr. unfold codegenDecorated in Hr.
  apply bind_inv in Hr as ([] & s1 & [= <-] & Hr).
  apply bind_inv in Hr as ([] & s2 & [= <-] & Hr).
  apply bind_inv in Hr as ([] & s3 & Hname & Hr).
  apply bind_inv in Hr as ([] & s4 & [= <-] & Hr).
  apply bind_inv in Hr as ([] & s5 & [= <-] & Hr).
  apply bind_inv in Hr as (x' & s6 & [= <- <-] & Hr).
  apply bind_inv in Hr as ([] & s7 & [= <-] & Hr).
  apply bind_inv in Hr as (inf & s8 & [= <- <-] & Hr).
  apply bind_inv in Hr as ([] & s9 & Hcap & Hr).
  apply bind_inv in Hr as ([] & s10 & Hlam & Hr).
  apply bind_inv in Hr as (c' & s11 & [= <- <-] & Hr).
  apply bind_inv in Hr as ([] & s12 & [= <-] & [= <- <- _]).
  (* the name *)
  assert (Hok1 : ok (with_is_define true (write_to "auto " st)))
    by exact (ok_accumulating_write "auto " st ltac:(done) Hsave).
  destruct (appends_run (visit (IdentifierExpression ntok fname)) _ _
              (visit_appends _) Hok1 Hname) as (Hok3 & Hsave3 & N & HN & Hs3).
  change (save (with_is_define true ?s)) with (save s) in Hsave3.
  rewrite save_write_to, Hsave in Hsave3.
  change (sink (with_is_define true ?s)) with (sink s) in Hs3.
  rewrite sink_write_to, (sink_accumulating st Hsave) in Hs3.
  pose proof (visit_IdentifierExpression_is_func_def _ _ _ Hname) as Hf3.
  change (is_func_def (with_is_define true ?s)) with (is_func_def s) in Hf3.
  rewrite is_func_def_write_to in Hf3.
  (* the capture list *)
  rewrite is_func_def_write_to in Hcap.
  change (is_func_def (with_is_define ?b ?s)) with (is_func_def s) in Hcap.
  rewrite Hf3 in Hcap.
  set (s7 := with_res "" (write_to "=" (with_is_define false s3))) in *.
  assert (Hsave7 : save s7 = true)
    by (subst s7; change (save (with_res ?r ?s)) with (save s);
        rewrite save_write_to; exact Hsave3).
  assert (Hres7 : res s7 = "") by reflexivity.
  assert (Hs9 : s9 = write_to (if is_func_def st then "[=](" else "[](") s7)
    by (destruct (is_func_def st); by injection Hcap).
  assert (Hok9 : ok s9)
    by (subst s9; apply ok_accumulating_write;
        [by destruct (is_func_def st)|done]).
  assert (Hsink9 : sink s9 = if is_func_def st then "[=](" else "[](").
  { subst s9. rewrite sink_write_to, (sink_accumulating _ Hsave7), Hres7.
    by destruct (is_func_def st). }
  assert (Hsave9 : save s9 = true) by (subst s9; by rewrite save_write_to).
  clear Hcap.
  (* the lambda *)
  apply local_mangle_inv in Hlam as (sL & Hlam & ->).
  apply bind_inv in Hlam as ([] & sP & HP1 & Hlam).
  apply bind_inv in Hlam as ([] & sC & HP2 & Hlam).
  apply bind_inv in Hlam as ([] & sT & HP3 & Hlam).
  apply bind_inv in Hlam as ([] & sA & [= <-] & Hlam).
  apply bind_inv in Hlam as ([] & sR & HR & Hlam).
  apply bind_inv in Hlam as ([] & sO & [= <-] & Hlam).
  apply bind_inv in Hlam as (inf & sG & [= <- <-] & Hlam).
  apply bind_inv in Hlam as ([] & sB & HB & [= <-]).
  assert (HP : decorated_parameters returnType parameters (with_local true s9)
               = Some (tt, sT)).
  { unfold decorated_parameters.
    eapply bind_intro; [exact HP1|]. eapply bind_intro; [exact HP2|exact HP3]. }
  destruct (appends_run _ _ _ (appends_decorated_parameters _ _)
              (Hok9 : ok (with_local true s9)) HP)
    as (HokT & HsaveT & P & HwP & HsT).
  change (save (with_local true s9)) with (save s9) in HsaveT.
  rewrite Hsave9 in HsaveT.
  change (sink (with_local true s9)) with (sink s9) in HsT.
  assert (HsR : ok sR ∧ save sR = true ∧ ∃ R,
            (if (length (TurpleTypes returnType) =? 0)%nat
             then writes (visit returnType) R else R = "void")
            ∧ sink sR = sink sT +:+ ")mutable->" +:+ R).
  { destruct (length (TurpleTypes returnType) =? 0)%nat.
    - destruct (appends_run _ _ _ (visit_appends returnType)
                  (write_to_ok _ _ HokT) HR) as (Hok & Hsv & R & HwR & Hs).
      split; [done|]. split.
      { by rewrite Hsv, save_write_to, HsaveT. }
      exists R. split; [done|]. by rewrite Hs, sink_write_to, append_assoc.
    - injection HR as <-. split; [by do 2 apply write_to_ok|]. split.
      { by rewrite !save_write_to, HsaveT. }
      exists "void". split; [done|]. by rewrite !sink_write_to, append_assoc. }
  destruct HsR as (HokR & HsaveR & R & HwR & HsR).
  assert (HsB : ∃ B, writes (visit fbody) B
                     ∧ sink sB = sink sR +:+ "{" +:+ nl +:+ B
                     ∧ save sB = true).
  { destruct (negb (is_func_def (write_to ("{" +:+ nl) sR))).
    - apply bind_inv in HB as ([] & b1 & [= <-] & HB).
      apply bind_inv in HB as ([] & b2 & HB & [= <-]).
      destruct (appends_run _ _ _ (visit_appends fbody)
                  (write_to_ok ("{" +:+ nl) _ HokR
                   : ok (with_is_func_def true _)) HB)
        as (Hok & Hsv & B & HwB & Hs).
      exists B. split; [done|]. split.
      + sink_norm. rewrite Hs. sink_norm. by rewrite !append_assoc.
      + change (save (with_is_func_def ?b ?s)) with (save s).
        rewrite Hsv. change (save (with_is_func_def ?b ?s)) with (save s).
        by rewrite save_write_to.
    - destruct (appends_run _ _ _ (visit_appends fbody)
                  (write_to_ok ("{" +:+ nl) _ HokR) HB)
        as (Hok & Hsv & B & HwB & Hs).
      exists B. split; [done|]. split.
      + rewrite Hs. sink_norm. by rewrite !append_assoc.
      + by rewrite Hsv, save_write_to. }
  destruct HsB as (B & HwB & HsB & HsaveB).
  exists N, P, R, B. repeat split; try done.
  - change (res (write_to "=" (with_is_define false s3))
            = res st +:+ "auto " +:+ N +:+ "=").
    rewrite <- sink_accumulating
      by (by rewrite save_write_to).
    sink_norm. by rewrite Hs3, !append_assoc.
  - match goal with |- res ?s = _ =>
      rewrite <- (sink_accumulating s)
        by (change (save (with_m_symbolMap ?m ?s')) with (save s');
            change (save (with_local ?b ?s')) with (save s');
            by rewrite save_write_to)
    end.
    sink_norm. rewrite HsB, HsR, HsT. sink_norm. rewrite Hsink9.
    unfold decorated_lambda_text. by rewrite !append_assoc.
Qed.


Lemma append_nil_l (s : string) : "" +:+ s = s.
Proof. reflexivity. Qed.

Lemma wrap_all_fold (wrap_text : AstNode → string → string) items :
  (∀ item c s, item ∈ items → wrap item c s = Some (wrap_text item c, s)) →
  ∀ n c st, (n ≤ length items)%nat →
    wrap_all items n c st = Some (fold_right wrap_text c (take n items), st).
Proof.
  intros Hw. induction n as [|n IH]; intros c st Hn; cbn [wrap_all].
  - by rewrite take_0.
  - destruct (items !! n) as [item|] eqn:E;
      [|apply lookup_ge_None in E; lia].
    rewrite bind_eq, (Hw item c st (list_elem_of_lookup_2 _ _ _ E)).
    rewrite IH by lia. by rewrite (take_S_r _ _ _ E), fold_right_app.
Qed.


End Lowering.

(** The helpers of [example_utils] write nothing. *)
Lemma example_utils_append : @UtilsAppend example_utils.
Proof.
  split; try (intros; apply appends_ret).
  intros item contains st contains' st'. cbn [wrap example_utils].
  destruct (wrap_call item contains); [|discriminate].
  by intros [= _ <-].
Qed.


(** [visit(WithStatement)] has no [local_mangle_start]: the name that a
    with-block binds is still in the symbol map after the block. *)
Lemma with_block_keeps_its_names :
  exec (visit (H := example_utils) example_with) (Codegen_new "a.pg")
  = Some (run example_with (Codegen_new "a.pg"))
  ∧ contains (m_symbolMap (Codegen_new "a.pg")) "r" = false
  ∧ contains (m_symbolMap (run example_with (Codegen_new "a.pg"))) "r" = true.
Proof. split; [|split]; vm_compute; reflexivity. Qed.









End CodegenFacts.

(** * Further properties *)

(** ** The symbol tables *)

Module ScopedFacts.
Import SymbolTable.Scoped.
Section WithT.
Context {T : Type}.
Implicit Types (t : SymbolTable T) (name : string) (v : T).

Lemma table_ind (P : SymbolTable T → Prop) :
  (∀ symbols, P (mkSymbolTable symbols None)) →
  (∀ symbols p, P p → P (mkSymbolTable symbols (Some p))) →
  ∀ t, P t.
Proof.
  intros Hroot Hchild. fix IH 1.
  intros [symbols [p|]]; [apply Hchild, IH|apply Hroot].
Qed.

Lemma get_unfold t name :
  get t name = match m_symbols t !! name with
               | Some v => Some v
               | None => match m_parent t with
                         | None => None
                         | Some p => get p name
                         end
               end.
Proof. by destruct t. Qed.

(** [set] binds only a name that no scope of the chain holds, and binds it in
    the innermost scope: the name then reads as the value, every other name
    reads as before and the enclosing scopes are untouched.  On a name that
    the table or one of its parents holds, [set] returns false and changes
    nothing: it never overwrites and never shadows. *)
Theorem set_binds_only_fresh_names t name v :
  match get t name with
  | None =>
      (set t name v).1 = true
      ∧ get (set t name v).2 name = Some v
      ∧ (∀ other, other ≠ name → get (set t name v).2 other = get t other)
      ∧ parent (set t name v).2 = parent t
  | Some _ => set t name v = (false, t)
  end.
Proof.
  unfold set. destruct (get t name) eqn:E; [done|]. cbn [fst snd].
  split; [done|]. split; [|split; [|done]].
  - by rewrite get_unfold; simpl; rewrite lookup_insert_eq.
  - intros other Hne. rewrite !(get_unfold _ other). simpl.
    by rewrite lookup_insert_ne.
Qed.

Lemma reassign_missing t name v :
  get t name = None → reassign t name v = (false, t).
Proof.
  induction t as [symbols|symbols p IH] using table_ind; simpl.
  - by destruct (symbols !! name).
  - destruct (symbols !! name); [discriminate|]. intros Hp.
    by rewrite (IH Hp).
Qed.

Lemma reassign_visible t name v old :
  get t name = Some old →
  (reassign t name v).1 = true
  ∧ get (reassign t name v).2 name = Some v
  ∧ (∀ other, other ≠ name →
       get (reassign t name v).2 other = get t other)
  ∧ scopes (reassign t name v).2 = scopes t.
Proof.
  induction t as [symbols|symbols p IH] using table_ind; simpl.
  - destruct (symbols !! name) as [w|] eqn:E; [|discriminate]. simpl.
    intros _. rewrite lookup_insert_eq. repeat split.
    + intros other Hne. by rewrite lookup_insert_ne.
    + f_equal. by rewrite dom_insert_lookup_L by eauto.
  - destruct (symbols !! name) as [w|] eqn:E; simpl.
    + intros _. rewrite lookup_insert_eq. repeat split.
      * intros other Hne. by rewrite lookup_insert_ne.
      * f_equal. by rewrite dom_insert_lookup_L by eauto.
    + intros Hp. destruct (IH Hp) as (Hb & Hv & Ho & Hs).
      rewrite E. repeat split; try done.
      * intros other Hne. destruct (symbols !! other); [done|]. by apply Ho.
      * by rewrite Hs.
Qed.

(** [reassign] writes the value into the innermost scope that holds the
    name, which is the scope that [get] reads: the name then reads as the
    new value, every other name reads as before, and no scope gains or
    loses a name.  On a name that no scope holds it returns false and
    changes nothing: it never creates a binding. *)
Theorem reassign_updates_only_visible_names t name v :
  match get t name with
  | Some _ =>
      (reassign t name v).1 = true
      ∧ get (reassign t name v).2 name = Some v
      ∧ (∀ other, other ≠ name →
           get (reassign t name v).2 other = get t other)
      ∧ scopes (reassign t name v).2 = scopes t
  | None => reassign t name v = (false, t)
  end.
Proof.
  destruct (get t name) as [old|] eqn:E.
  - by apply (reassign_visible t name v old).
  - by apply reassign_missing.
Qed.

(** A value that [set] stored is what [get] answers until [reassign]
    replaces it, and [reassign] after [set] always succeeds. *)
Theorem set_then_reassign t name v w :
  get t name = None →
  get (set t name v).2 name = Some v
  ∧ (reassign (set t name v).2 name w).1 = true
  ∧ get (reassign (set t name v).2 name w).2 name = Some w.
Proof.
  intros Hfresh. pose proof (set_binds_only_fresh_names t name v) as Hs.
  rewrite Hfresh in Hs. destruct Hs as (_ & Hv & _).
  split; [done|].
  destruct (reassign_visible (set t name v).2 name w v Hv) as (Hb & Hw & _).
  by split.
Qed.

End WithT.
Lemma set_then_reassign_witness :
  get (set (new (T := nat) None) "x" 1).2 "x" = Some 1
  ∧ (reassign (set (new (T := nat) None) "x" 1).2 "x" 2).1 = true
  ∧ get (reassign (set (new (T := nat) None) "x" 1).2 "x" 2).2 "x" = Some 2.
Proof. apply (set_then_reassign (new None) "x" 1 2). reflexivity. Defined.

End ScopedFacts.

Module MangleMore.
Import SymbolTable MangleFacts.

Lemma contains_local m name v :
  m_local_names m !! name = Some v → contains m name = true.
Proof. intros Hl. apply contains_spec. right. left. eauto. Qed.

(** [set_local] and [set_global] on one name leave every other name as it
    was: [contains] and [operator[]] answer the same for it. *)
Theorem mangle_set_frame (m : MangleName) (x g name : string) :
  name ≠ x →
  lookup (set_local x m) name = lookup m name
  ∧ contains (set_local x m) name = contains m name
  ∧ lookup (set_global x g m) name = lookup m name
  ∧ contains (set_global x g m) name = contains m name.
Proof.
  intros Hne. unfold lookup, contains, count_ne_0, at_key, set_local,
    set_global. simpl. by rewrite !lookup_insert_ne.
Qed.

(** [clear_local] forgets every local name and keeps the global ones: a name
    that is not reserved then reads as its global mangling, or as itself
    when it has none, whatever [set_local] did before. *)
Theorem clear_local_falls_back_to_global (m : MangleName) (name : string) :
  ¬ reserved name →
  lookup (clear_local m) name = default name (m_global_names m !! name)
  ∧ contains (clear_local m) name
    = bool_decide (is_Some (m_global_names m !! name))
  ∧ ∀ x, clear_local (set_local x m) = clear_local m.
Proof.
  intros Hr. split; [|split; [|done]].
  - destruct (m_global_names m !! name) as [g|] eqn:E; simpl.
    + apply lookup_global; [done|apply lookup_empty|done].
    + apply lookup_absent; [apply lookup_empty|done].
  - apply eq_true_iff_eq. rewrite contains_spec, bool_decide_eq_true. simpl.
    rewrite lookup_empty. split.
    + intros [?|[[? ?]|?]]; [contradiction|discriminate|done].
    + intros ?. by right; right.
Qed.

(** A local name hides the global one: [set_global] on a name that has a
    local mangling does not change what the name reads as, and the global
    mangling shows once [clear_local] has run. *)
Theorem local_name_hides_set_global (m : MangleName) (x g l : string) :
  ¬ reserved x → m_local_names m !! x = Some l →
  lookup (set_global x g m) x = l
  ∧ lookup m x = l
  ∧ lookup (clear_local (set_global x g m)) x = g.
Proof.
  intros Hr Hl. split; [|split].
  - by apply lookup_local.
  - by apply lookup_local.
  - apply lookup_global; [done|done|]. simpl. apply lookup_insert_eq.
Qed.

Lemma mangle_set_frame_witness :
  lookup (set_local "x" empty) "y" = lookup empty "y"
  ∧ contains (set_local "x" empty) "y" = contains empty "y"
  ∧ lookup (set_global "x" "g" empty) "y" = lookup empty "y"
  ∧ contains (set_global "x" "g" empty) "y" = contains empty "y".
Proof. apply (mangle_set_frame empty "x" "g" "y"). discriminate. Defined.

Lemma clear_local_falls_back_witness :
  lookup (clear_local (set_local "f" (set_global "f" "g" empty))) "f"
  = default "f"
      (m_global_names (set_local "f" (set_global "f" "g" empty)) !! "f")
  ∧ contains (clear_local (set_local "f" (set_global "f" "g" empty))) "f"
    = bool_decide
        (is_Some
           (m_global_names (set_local "f" (set_global "f" "g" empty)) !! "f"))
  ∧ ∀ x, clear_local (set_local x (set_local "f" (set_global "f" "g" empty)))
         = clear_local (set_local "f" (set_global "f" "g" empty)).
Proof.
  apply (clear_local_falls_back_to_global
           (set_local "f" (set_global "f" "g" empty)) "f").
  intros [?|?]; discriminate.
Defined.

Lemma local_name_hides_witness :
  lookup (set_global "f" "g" (set_local "f" empty)) "f"
  = "____PEREGRINE____PEREGRINE____f"
  ∧ lookup (set_local "f" empty) "f" = "____PEREGRINE____PEREGRINE____f"
  ∧ lookup (clear_local (set_global "f" "g" (set_local "f" empty))) "f" = "g".
Proof.
  apply (local_name_hides_set_global (set_local "f" empty) "f" "g").
  - intros [?|?]; discriminate.
  - vm_compute. reflexivity.
Defined.

End MangleMore.

(** ** The parser *)

Module ParseMore.
Import Parse ParseFacts.
Section WithExternals.
Context `{Externals}.

(** What [ends_statement] gives at a cursor whose next tokens are
    [after]: the line break, if any, is taken once, and then no operator
    follows. *)
Lemma ends_statement_settles p :
  ends_statement (drop (S (m_tokIndex p)) (m_tokens p)) = true →
  nextPrecedence (advanceOnNewLine p) = pr_lowest
  ∧ advanceOnNewLine (advanceOnNewLine p) = advanceOnNewLine p
  ∧ nextPrecedence p = pr_lowest.
Proof.
  intros Hend. unfold ends_statement in Hend.
  destruct (drop (S (m_tokIndex p)) (m_tokens p)) as [|t rest] eqn:Hd;
    [discriminate|].
  assert (Ht : m_tokens p !! S (m_tokIndex p) = Some t).
  { rewrite <- (Nat.add_0_r (S (m_tokIndex p))), <- lookup_drop. by rewrite Hd. }
  assert (Hnext : next p = t) by (unfold next; by rewrite Ht).
  apply orb_true_iff in Hend as [Hplain|Hnl].
  - apply andb_true_iff in Hplain as [Hpr Hnot].
    apply bool_decide_eq_true in Hpr. apply negb_true_iff in Hnot.
    unfold advanceOnNewLine. rewrite Hnext, Hnot, Hnext, Hnot.
    unfold nextPrecedence. by rewrite Hnext, Hpr.
  - apply andb_true_iff in Hnl as [Hnl Hrest].
    destruct rest as [|u rest']; [discriminate|].
    apply andb_true_iff in Hrest as [Hpr Hnot].
    apply bool_decide_eq_true in Hpr. apply negb_true_iff in Hnot.
    assert (Hu : m_tokens p !! S (S (m_tokIndex p)) = Some u).
    { rewrite <- (Nat.add_1_r (S (m_tokIndex p))), <- lookup_drop.
      by rewrite Hd. }
    assert (Hq : advanceOnNewLine p = advance p)
      by (unfold advanceOnNewLine; by rewrite Hnext, Hnl).
    assert (Hnext' : next (advance p) = u).
    { unfold next, advance. rewrite Ht. simpl. by rewrite Hu. }
    rewrite !Hq. split; [|split].
    + unfold nextPrecedence. by rewrite Hnext', Hpr.
    + unfold advanceOnNewLine. by rewrite Hnext', Hnot.
    + unfold nextPrecedence. rewrite Hnext.
      apply bool_decide_eq_true in Hnl. by rewrite Hnl.
Qed.

Lemma pr_gt_lowest prec : pr_gt pr_lowest prec = false.
Proof. unfold pr_gt. simpl. apply Nat.ltb_ge. lia. Qed.

(** An operator that binds tighter than the one before it takes the operand
    between them: [a o1 b o2 c] is parsed as [a o1 (b o2 c)] when [o2] has
    the greater precedence, as in [a + b * c]. *)
Theorem tighter_operator_groups_right
    (filename : string) (a o1 b o2 c : Token) (after : list Token)
    (fuel : nat) (p : Parser) :
  tkType a = tk_identifier → tkType b = tk_identifier →
  tkType c = tk_identifier →
  is_binary_operator (tkType o1) = true →
  is_binary_operator (tkType o2) = true →
  pr_gt (precedenceMap_at (tkType o2)) (precedenceMap_at (tkType o1)) = true →
  ends_statement after = true →
  Parser_new filename (a :: o1 :: b :: o2 :: c :: after) = Some p →
  ∃ p',
    parseExpression (3 + fuel) pr_lowest p
    = Some (BinaryOperation o1 (IdentifierExpression a (keyword a)) o1
              (BinaryOperation o2 (IdentifierExpression b (keyword b)) o2
                               (IdentifierExpression c (keyword c))), p').
Proof.
  intros Ha Hb Hc Ho1 Ho2 Hgt Hend [= <-].
  destruct (binary_operator_facts _ Ho1) as (Hgt1 & Hpr1 & Hnl1).
  destruct (binary_operator_facts _ Ho2) as (Hgt2 & Hpr2 & Hnl2).
  set (toks := a :: o1 :: b :: o2 :: c :: after).
  set (p0 := mkParser toks 0 a [] filename).
  set (p2 := mkParser toks 2 b [] filename).
  set (p4 := mkParser toks 4 c [] filename).
  destruct (ends_statement_settles p4 Hend) as (Hlow & Hidem & Hn4).
  (* the operand of [o1]: [b o2 c] *)
  assert (Hinner :
    parseExpression (S (S fuel)) (precedenceMap_at (tkType o1)) p2
    = Some (BinaryOperation o2 (IdentifierExpression b (keyword b)) o2
                            (IdentifierExpression c (keyword c)),
            advanceOnNewLine p4)).
  { rewrite parseExpression_unfold. unfold parseExpression_.
    rewrite parser_bind_eq.
    rewrite parsePrefix_identifier by (by apply cur_is_intro).
    change (parseIdentifier p2) with (IdentifierExpression b (keyword b)).
    rewrite parser_bind_eq.
    erewrite (while_loop_step _ _ _ _ _ p2 (advanceOnNewLine p4)); cycle 1.
    { unfold nextPrecedence, next. simpl. by rewrite Hpr2. }
    { rewrite parser_bind_eq, parseInfix_binary by done.
      rewrite parseBinaryOperation_operand.
      - reflexivity.
      - by apply cur_is_intro.
      - change (advance (advance p2)) with p4. rewrite Hn4.
        apply pr_gt_lowest. }
    rewrite while_loop_exit by (rewrite Hlow; apply pr_gt_lowest).
    cbv beta iota. unfold mbind, M_bind, lift, mret, M_ret.
    by rewrite Hidem. }
  change (3 + fuel) with (S (S (S fuel))).
  rewrite parseExpression_unfold. unfold parseExpression_.
  rewrite parser_bind_eq.
  rewrite parsePrefix_identifier by (by apply cur_is_intro).
  change (parseIdentifier p0) with (IdentifierExpression a (keyword a)).
  rewrite parser_bind_eq.
  erewrite (while_loop_step _ _ _ _ _ p0 (advanceOnNewLine p4)); cycle 1.
  { unfold nextPrecedence, next. simpl. by rewrite Hpr1. }
  { rewrite parser_bind_eq, parseInfix_binary by done.
    unfold parseBinaryOperation. rewrite parser_bind_eq. unfold gets at 1.
    rewrite parser_bind_eq. unfold lift at 1. rewrite parser_bind_eq.
    change (self_parseExpression (parser_at (S (S fuel))))
      with (parseExpression (S (S fuel))).
    change (advance (advance p0)) with p2.
    change (m_currentToken (advance p0)) with o1.
    rewrite Hinner. reflexivity. }
  rewrite while_loop_exit by (rewrite Hlow; apply pr_gt_lowest).
  rewrite parser_bind_eq. eexists. reflexivity.
Qed.

(** A line break inside an expression regroups it: in [a o1 b], a line
    break, [o2 c], the operand [b] ends at the line break, and the infix
    loop of the outer call then takes [o2] from the next line, so the
    result is [(a o1 b) o2 c] whatever the precedences of [o1] and [o2]. *)
Theorem line_break_regroups_operators
    (filename : string) (a o1 b nl o2 c : Token) (after : list Token)
    (fuel : nat) (p : Parser) :
  tkType a = tk_identifier → tkType b = tk_identifier →
  tkType c = tk_identifier → tkType nl = tk_new_line →
  is_binary_operator (tkType o1) = true →
  is_binary_operator (tkType o2) = true →
  ends_statement after = true →
  Parser_new filename (a :: o1 :: b :: nl :: o2 :: c :: after) = Some p →
  ∃ p',
    parseExpression (3 + fuel) pr_lowest p
    = Some (BinaryOperation o2
              (BinaryOperation o1 (IdentifierExpression a (keyword a)) o1
                               (IdentifierExpression b (keyword b)))
              o2 (IdentifierExpression c (keyword c)), p').
Proof.
  intros Ha Hb Hc Hnl Ho1 Ho2 Hend [= <-].
  destruct (binary_operator_facts _ Ho1) as (Hgt1 & Hpr1 & Hnl1).
  destruct (binary_operator_facts _ Ho2) as (Hgt2 & Hpr2 & Hnl2).
  set (toks := a :: o1 :: b :: nl :: o2 :: c :: after).
  set (p0 := mkParser toks 0 a [] filename).
  set (p2 := mkParser toks 2 b [] filename).
  set (p3 := mkParser toks 3 nl [] filename).
  set (p5 := mkParser toks 5 c [] filename).
  destruct (ends_statement_settles p5 Hend) as (Hlow & Hidem & Hn5).
  assert (Hn2 : nextPrecedence p2 = pr_lowest).
  { unfold nextPrecedence, next. simpl. by rewrite Hnl. }
  assert (Ha2 : advanceOnNewLine p2 = p3).
  { unfold advanceOnNewLine, next, is_kind. simpl.
    by rewrite bool_decide_eq_true_2. }
  change (3 + fuel) with (S (S (S fuel))).
  rewrite parseExpression_unfold. unfold parseExpression_.
  rewrite parser_bind_eq.
  rewrite parsePrefix_identifier by (by apply cur_is_intro).
  change (parseIdentifier p0) with (IdentifierExpression a (keyword a)).
  rewrite parser_bind_eq.
  (* first turn: [a o1 b], up to the line break *)
  erewrite (while_loop_step _ _ _ _ _ p0 p3); cycle 1.
  { unfold nextPrecedence, next. simpl. by rewrite Hpr1. }
  { rewrite parser_bind_eq, parseInfix_binary by done.
    rewrite parseBinaryOperation_operand.
    - change (advance (advance p0)) with p2. by rewrite Ha2.
    - by apply cur_is_intro.
    - change (advance (advance p0)) with p2. rewrite Hn2.
      apply pr_gt_lowest. }
  (* second turn: [o2 c], from the next line *)
  erewrite (while_loop_step _ _ _ _ _ p3 (advanceOnNewLine p5)); cycle 1.
  { unfold nextPrecedence, next. simpl. by rewrite Hpr2. }
  { rewrite parser_bind_eq, parseInfix_binary by done.
    rewrite parseBinaryOperation_operand.
    - reflexivity.
    - by apply cur_is_intro.
    - change (advance (advance p3)) with p5. rewrite Hn5.
      apply pr_gt_lowest. }
  rewrite while_loop_exit by (rewrite Hlow; apply pr_gt_lowest).
  rewrite parser_bind_eq. eexists. reflexivity.
Qed.

Lemma nextPrecedence_error tok message p :
  nextPrecedence (error tok message p) = nextPrecedence p.
Proof. reflexivity. Qed.

(** A token that starts neither a statement nor an expression does not stop
    the parser: [parseStatement] records the one error
    [<keyword> is not an expression], yields the null pointer as the
    statement, and leaves the cursor on the token (or on the line break
    after it). *)
Theorem stray_token_gives_a_null_statement (fuel : nat) (p : Parser) :
  starts_nothing (tkType (m_currentToken p)) = true →
  pr_gt (nextPrecedence p) pr_lowest = false →
  parseStatement (2 + fuel) p
  = Some (nullptr,
          advanceOnNewLine
            (error (m_currentToken p)
                   (keyword (m_currentToken p) +:+ " is not an expression")
                   p)).
Proof.
  intros Hk Hn.
  assert (Hexpr : parseExpression (S fuel) pr_lowest p
    = Some (nullptr,
            advanceOnNewLine
              (error (m_currentToken p)
                     (keyword (m_currentToken p) +:+ " is not an expression")
                     p))).
  { rewrite parseExpression_unfold. unfold parseExpression_.
    rewrite parser_bind_eq.
    assert (Hprefix : parsePrefix (parser_at fuel) p
      = Some (nullptr,
              error (m_currentToken p)
                    (keyword (m_currentToken p) +:+ " is not an expression")
                    p)).
    { unfold parsePrefix. rewrite parser_bind_eq. unfold gets at 1.
      destruct (tkType (m_currentToken p)); try discriminate Hk; reflexivity. }
    rewrite Hprefix, parser_bind_eq.
    rewrite while_loop_exit by (by rewrite nextPrecedence_error).
    reflexivity. }
  change (parseStatement (2 + fuel))
    with (parseStatement_ (S fuel) (parser_at (S fuel))).
  unfold parseStatement_. rewrite parser_bind_eq. unfold gets at 1.
  rewrite parser_bind_eq. unfold gets at 1.
  change (self_parseExpression (parser_at (S fuel)))
    with (parseExpression (S fuel)).
  destruct (tkType (m_currentToken p)); try discriminate Hk; exact Hexpr.
Qed.

End WithExternals.
Lemma tighter_operator_witness :
  ∃ p',
    parseExpression (H := example_externals) 3 pr_lowest
      (mkParser tokens_sum_product 0 (example_token tk_identifier "a") []
                "a.pg")
    = Some (BinaryOperation (example_token tk_plus "+")
              (IdentifierExpression (example_token tk_identifier "a") "a")
              (example_token tk_plus "+")
              (BinaryOperation (example_token tk_multiply "*")
                 (IdentifierExpression (example_token tk_identifier "b") "b")
                 (example_token tk_multiply "*")
                 (IdentifierExpression (example_token tk_identifier "c") "c")),
            p').
Proof.
  apply (tighter_operator_groups_right (H := example_externals) "a.pg"
           (example_token tk_identifier "a") (example_token tk_plus "+")
           (example_token tk_identifier "b") (example_token tk_multiply "*")
           (example_token tk_identifier "c")
           [example_token tk_new_line ""; example_token tk_eof ""] 0);
    reflexivity.
Defined.

Lemma line_break_witness :
  ∃ p',
    parseExpression (H := example_externals) 3 pr_lowest
      (mkParser tokens_sum_break_product 0 (example_token tk_identifier "a")
                [] "a.pg")
    = Some (BinaryOperation (example_token tk_multiply "*")
              (BinaryOperation (example_token tk_plus "+")
                 (IdentifierExpression (example_token tk_identifier "a") "a")
                 (example_token tk_plus "+")
                 (IdentifierExpression (example_token tk_identifier "b") "b"))
              (example_token tk_multiply "*")
              (IdentifierExpression (example_token tk_identifier "c") "c"),
            p').
Proof.
  apply (line_break_regroups_operators (H := example_externals) "a.pg"
           (example_token tk_identifier "a") (example_token tk_plus "+")
           (example_token tk_identifier "b") (example_token tk_new_line "")
           (example_token tk_multiply "*") (example_token tk_identifier "c")
           [example_token tk_new_line ""; example_token tk_eof ""] 0);
    reflexivity.
Defined.

Lemma stray_token_witness :
  parseStatement (H := example_externals) 2 parser_stray
  = Some (nullptr,
          advanceOnNewLine (H := example_externals)
            (error (example_token tk_r_paren ")") ") is not an expression"
                   parser_stray)).
Proof.
  apply (stray_token_gives_a_null_statement (H := example_externals) 0
           parser_stray); reflexivity.
Defined.

End ParseMore.

Module ParseSteady.
Import Parse ParseFacts.

Section WithExternals.
Context `{ExternalsSteady}.

Lemma grows_refl p : grows p p.
Proof. by repeat split. Qed.

Lemma grows_trans p1 p2 p3 : grows p1 p2 → grows p2 p3 → grows p1 p3.
Proof.
  intros (Ht & Hf & Hi & He) (Ht' & Hf' & Hi' & He').
  repeat split; [congruence|congruence|lia|by etrans].
Qed.

Lemma grows_advance p : grows p (advance p).
Proof.
  unfold advance. destruct (m_tokens p !! _); repeat split; simpl;
    try reflexivity; lia.
Qed.

Lemma grows_error tok message p : grows p (error tok message p).
Proof. split; [|split; [|split]]; simpl; [done|done|lia|by apply prefix_app_r]. Qed.

Lemma grows_advanceOnNewLine p : grows p (advanceOnNewLine p).
Proof.
  unfold advanceOnNewLine. destruct (is_kind _ _);
    [apply grows_advance|apply grows_refl].
Qed.

Lemma grows_expect k p : grows p (expect k p).
Proof.
  unfold expect. destruct (negb _).
  - eapply grows_trans; [apply grows_error|apply grows_advance].
  - apply grows_advance.
Qed.

Lemma steady_ret {A} (a : A) : steady (mret a).
Proof. intros p a' p' [= _ <-]. apply grows_refl. Qed.

Lemma steady_gets {A} (f : Parser → A) : steady (gets f).
Proof. intros p a' p' [= _ <-]. apply grows_refl. Qed.

Lemma steady_diverge {A} : steady (@diverge A).
Proof. intros p a p'. discriminate. Qed.

Lemma steady_lift f : (∀ p, grows p (f p)) → steady (lift f).
Proof. intros Hf p a p'. unfold lift. intros [= _ <-]. apply Hf. Qed.

Lemma steady_bind {A B} (m : M A) (f : A → M B) :
  steady m → (∀ a, steady (f a)) → steady (m ≫= f).
Proof.
  intros Hm Hf p b p'. rewrite parser_bind_eq.
  destruct (m p) as [[a p1]|] eqn:E; [|discriminate].
  intros Hr. eapply grows_trans; [by eapply Hm|by eapply Hf].
Qed.

Lemma steady_parseName : steady parseName.
Proof.
  intros p a p'. unfold parseName. intros [= _ <-].
  destruct (negb _); [apply grows_error|apply grows_refl].
Qed.

Lemma steady_while_loop {A} fuel cond (body : A → M (bool * A)) acc :
  (∀ acc, steady (body acc)) → steady (while_loop fuel cond body acc).
Proof.
  intros Hbody. revert acc. induction fuel as [|fuel IH]; intros acc p a p';
    simpl.
  - destruct (cond p); [discriminate|]. intros [= _ <-]. apply grows_refl.
  - destruct (cond p); [|intros [= _ <-]; apply grows_refl].
    destruct (body acc p) as [[[[] acc'] p1]|] eqn:E; [| |discriminate].
    + intros Hr. eapply grows_trans; [by eapply Hbody|by eapply IH].
    + intros [= _ <-]. by eapply Hbody.
Qed.

Lemma steady_do_while {A} fuel (body : A → M (bool * A)) cond acc :
  (∀ acc, steady (body acc)) → steady (do_while fuel body cond acc).
Proof.
  intros Hbody. unfold do_while. apply steady_bind; [apply Hbody|].
  intros [[] acc']; [by apply steady_while_loop|apply steady_ret].
Qed.

Ltac steady_step self Hself :=
  lazymatch goal with
  | |- steady (mret _) => apply steady_ret
  | |- steady (gets _) => apply steady_gets
  | |- steady diverge => apply steady_diverge
  | |- steady (lift advance) => apply steady_lift, grows_advance
  | |- steady (lift advanceOnNewLine) =>
      apply steady_lift, grows_advanceOnNewLine
  | |- steady (lift (expect _)) => apply steady_lift, grows_expect
  | |- steady (lift (error _ _)) => apply steady_lift, grows_error
  | |- steady parseName => apply steady_parseName
  | |- steady parseInteger => apply parseInteger_steady
  | |- steady parseDecimal => apply parseDecimal_steady
  | |- steady parseNone => apply parseNone_steady
  | |- steady (parseString _ _) => apply parseString_steady
  | |- steady parseBool => apply parseBool_steady
  | |- steady parseList => apply parseList_steady
  | |- steady parseDict => apply parseDict_steady
  | |- steady parseCpp => apply parseCpp_steady
  | |- steady (self_parseExpression self _) => apply Hself
  | |- steady (self_parseStatement self) => apply Hself
  | |- steady (self_parseBlockStatement self) => apply Hself
  | |- steady (while_loop _ _ _ _) => apply steady_while_loop; intros ?
  | |- steady (do_while _ _ _ _) => apply steady_do_while; intros ?
  | |- steady (_ ≫= _) => apply steady_bind; [|intros ?]
  | |- steady (if ?b then _ else _) => destruct b
  | |- steady (match ?x with _ => _ end) => destruct x
  end.

Lemma steady_parseExpression_ fuel self prec :
  self_steady self → steady (parseExpression_ fuel self prec).
Proof.
  intros Hself.
  unfold parseExpression_, parsePrefix, parseInfix, parseGroupedExpr,
    parsePrefixExpression, parseFunctionCall, parseListOrDictAccess,
    parseDotExpression, parseBinaryOperation.
  solve [repeat steady_step self Hself].
Qed.

Lemma steady_parseBlockStatement_ fuel self :
  self_steady self → steady (parseBlockStatement_ fuel self).
Proof.
  intros Hself. unfold parseBlockStatement_.
  solve [repeat steady_step self Hself].
Qed.

Lemma steady_parseStatement_ fuel self :
  self_steady self → steady (parseStatement_ fuel self).
Proof.
  intros Hself.
  unfold parseStatement_, parseConstDeclaration, parseDecoratorCall, parseIf,
    parseWhile, parseFor, parseImport, parseFunctionDef, parseMatch,
    parseReturn, parseScope, parseTypeDef, parseVariableStatement,
    parseLamda, parseUntilColon, parseAlias, parseOptionalType.
  solve [repeat steady_step self Hself].
Qed.

Lemma parser_at_steady fuel : self_steady (parser_at fuel).
Proof.
  induction fuel as [|fuel IH]; simpl.
  - split; [|split]; [apply steady_diverge|apply steady_diverge|].
    intros prec. apply steady_diverge.
  - split; [|split].
    + by apply steady_parseStatement_.
    + by apply steady_parseBlockStatement_.
    + intros prec. by apply steady_parseExpression_.
Qed.

(** A statement, a block or an expression that the parser has parsed left
    the token vector and the file name as they were, did not move the
    cursor backwards, and kept every error that was recorded before, in
    order, in front of the ones that it added. *)
Theorem parser_only_moves_forward (fuel : nat) (prec : PrecedenceType)
    (p p' : Parser) (node : AstNode) :
  parseStatement fuel p = Some (node, p')
  ∨ parseBlockStatement fuel p = Some (node, p')
  ∨ parseExpression fuel prec p = Some (node, p') →
  m_tokens p' = m_tokens p
  ∧ m_filename p' = m_filename p
  ∧ (m_tokIndex p ≤ m_tokIndex p')%nat
  ∧ ∃ added, m_errors p' = m_errors p ++ added.
Proof.
  destruct (parser_at_steady fuel) as (Hs & Hb & He).
  intros [Hr|[Hr|Hr]]; [apply Hs in Hr|apply Hb in Hr|apply He in Hr];
    exact Hr.
Qed.

Lemma steady_parse_statements fuel : steady (parse_statements fuel).
Proof.
  destruct (parser_at_steady fuel) as (Hs & _).
  unfold parse_statements. apply steady_while_loop. intros acc.
  apply steady_bind; [exact Hs|intros stmt].
  apply steady_bind; [apply steady_lift, grows_advance|intros _].
  apply steady_ret.
Qed.

(** [Parser::parse] hands out a tree only when no error at all is on
    record when its loop has ended: none from before the call and none that
    the parse recorded itself.  Otherwise it ends in [exit(1)] after showing
    every error on record, those from before the call first, then the ones
    that the parse recorded. *)
Theorem parse_shows_every_error (fuel : nat) (p : Parser) (out : Outcome) :
  parse fuel p = Some out →
  ∃ statements p' added,
    parse_statements fuel p = Some (statements, p')
    ∧ m_errors p' = m_errors p ++ added
    ∧ match out with
      | Returned ast =>
          ast = Program statements ∧ m_errors p = [] ∧ added = []
      | Exited status displayed =>
          status = 1%Z ∧ displayed = m_errors p ++ added ∧ displayed ≠ []
      end.
Proof.
  unfold parse.
  destruct (parse_statements fuel p) as [[statements p']|] eqn:Hr;
    [|discriminate].
  intros [= <-].
  destruct (steady_parse_statements _ _ _ _ Hr) as (_ & _ & _ & [added Hadd]).
  exists statements, p', added. split; [done|]. split; [done|].
  unfold parse_finish. case_bool_decide as Herr.
  - rewrite Herr in Hadd. symmetry in Hadd.
    apply app_eq_nil in Hadd as [-> ->]. by repeat split.
  - rewrite <- Hadd. by repeat split.
Qed.

End WithExternals.

(** The literal parsers of [example_externals] leave the parser as it is. *)
Lemma example_externals_steady : @ExternalsSteady example_externals.
Proof.
  split; unfold steady; intros; cbn in *;
    match goal with E : Some _ = Some _ |- _ => injection E as _ <- end;
    apply grows_refl.
Qed.

Lemma parser_only_moves_forward_witness :
  m_tokens (error (example_token tk_r_paren ")") ") is not an expression"
                  parser_stray) = m_tokens parser_stray
  ∧ m_filename (error (example_token tk_r_paren ")")
                      ") is not an expression" parser_stray)
    = m_filename parser_stray
  ∧ (m_tokIndex parser_stray
     ≤ m_tokIndex (error (example_token tk_r_paren ")")
                         ") is not an expression" parser_stray))%nat
  ∧ ∃ added,
      m_errors (error (example_token tk_r_paren ")") ") is not an expression"
                      parser_stray)
      = m_errors parser_stray ++ added.
Proof.
  apply (parser_only_moves_forward (H := example_externals)
           (H0 := example_externals_steady) 2 pr_lowest parser_stray _
           nullptr).
  left. vm_compute. reflexivity.
Defined.

Lemma parse_shows_every_error_witness :
  ∃ statements p' added,
    parse_statements (H := example_externals) 3 parser_stray
    = Some (statements, p')
    ∧ m_errors p' = m_errors parser_stray ++ added
    ∧ 1%Z = 1%Z
    ∧ [mkPEError (mkLocation 1 0 "a.pg" "") ") is not an expression" "" "" ""]
      = m_errors parser_stray ++ added
    ∧ [mkPEError (mkLocation 1 0 "a.pg" "") ") is not an expression" "" "" ""]
      ≠ [].
Proof.
  apply (parse_shows_every_error (H := example_externals)
           (H0 := example_externals_steady) 3 parser_stray
           (Exited 1 [mkPEError (mkLocation 1 0 "a.pg" "")
                                ") is not an expression" "" "" ""])).
  vm_compute. reflexivity.
Defined.

End ParseSteady.

(** ** The code generator *)

Module GlobalNameFacts.
Import Codegen.

Lemma global_name_app (a b : string) :
  global_name (a +:+ b) = global_name a +:+ global_name b.
Proof.
  induction a as [|c a IH]; [done|]. simpl.
  change (String c a +:+ b) with (String c (a +:+ b)). cbn [global_name].
  rewrite IH. by destruct (_ || _).
Qed.

Lemma global_name_clean (name : string) :
  (∀ c, In c (list_ascii_of_string name) → separator c = false) →
  global_name name = name.
Proof.
  induction name as [|c name IH]; [done|]. simpl. intros Hc.
  pose proof (Hc c (or_introl eq_refl)) as Hsep. unfold separator in Hsep.
  rewrite Hsep. f_equal. apply IH. intros c' Hin. apply Hc. by right.
Qed.

Lemma global_name_no_separator (name : string) (c : ascii) :
  In c (list_ascii_of_string (global_name name)) → separator c = false.
Proof.
  induction name as [|d name IH]; simpl; [done|].
  destruct (Ascii.eqb d "\" || Ascii.eqb d "/" || Ascii.eqb d ".") eqn:E.
  - simpl. intros [<-|[<-|[<-|[<-|Hin]]]]; try done. by apply IH.
  - simpl. intros [<-|Hin]; [done|by apply IH].
Qed.

(** The mangled file name holds no backslash, slash or dot, and mangling it
    again changes nothing. *)
Theorem global_name_has_no_separator (name : string) :
  (∀ c, In c (list_ascii_of_string (global_name name)) →
        c ≠ "\"%char ∧ c ≠ "/"%char ∧ c ≠ "."%char)
  ∧ global_name (global_name name) = global_name name.
Proof.
  split.
  - intros c Hin%global_name_no_separator.
    repeat split; intros ->; discriminate.
  - apply global_name_clean. intros c. apply global_name_no_separator.
Qed.

(** [global_name] works character by character: the mangling of a path is
    the mangling of its parts put together, a name without separators is
    its own mangling, and the three separators are not told apart, so
    [a/b], [a.b] and [a\b] share one mangled name. *)
Theorem global_name_by_parts (a b : string) :
  global_name (a +:+ b) = global_name a +:+ global_name b
  ∧ global_name (a +:+ "/" +:+ b) = global_name a +:+ "____" +:+ global_name b
  ∧ global_name (a +:+ "." +:+ b) = global_name (a +:+ "/" +:+ b)
  ∧ global_name (a +:+ "\" +:+ b) = global_name (a +:+ "/" +:+ b).
Proof.
  split; [apply global_name_app|]. by rewrite !global_name_app.
Qed.

End GlobalNameFacts.

Module CodegenMore.
Import SymbolTable Codegen MangleFacts CodegenFacts.

Section Streams.
Context `{UtilsAppend}.

(** Whatever the generator visits, the text that it has written stays: the
    visit adds text at the end of the stream that it was writing to, and
    changes neither the stream in use nor the file name nor the unit
    name. *)
Theorem visit_keeps_the_written_text (node : AstNode) (st st' : Codegen) :
  ok st → exec (visit node) st = Some st' →
  ok st'
  ∧ (∃ text, sink st' = sink st +:+ text)
  ∧ save st' = save st
  ∧ m_filename st' = m_filename st
  ∧ m_global_name st' = m_global_name st.
Proof.
  intros Hok Hr%exec_inv.
  destruct (visit_appends node _ _ _ Hok Hr) as (Hok' & Hs & Hn & Hg & Hd & _).
  by repeat split.
Qed.

(** The text of a translation unit begins with the includes and the
    definition of [error] that the constructor writes, and the visit leaves
    nothing behind in the accumulator of the decorators. *)
Theorem codegen_begins_with_the_prologue (filename : string) (ast : AstNode)
    (text : string) :
  codegen filename ast = Some text →
  (∃ body, text = prologue +:+ body)
  ∧ ∃ st', exec (visit ast) (Codegen_new filename) = Some st'
           ∧ m_file st' = text ∧ res st' = "" ∧ save st' = false.
Proof.
  unfold codegen. destruct (visit ast (Codegen_new filename)) as [[[] st']|] eqn:Hr;
    [|discriminate].
  intros [= <-].
  destruct (visit_appends ast _ _ _ (eq_refl : ok (Codegen_new filename)) Hr)
    as (Hok' & Hs & _ & _ & [d Hd] & _).
  change (save (Codegen_new filename)) with false in Hs.
  unfold sink in Hd. rewrite Hs in Hd. unfold ok in Hok'. rewrite Hs in Hok'.
  split; [by exists d|]. exists st'. split; [by apply exec_intro|done].
Qed.

End Streams.

Section Names.
Context `{Utils}.

Lemma write_to_flags s st :
  m_symbolMap (write_to s st) = m_symbolMap st
  ∧ is_ref (write_to s st) = is_ref st
  ∧ curr_enum_name (write_to s st) = curr_enum_name st
  ∧ is_define (write_to s st) = is_define st
  ∧ local (write_to s st) = local st.
Proof. unfold write_to. by destruct (save st). Qed.

Lemma contains_set_local x m : contains (set_local x m) x = true.
Proof.
  apply contains_spec. right. left. simpl. rewrite lookup_insert_eq. eauto.
Qed.

Lemma contains_set_global x g m : contains (set_global x g m) x = true.
Proof.
  apply contains_spec. right. right. simpl. rewrite lookup_insert_eq. eauto.
Qed.

(** The first use of a name binds it and writes its mangled form; the next
    use finds it, leaves the symbol map alone and writes the same text. *)
Theorem identifier_reads_what_it_bound (tok : Token) (x : string)
    (st : Codegen) :
  is_ref st = false → curr_enum_name st = "" → is_define st = false →
  ∃ st1 st2,
    exec (visit (IdentifierExpression tok x)) st = Some st1
    ∧ exec (visit (IdentifierExpression tok x)) st1 = Some st2
    ∧ contains (m_symbolMap st1) x = true
    ∧ m_symbolMap st2 = m_symbolMap st1
    ∧ sink st1 = sink st +:+ lookup (m_symbolMap st1) x
    ∧ sink st2 = sink st1 +:+ lookup (m_symbolMap st1) x.
Proof.
  intros Href Henum Hdef. cbn [visit].
  assert (Hsecond : ∀ s, is_ref s = false → curr_enum_name s = "" →
    is_define s = false → contains (m_symbolMap s) x = true →
    visit_IdentifierExpression x s
    = Some (tt, write_to (lookup (m_symbolMap s) x) s)).
  { intros s Hr He Hd Hc. unfold visit_IdentifierExpression.
    by rewrite Hr, He, Hc, Hd. }
  assert (Hfirst : ∃ s, visit_IdentifierExpression x st
                        = Some (tt, write_to (lookup (m_symbolMap s) x) s)
                        ∧ is_ref s = false ∧ curr_enum_name s = ""
                        ∧ is_define s = false
                        ∧ contains (m_symbolMap s) x = true
                        ∧ sink s = sink st).
  { unfold visit_IdentifierExpression. rewrite Href, Henum, Hdef. simpl.
    destruct (contains (m_symbolMap st) x) eqn:Hc; simpl.
    - by exists st.
    - destruct (local st).
      + eexists. split; [reflexivity|]. simpl.
        repeat split; try done. apply contains_set_local.
      + eexists. split; [reflexivity|]. simpl.
        repeat split; try done. apply contains_set_global. }
  destruct Hfirst as (s & Hrun & Hr & He & Hd & Hc & Hs).
  destruct (write_to_flags (lookup (m_symbolMap s) x) s)
    as (Hm1 & Hr1 & He1 & Hd1 & _).
  exists (write_to (lookup (m_symbolMap s) x) s),
         (write_to (lookup (m_symbolMap s) x)
                   (write_to (lookup (m_symbolMap s) x) s)).
  unfold exec. rewrite Hrun.
  rewrite (Hsecond (write_to (lookup (m_symbolMap s) x) s));
    [|congruence|congruence|congruence|by rewrite Hm1].
  rewrite !Hm1. repeat split; try done.
  - by rewrite !m_symbolMap_write_to.
  - by rewrite sink_write_to, Hs.
  - by rewrite sink_write_to.
Qed.

(** At the top level, a name that is used before it is defined is written
    under two names: the use binds it in the global map with the prefix of
    the unit, the definition finds it there and binds it again in the local
    map, without the unit; every later use reads the local name. *)
Theorem definition_after_use_renames (tok : Token) (x : string)
    (st : Codegen) :
  is_ref st = false → curr_enum_name st = "" → is_define st = false →
  local st = false → contains (m_symbolMap st) x = false →
  ∃ st1 st2,
    exec (visit (IdentifierExpression tok x)) st = Some st1
    ∧ sink st1 = sink st +:+ "____PEREGRINE____PEREGRINE____"
                 +:+ m_global_name st +:+ x
    ∧ exec (visit (IdentifierExpression tok x)) (with_is_define true st1)
      = Some st2
    ∧ sink st2 = sink st1 +:+ "____PEREGRINE____PEREGRINE____" +:+ x
    ∧ lookup (m_symbolMap st2) x = "____PEREGRINE____PEREGRINE____" +:+ x.
Proof.
  intros Href Henum Hdef Hlocal Hc. cbn [visit].
  pose proof (contains_false _ _ Hc) as (Hres & Hl & Hg).
  set (g := "____PEREGRINE____PEREGRINE____" +:+ m_global_name st +:+ x).
  set (s1 := with_m_symbolMap (set_global x g (m_symbolMap st)) st).
  assert (H1 : visit_IdentifierExpression x st = Some (tt, write_to g s1)).
  { unfold visit_IdentifierExpression. rewrite Href, Henum, Hc, Hlocal. simpl.
    unfold write, lift. do 3 f_equal.
    by apply lookup_set_global_fresh. }
  set (st1 := write_to g s1).
  set (s2 := with_m_symbolMap (set_local x (m_symbolMap st1))
                              (with_is_define true st1)).
  assert (H2 : visit_IdentifierExpression x (with_is_define true st1)
               = Some (tt, write_to (local_prefix +:+ x) s2)).
  { destruct (write_to_flags g s1) as (Hm & Hr & He & _).
    assert (F1 : is_ref (with_is_define true st1) = false)
      by (change (is_ref st1 = false); unfold st1; by rewrite Hr).
    assert (F2 : curr_enum_name (with_is_define true st1) = "")
      by (change (curr_enum_name st1 = ""); unfold st1; by rewrite He).
    assert (F3 : contains (m_symbolMap (with_is_define true st1)) x = true).
    { change (contains (m_symbolMap st1) x = true). unfold st1.
      rewrite Hm. apply contains_set_global. }
    unfold visit_IdentifierExpression. rewrite F1, F2, F3. simpl.
    unfold write, lift. do 3 f_equal.
    by apply lookup_set_local_fresh. }
  exists st1, (write_to (local_prefix +:+ x) s2).
  unfold exec. rewrite H1, H2. repeat split.
  - unfold st1. by rewrite sink_write_to.
  - by rewrite sink_write_to.
  - rewrite m_symbolMap_write_to. by apply lookup_set_local_fresh.
Qed.

End Names.

Section Sequences.
Context `{Utils}.

Lemma for_each_app {A} (body : A → M unit) (l1 l2 : list A) st :
  for_each body (l1 ++ l2) st = (for_each body l1;; for_each body l2) st.
Proof.
  revert st. induction l1 as [|x l1 IH]; intros st; simpl.
  - reflexivity.
  - rewrite !bind_eq. destruct (body x st) as [[[] st1]|]; [|done].
    by rewrite IH.
Qed.

(** The statements of a program are translated one after the other, each
    followed by a semicolon and a line feed: translating a program is
    translating its first part and then, from the state that this leaves,
    the rest.  The same holds for the statements of a block. *)
Theorem program_is_translated_in_order (l1 l2 : list AstNode) (st : Codegen) :
  exec (visit (Program (l1 ++ l2))) st
  = exec (visit (Program l1)) st ≫= exec (visit (Program l2))
  ∧ exec (visit (BlockStatement (l1 ++ l2))) st
    = exec (visit (BlockStatement l1)) st ≫= exec (visit (BlockStatement l2))
  ∧ ∀ stmt, exec (visit (Program [stmt])) st
            = exec (visit stmt) st ≫= λ st1, Some (write_to (";" +:+ nl) st1).
Proof.
  split; [|split].
  - unfold exec. cbn [visit]. rewrite for_each_app, bind_eq.
    by destruct (for_each _ l1 st) as [[[] st1]|].
  - unfold exec. cbn [visit]. rewrite for_each_app, bind_eq.
    by destruct (for_each _ l1 st) as [[[] st1]|].
  - intros stmt. unfold exec. cbn [visit for_each]. rewrite !bind_eq.
    by destruct (visit stmt st) as [[[] st1]|].
Qed.

Lemma for_index2_short {A B} (body : nat → A → B → M unit) :
  ∀ (v : list A) (w : list B) i st,
    (length w < length v)%nat → for_index2 body i v w st = None.
Proof.
  induction v as [|x v IH]; intros w i st Hlen; simpl in *; [lia|].
  destruct w as [|y w]; [done|]. simpl in Hlen. rewrite bind_eq.
  destruct (body i x y st) as [[[] st1]|]; [|done]. apply IH. lia.
Qed.

(** A with-statement reads [variables[i]] for every value: with fewer
    variables than values the read is out of range, and the visit is
    undefined whatever the state. *)
Theorem with_statement_needs_a_variable_for_each_value
    (tok : Token) (variables values : list AstNode) (body : AstNode)
    (st : Codegen) :
  (length variables < length values)%nat →
  visit (WithStatement tok variables values body) st = None.
Proof.
  intros Hlen. cbn [visit]. rewrite bind_eq. simpl.
  rewrite bind_eq, for_index2_short; [done|].
  by rewrite !length_map.
Qed.

End Sequences.

Section MainAndDecorators.
Context `{UtilsAppend}.

Ltac through_setters :=
  repeat first
    [ rewrite sink_write_to
    | progress change (sink (with_is_func_def ?b ?s)) with (sink s)
    | progress change (sink (with_m_symbolMap ?m ?s)) with (sink s)
    | progress change (sink (with_local ?b ?s)) with (sink s) ].


(** The generator emits a decorated statement only when it is a function
    (or a static function): over any other body the decorators wrap the
    empty text, and nothing of the body is written. *)
Theorem decorators_drop_a_body_that_is_no_function
    (tok : Token) (items : list AstNode) (body : AstNode)
    (wrap_text : AstNode → string → string) (st st' : Codegen) :
  ok st →
  match body with
  | FunctionDefinition _ _ _ _ _ | StaticStatement _ _ => False
  | _ => True
  end →
  (∀ item c s, item ∈ items → wrap item c s = Some (wrap_text item c, s)) →
  exec (visit (DecoratorStatement tok items body)) st = Some st' →
  sink st' = sink st +:+ fold_right wrap_text "" items.
Proof.
  intros Hok Hbody Hwrap Hr%exec_inv. cbn [visit] in Hr.
  apply bind_inv in Hr as ([] & s1 & [= <-] & Hr).
  apply bind_inv in Hr as (res0 & s1 & [= <- <-] & Hr).
  apply bind_inv in Hr as (prev & s2 & Hprev & Hr).
  apply bind_inv in Hr as ([x contains] & s3 & Hlam & Hr).
  assert (Hx : x = "" ∧ contains = "" ∧ s3 = s2)
    by (destruct body; try contradiction; by injection Hlam as <- <- <-).
  destruct Hx as (-> & -> & ->).
  apply bind_inv in Hr as (wrapped & s4 & Hfold & Hr).
  rewrite (wrap_all_fold wrap_text items Hwrap) in Hfold by done.
  rewrite firstn_all in Hfold. injection Hfold as <- <-.
  change (res (with_save true st)) with (res st) in Hprev.
  rewrite append_nil_l in Hr.
  destruct (String.eqb_spec (res st) "") as [Hres|Hres]; simpl in Hprev;
    injection Hprev as <- <-.
  - simpl in Hr. apply bind_inv in Hr as ([] & s5 & [= <-] & [= <-]).
    unfold sink, write_to. simpl. by rewrite (ok_save_false st Hok Hres).
  - rewrite (proj2 (String.eqb_neq _ _) Hres) in Hr. injection Hr as <-.
    unfold sink, write_to. simpl. rewrite (ok_save_true st Hok Hres).
    by rewrite append_nil_l.
Qed.

End MainAndDecorators.
Lemma visit_keeps_the_written_text_witness :
  ok (run example_function (Codegen_new "a.pg"))
  ∧ (∃ text, sink (run example_function (Codegen_new "a.pg"))
             = sink (Codegen_new "a.pg") +:+ text)
  ∧ save (run example_function (Codegen_new "a.pg"))
    = save (Codegen_new "a.pg")
  ∧ m_filename (run example_function (Codegen_new "a.pg"))
    = m_filename (Codegen_new "a.pg")
  ∧ m_global_name (run example_function (Codegen_new "a.pg"))
    = m_global_name (Codegen_new "a.pg").
Proof.
  apply (visit_keeps_the_written_text (H := example_utils)
           (H0 := example_utils_append) example_function).
  - reflexivity.
  - vm_compute. reflexivity.
Defined.

Lemma codegen_begins_with_the_prologue_witness :
  (∃ body, m_file (run example_function (Codegen_new "a.pg"))
           = prologue +:+ body)
  ∧ ∃ st', exec (visit (H := example_utils) example_function)
                (Codegen_new "a.pg") = Some st'
           ∧ m_file st' = m_file (run example_function (Codegen_new "a.pg"))
           ∧ res st' = "" ∧ save st' = false.
Proof.
  apply (codegen_begins_with_the_prologue (H := example_utils)
           (H0 := example_utils_append) "a.pg" example_function).
  vm_compute. reflexivity.
Defined.

Lemma identifier_reads_what_it_bound_witness :
  ∃ st1 st2,
    exec (visit (H := example_utils) (example_name "x")) (Codegen_new "a.pg")
    = Some st1
    ∧ exec (visit (H := example_utils) (example_name "x")) st1 = Some st2
    ∧ contains (m_symbolMap st1) "x" = true
    ∧ m_symbolMap st2 = m_symbolMap st1
    ∧ sink st1 = sink (Codegen_new "a.pg") +:+ lookup (m_symbolMap st1) "x"
    ∧ sink st2 = sink st1 +:+ lookup (m_symbolMap st1) "x".
Proof.
  apply (identifier_reads_what_it_bound (H := example_utils)
           (example_tok "x") "x" (Codegen_new "a.pg")); reflexivity.
Defined.

Lemma definition_after_use_renames_witness :
  ∃ st1 st2,
    exec (visit (H := example_utils) (example_name "f")) (Codegen_new "a.pg")
    = Some st1
    ∧ sink st1 = sink (Codegen_new "a.pg") +:+ "____PEREGRINE____PEREGRINE____"
                 +:+ m_global_name (Codegen_new "a.pg") +:+ "f"
    ∧ exec (visit (H := example_utils) (example_name "f"))
           (with_is_define true st1) = Some st2
    ∧ sink st2 = sink st1 +:+ "____PEREGRINE____PEREGRINE____" +:+ "f"
    ∧ lookup (m_symbolMap st2) "f" = "____PEREGRINE____PEREGRINE____" +:+ "f".
Proof.
  apply (definition_after_use_renames (H := example_utils)
           (example_tok "f") "f" (Codegen_new "a.pg")); reflexivity.
Defined.

Lemma with_statement_witness :
  visit (H := example_utils)
        (WithStatement (example_tok "with") [] [example_name "m"]
                       (BlockStatement []))
        (Codegen_new "a.pg") = None.
Proof.
  apply (with_statement_needs_a_variable_for_each_value (H := example_utils)).
  simpl. lia.
Defined.


Lemma decorators_drop_witness :
  sink (run (DecoratorStatement (example_tok "@")
               [example_name "d0"; example_name "d1"]
               (PassStatement (example_tok "pass")))
            (Codegen_new "a.pg"))
  = sink (Codegen_new "a.pg")
    +:+ example_wrap_text (example_name "d0")
          (example_wrap_text (example_name "d1") "").
Proof.
  apply (decorators_drop_a_body_that_is_no_function (H := example_utils)
           (example_tok "@")
           [example_name "d0"; example_name "d1"]
           (PassStatement (example_tok "pass")) example_wrap_text
           (Codegen_new "a.pg")).
  - reflexivity.
  - exact I.
  - intros item c s Hin.
    apply elem_of_cons in Hin as [->|Hin]; [reflexivity|].
    apply elem_of_cons in Hin as [->|Hin]; [reflexivity|].
    by apply elem_of_nil in Hin.
  - vm_compute. reflexivity.
Defined.

End CodegenMore.

Module CodegenFlags.
Import SymbolTable Codegen MangleFacts CodegenFacts.

Lemma keeps_weaken r d {A} (m : M A) : keeps false false m → keeps r d m.
Proof.
  intros Hm st a st' Hr. destruct (Hm _ _ _ Hr) as (? & ? & Href & Hdot).
  repeat split; try done; intros _; auto.
Qed.

Lemma keeps_ret r d {A} (a : A) : keeps r d (mret a).
Proof. intros st a' st' [= _ <-]. by repeat split. Qed.

Lemma keeps_gets r d {A} (f : Codegen → A) : keeps r d (gets f).
Proof. intros st a' st' [= _ <-]. by repeat split. Qed.

Lemma keeps_undefined r d {A} : keeps r d (@undefined A).
Proof. intros st a st' [=]. Qed.

Lemma keeps_bind r d {A B} (m : M A) (f : A → M B) :
  keeps r d m → (∀ a, keeps r d (f a)) → keeps r d (m ≫= f).
Proof.
  intros Hm Hf st b st'. rewrite bind_eq.
  destruct (m st) as [[a st1]|] eqn:E; [|discriminate].
  intros Hb. destruct (Hm _ _ _ E) as (Hl1 & Hf1 & Hr1 & Hd1).
  destruct (Hf a _ _ _ Hb) as (Hl2 & Hf2 & Hr2 & Hd2).
  repeat split; try congruence.
  - intros Hr. rewrite Hr2, Hr1; done.
  - intros Hd. rewrite Hd2, Hd1; done.
Qed.

Lemma keeps_lift r d (f : Codegen → Codegen) :
  (∀ st, local (f st) = local st ∧ is_func_def (f st) = is_func_def st
         ∧ is_ref (f st) = is_ref st ∧ is_dot_exp (f st) = is_dot_exp st) →
  keeps r d (lift f).
Proof.
  intros Hf st a st'. unfold lift. intros [= _ <-].
  destruct (Hf st) as (? & ? & ? & ?). by repeat split.
Qed.

Lemma keeps_lift_ref d v : keeps true d (lift (with_is_ref v)).
Proof. intros st a st'. unfold lift. intros [= _ <-]. by repeat split. Qed.

Lemma keeps_lift_dot r v : keeps r true (lift (with_is_dot_exp v)).
Proof. intros st a st'. unfold lift. intros [= _ <-]. by repeat split. Qed.

Lemma write_to_frame s st :
  local (write_to s st) = local st
  ∧ is_func_def (write_to s st) = is_func_def st
  ∧ is_ref (write_to s st) = is_ref st
  ∧ is_dot_exp (write_to s st) = is_dot_exp st.
Proof. unfold write_to. by destruct (save st). Qed.

Lemma keeps_write r d s : keeps r d (write s).
Proof. apply keeps_lift. intros st. apply write_to_frame. Qed.

Lemma keeps_when r d b (m : M unit) : keeps r d m → keeps r d (when b m).
Proof. intros Hm. destruct b; [done|apply keeps_ret]. Qed.

Lemma keeps_local_mangle r d (m : M unit) :
  keeps r d m → keeps r d (local_mangle m).
Proof.
  intros Hm st a st'. unfold local_mangle.
  destruct (m (with_local true st)) as [[[] st1]|] eqn:E; [|discriminate].
  intros [= _ <-]. destruct (Hm _ _ _ E) as (_ & Hf & Hr & Hd).
  by repeat split.
Qed.

Lemma keeps_handle_ref r d (m : M unit) :
  keeps true d m → keeps r d (handle_ref m).
Proof.
  intros Hm st a st'. unfold handle_ref.
  destruct (m (with_is_ref false st)) as [[[] st1]|] eqn:E; [|discriminate].
  intros [= _ <-]. destruct (Hm _ _ _ E) as (Hl & Hf & _ & Hd).
  by repeat split.
Qed.

Lemma keeps_for_each r d {A} (body : A → M unit) (v : list A) :
  (∀ x, x ∈ v → keeps r d (body x)) → keeps r d (for_each body v).
Proof.
  induction v as [|x v IH]; intros Hb; simpl; [apply keeps_ret|].
  apply keeps_bind; [apply Hb; left|].
  intros _. apply IH. intros y Hy. apply Hb. by right.
Qed.

Lemma keeps_for_index r d {A} (body : nat → A → M unit) (v : list A) i :
  (∀ j x, x ∈ v → keeps r d (body j x)) → keeps r d (for_index body i v).
Proof.
  revert i. induction v as [|x v IH]; intros i Hb; simpl; [apply keeps_ret|].
  apply keeps_bind; [apply Hb; left|].
  intros _. apply IH. intros j y Hy. apply Hb. by right.
Qed.

Lemma keeps_for_index2 r d {A B} (body : nat → A → B → M unit) v w i :
  (∀ j x y, x ∈ v → y ∈ w → keeps r d (body j x y)) →
  keeps r d (for_index2 body i v w).
Proof.
  revert i w. induction v as [|x v IH]; intros i w Hb; simpl.
  { destruct w; apply keeps_ret. }
  destruct w as [|y w]; [apply keeps_undefined|].
  apply keeps_bind; [apply Hb; left|].
  intros _. apply IH. intros j x' y' Hx Hy. apply Hb; by right.
Qed.

(** [is_func_def] is set for the body of a function at the top level and
    cleared after it. *)
Lemma keeps_func_def_toplevel r d (X Y : M unit) :
  keeps r d X → keeps r d Y →
  keeps r d (gets is_func_def ≫= λ in_function : bool,
               if negb in_function
               then lift (with_is_func_def true) ≫= λ _,
                    X ≫= λ _, lift (with_is_func_def false)
               else Y).
Proof.
  intros HX HY st a st'. rewrite bind_eq. unfold gets at 1.
  destruct (is_func_def st) eqn:Hf; cbn [negb]; cbv iota.
  - intros Hr. destruct (HY _ _ _ Hr) as (? & ? & ? & ?).
    repeat split; auto; congruence.
  - rewrite bind_eq. unfold lift at 1. rewrite bind_eq.
    destruct (X (with_is_func_def true st)) as [[[] s]|] eqn:E;
      [|discriminate].
    unfold lift. intros [= _ <-].
    destruct (HX _ _ _ E) as (Hl & _ & Hr & Hd). by repeat split.
Qed.

Lemma keeps_func_def_bracket r d (m k : M unit) :
  keeps r d m → keeps r d k →
  keeps r d (gets is_func_def ≫= λ in_function : bool,
               (if negb in_function
                then lift (with_is_func_def true) ≫= λ _,
                     m ≫= λ _, lift (with_is_func_def false)
                else m) ≫= λ _, k).
Proof.
  intros Hm Hk.
  assert (Hrest : keeps r d
    (gets is_func_def ≫= λ in_function : bool,
       if negb in_function
       then lift (with_is_func_def true) ≫= λ _,
            m ≫= λ _, lift (with_is_func_def false)
       else m)) by (by apply keeps_func_def_toplevel).
  intros st a st' Hr.
  apply bind_inv in Hr as (b & s0 & [= <- <-] & Hr).
  apply bind_inv in Hr as ([] & s & E & Hr).
  assert (E' : (gets is_func_def ≫= λ in_function : bool,
       if negb in_function
       then lift (with_is_func_def true) ≫= λ _,
            m ≫= λ _, lift (with_is_func_def false)
       else m) st = Some (tt, s)) by (rewrite bind_eq; exact E).
  destruct (Hrest _ _ _ E') as (Hl1 & Hf1 & Hr1 & Hd1).
  destruct (Hk _ _ _ Hr) as (Hl2 & Hf2 & Hr2 & Hd2).
  repeat split; try congruence.
  - intros Hx. rewrite Hr2, Hr1; done.
  - intros Hx. rewrite Hd2, Hd1; done.
Qed.

Lemma ends_ref_lift x d : ends_ref x d (lift (with_is_ref x)).
Proof. intros st a st'. unfold lift. intros [= _ <-]. by repeat split. Qed.

Lemma ends_ref_bind x d {A B} (m : M A) (f : A → M B) :
  keeps true d m → (∀ a, ends_ref x d (f a)) → ends_ref x d (m ≫= f).
Proof.
  intros Hm Hf st b st'. rewrite bind_eq.
  destruct (m st) as [[a st1]|] eqn:E; [|discriminate].
  intros Hb. destruct (Hm _ _ _ E) as (Hl1 & Hf1 & _ & Hd1).
  destruct (Hf a _ _ _ Hb) as (Hl2 & Hf2 & Hr2 & Hd2).
  repeat split; try congruence. intros Hd. rewrite Hd2, Hd1; done.
Qed.

Lemma keeps_ref_bracket r d {A} (f : bool → M A) :
  (∀ x, ends_ref x d (f x)) → keeps r d (gets is_ref ≫= f).
Proof.
  intros Hf st a st'. rewrite bind_eq. unfold gets at 1. intros Hr.
  destruct (Hf _ _ _ _ Hr) as (? & ? & ? & ?). by repeat split.
Qed.

(** [is_dot_exp] is set inside the outermost dot expression and cleared at
    its end. *)
Lemma ends_ref_dot x (X Y : M unit) :
  keeps true true X → keeps true false Y →
  ends_ref x false
    (gets is_dot_exp ≫= λ in_dot : bool,
       (if negb in_dot
        then X ≫= λ _, lift (with_is_dot_exp false)
        else Y) ≫= λ _, lift (with_is_ref x)).
Proof.
  intros HX HY st a st'. rewrite bind_eq. unfold gets at 1. rewrite bind_eq.
  destruct (is_dot_exp st) eqn:Hdot; cbn [negb]; cbv iota.
  - destruct (Y st) as [[[] s]|] eqn:E; [|discriminate].
    unfold lift. intros [= _ <-]. destruct (HY _ _ _ E) as (? & ? & _ & Hd).
    repeat split; try done. simpl. intros _. by rewrite Hd.
  - rewrite bind_eq. destruct (X st) as [[[] s]|] eqn:E; [|discriminate].
    unfold lift. simpl. intros [= _ <-].
    destruct (HX _ _ _ E) as (? & ? & _ & _). by repeat split.
Qed.

Section WithUtils.
Context `{UtilsKeep}.

Lemma keeps_visit_IdentifierExpression x :
  keeps false false (visit_IdentifierExpression x).
Proof.
  intros st a st' Hr. unfold visit_IdentifierExpression in Hr.
  destruct (is_ref st) in Hr.
  { exact (keeps_write false false _ _ _ _ Hr). }
  destruct (negb (String.eqb _ _)).
  { exact (keeps_bind false false _ _ (keeps_write _ _ _)
             (λ _, keeps_write _ _ _) _ _ _ Hr). }
  cbv zeta in Hr. apply (keeps_write false false) in Hr.
  destruct (negb _) in Hr; [destruct (local st) in Hr|
                            destruct (is_define st) in Hr]; exact Hr.
Qed.

Lemma keeps_wrap_all items n contains :
  keeps false false (wrap_all items n contains).
Proof.
  revert contains. induction n as [|n IH]; intros contains; simpl.
  - apply keeps_ret.
  - destruct (items !! n); [|apply keeps_undefined].
    apply keeps_bind; [apply wrap_keeps|intros c; apply IH].
Qed.

Lemma keeps_codegenFuncParams r d v parameters start :
  (∀ p, p ∈ parameters →
        keeps r d (v (p_type p)) ∧ keeps r d (v (p_name p))
        ∧ keeps r d (v (p_default p))) →
  keeps r d (codegenFuncParams v parameters start).
Proof.
  intros Hp. unfold codegenFuncParams. apply keeps_for_index.
  intros j p Hin. apply list_elem_of_lookup in Hin as [i Hi].
  rewrite lookup_drop in Hi. apply list_elem_of_lookup_2 in Hi.
  destruct (Hp _ Hi) as (Ht & Hn & Hd).
  apply keeps_bind; [apply keeps_when, keeps_write|intros _].
  apply keeps_bind; [destruct (is_NoLiteral _); [apply keeps_write|done]|].
  intros _. apply keeps_bind; [apply keeps_write|intros _].
  apply keeps_bind; [by apply keeps_lift|intros _].
  apply keeps_bind; [done|intros _].
  apply keeps_bind; [by apply keeps_lift|intros _].
  apply keeps_when. apply keeps_bind; [apply keeps_write|done].
Qed.

Ltac elem_facts :=
  repeat match goal with
  | Hx : ?x ∈ TurpleTypes ?l |- _ =>
      lazymatch goal with
      | _ : (size x < size l)%nat |- _ => fail
      | _ => pose proof (TurpleTypes_size l x Hx)
      end
  | Hx : ?x ∈ TurpleExpression ?l |- _ =>
      lazymatch goal with
      | _ : (size x < size l)%nat |- _ => fail
      | _ => pose proof (TurpleExpression_size l x Hx)
      end
  | Hx : ?x ∈ ?l, Hsz : context [list_sum (map ?f ?l)] |- _ =>
      lazymatch goal with
      | _ : (f x ≤ list_sum (map f l))%nat |- _ => fail
      | _ => pose proof (elem_sum_le f l x Hx)
      end
  end.

Ltac smaller IH :=
  apply keeps_weaken, IH; cbn [size] in *; elem_facts; cbv beta in *;
  elem_facts;
  cbv beta in *; cbn [list_sum fold_right map fst snd size] in *; lia.

Ltac keeps_step IH :=
  lazymatch goal with
  | |- keeps _ _ (visit _) => smaller IH
  | |- keeps _ _ (mret _) => apply keeps_ret
  | |- keeps _ _ (gets is_ref ≫= _) => apply keeps_ref_bracket; intros ?
  | |- keeps _ _ (gets is_func_def ≫= _) =>
      first [ apply keeps_func_def_toplevel
            | apply keeps_func_def_bracket
            | apply keeps_bind; [|intros ?] ]
  | |- keeps _ _ (gets _) => apply keeps_gets
  | |- keeps _ _ undefined => apply keeps_undefined
  | |- keeps _ _ (write _) => apply keeps_write
  | |- keeps _ _ (lift (with_is_ref _)) => apply keeps_lift_ref
  | |- keeps _ _ (lift (with_is_dot_exp _)) => apply keeps_lift_dot
  | |- keeps _ _ (lift _) => apply keeps_lift; intros ?; by repeat split
  | |- keeps _ _ (visit_IdentifierExpression _) =>
      apply keeps_weaken, keeps_visit_IdentifierExpression
  | |- keeps _ _ (matchArg _ _) => apply keeps_weaken, matchArg_keeps
  | |- keeps _ _ (magic_methord _ _) => apply keeps_weaken, magic_methord_keeps
  | |- keeps _ _ (visit_TypeTuple _ _) =>
      apply keeps_weaken, visit_TypeTuple_keeps
  | |- keeps _ _ (visit_ExpressionTuple _ _) =>
      apply keeps_weaken, visit_ExpressionTuple_keeps
  | |- keeps _ _ (wrap_all _ _ _) => apply keeps_weaken, keeps_wrap_all
  | |- keeps _ _ (when _ _) => apply keeps_when
  | |- keeps _ _ (local_mangle _) => apply keeps_local_mangle
  | |- keeps _ _ (handle_ref _) => apply keeps_handle_ref
  | |- keeps _ _ (for_each _ _) => apply keeps_for_each; intros ? ?
  | |- keeps _ _ (for_index _ _ _) => apply keeps_for_index; intros ? ? ?
  | |- keeps _ _ (for_index2 _ _ _ _) =>
      apply keeps_for_index2;
      intros ? ? ? [? [-> ?]]%elem_of_map [? [-> ?]]%elem_of_map;
      cbn [fst snd]
  | |- keeps _ _ (codegenFuncParams _ _ _) =>
      apply keeps_codegenFuncParams; intros ? ?; (split; [|split])
  | |- keeps _ _ (codegenReturnParams _ _) => unfold codegenReturnParams
  | |- keeps _ _ (codegenReturnParamsDecorator _ _) =>
      unfold codegenReturnParamsDecorator
  | |- keeps _ _ (over_tuple_types _ _) => rewrite over_tuple_types_eq
  | |- keeps _ _ (over_tuple_values _ _) => rewrite over_tuple_values_eq
  | |- keeps _ _ (codegenCase _ _ _ _) => unfold codegenCase
  | |- keeps _ _ (codegenExceptClause _ _) => unfold codegenExceptClause
  | |- keeps _ _ (codegenClassMembers _ _ _ _) => unfold codegenClassMembers
  | |- keeps _ _ (codegenDecorated _ _ _ _ _) => unfold codegenDecorated
  | |- keeps _ _ (_ ≫= _) => apply keeps_bind; [|intros ?]
  | |- keeps _ _ (if ?b then _ else _) => destruct b
  | |- keeps _ _ (match ?x with _ => _ end) => destruct x
  | |- ends_ref _ _ (lift (with_is_ref _)) => apply ends_ref_lift
  | |- ends_ref _ _ (gets is_dot_exp ≫= _) => apply ends_ref_dot
  | |- ends_ref _ _ (_ ≫= _) => apply ends_ref_bind; [|intros ?]
  end.

Lemma visit_keeps_below n :
  ∀ node, (size node < n)%nat → keeps false false (visit node).
Proof.
  induction n as [|n IH]; intros node Hsz; [lia|].
  destruct node; cbn [visit]; cbv zeta; simpl in Hsz.
  all: solve [repeat keeps_step IH].
Qed.

(** A visit leaves the four flags that the generator toggles around a part
    of the tree as it found them: [local] (inside a local scope),
    [is_func_def] (inside a function), [is_ref] (a name is written as a
    reference) and [is_dot_exp] (inside a dot expression). *)
Theorem visit_hands_back_the_flags (node : AstNode) (st st' : Codegen) :
  exec (visit node) st = Some st' →
  local st' = local st
  ∧ is_func_def st' = is_func_def st
  ∧ is_ref st' = is_ref st
  ∧ is_dot_exp st' = is_dot_exp st.
Proof.
  intros Hr%exec_inv.
  destruct (visit_keeps_below (S (size node)) node (Nat.lt_succ_diag_r _)
              _ _ _ Hr) as (Hl & Hf & Href & Hdot).
  repeat split; auto.
Qed.

End WithUtils.

(** The helpers of [example_utils] leave the state as it is. *)
Lemma example_utils_keep : @UtilsKeep example_utils.
Proof.
  split; try (intros; apply keeps_ret).
  intros item contains st contains' st'. cbn [wrap example_utils].
  destruct (wrap_call item contains); [|discriminate].
  intros [= _ <-]. by repeat split.
Qed.

Lemma visit_hands_back_the_flags_witness :
  local (run example_function (with_is_ref true (Codegen_new "a.pg")))
  = local (with_is_ref true (Codegen_new "a.pg"))
  ∧ is_func_def (run example_function (with_is_ref true (Codegen_new "a.pg")))
    = is_func_def (with_is_ref true (Codegen_new "a.pg"))
  ∧ is_ref (run example_function (with_is_ref true (Codegen_new "a.pg")))
    = is_ref (with_is_ref true (Codegen_new "a.pg"))
  ∧ is_dot_exp (run example_function (with_is_ref true (Codegen_new "a.pg")))
    = is_dot_exp (with_is_ref true (Codegen_new "a.pg")).
Proof.
  apply (visit_hands_back_the_flags (H := example_utils)
           (H0 := example_utils_keep) example_function).
  vm_compute. reflexivity.
Defined.
End CodegenFlags.

Module CodegenText.
Import SymbolTable Codegen MangleFacts CodegenFacts CodegenMore.

Lemma keeps_names_refl m : keeps_names m m.
Proof. by intros x Hx. Qed.

Lemma keeps_names_trans m1 m2 m3 :
  keeps_names m1 m2 → keeps_names m2 m3 → keeps_names m1 m3.
Proof.
  intros H12 H23 x Hx. destruct (H12 x Hx) as [Hc Hl].
  destruct (H23 x Hc) as [Hc' Hl']. split; [done|congruence].
Qed.

Lemma set_local_keeps_names x m :
  contains m x = false → keeps_names m (set_local x m).
Proof.
  intros Hx y Hy. assert (Hne : x ≠ y) by congruence.
  unfold contains, lookup, set_local, count_ne_0, at_key in *. simpl.
  rewrite !lookup_insert_ne by done. by split.
Qed.

Lemma set_global_keeps_names x g m :
  contains m x = false → keeps_names m (set_global x g m).
Proof.
  intros Hx y Hy. assert (Hne : x ≠ y) by congruence.
  unfold contains, lookup, set_global, count_ne_0, at_key in *. simpl.
  rewrite !lookup_insert_ne by done. by split.
Qed.

Lemma settled_write_to s st : settled st → settled (write_to s st).
Proof. unfold settled, write_to. by destruct (save st). Qed.

Lemma emits_ret : emits (mret tt) (λ _, "").
Proof.
  intros st Hs. exists st. split; [done|]. split; [done|].
  split; [apply keeps_names_refl|]. split; [by rewrite append_nil_r|done].
Qed.

Lemma emits_write s : emits (write s) (λ _, s).
Proof.
  intros st Hs. exists (write_to s st). split; [done|].
  split; [by apply settled_write_to|]. rewrite m_symbolMap_write_to.
  split; [apply keeps_names_refl|]. split; [apply sink_write_to|done].
Qed.

Lemma emits_bind (m1 m2 : M unit) T1 T2 :
  emits m1 T1 → emits m2 T2 →
  emits (m1 ≫= λ _, m2) (λ m, T1 m +:+ T2 m).
Proof.
  intros H1 H2 st Hs.
  destruct (H1 st Hs) as (s1 & E1 & Hs1 & Hk1 & Hx1 & Hst1).
  destruct (H2 s1 Hs1) as (s2 & E2 & Hs2 & Hk2 & Hx2 & Hst2).
  exists s2. rewrite bind_eq, E1. split; [done|]. split; [done|].
  split; [by eapply keeps_names_trans|].
  split.
  - rewrite Hx2, Hx1, (Hst1 _ Hk2). by rewrite append_assoc.
  - intros m' Hm'. rewrite (Hst2 _ Hm').
    rewrite (Hst1 m') by (by eapply keeps_names_trans).
    by rewrite (Hst1 _ Hk2).
Qed.

Lemma emits_ext (q : M unit) T T' :
  emits q T → (∀ m, T m = T' m) → emits q T'.
Proof.
  intros Hq HT st Hs. destruct (Hq st Hs) as (s1 & E & Hs1 & Hk & Hx & Hst).
  exists s1. split; [done|]. split; [done|]. split; [done|].
  split; [by rewrite <- HT|].
  intros m' Hm'. rewrite <- !HT. by apply Hst.
Qed.

Lemma emits_when b (q : M unit) T :
  emits q T → emits (when b q) (λ m, if b then T m else "").
Proof. intros Hq. destruct b; [done|apply emits_ret]. Qed.

Lemma emits_handle_ref (q : M unit) T : emits q T → emits (handle_ref q) T.
Proof.
  intros Hq st Hs. unfold handle_ref.
  assert (Hst : with_is_ref false st = st).
  { destruct Hs as (Hr & _). destruct st; simpl in *. by rewrite Hr. }
  rewrite Hst.
  destruct (Hq st Hs) as (s1 & E & Hs1 & Hk & Hx & Hstab).
  rewrite E. exists (with_is_ref (is_ref st) s1).
  split; [done|]. split.
  { destruct Hs as (Hr & _), Hs1 as (? & ? & ?). by repeat split. }
  split; [done|]. split; [|done].
  unfold sink in *. by destruct s1.
Qed.

Lemma emits_visit_IdentifierExpression x :
  emits (visit_IdentifierExpression x) (λ m, lookup m x).
Proof.
  intros st (Hr & He & Hd). unfold visit_IdentifierExpression.
  rewrite Hr, He, Hd. cbn [String.eqb negb]. cbv zeta.
  destruct (contains (m_symbolMap st) x) eqn:Hc; cbn [negb].
  - exists (write_to (lookup (m_symbolMap st) x) st). split; [done|].
    split; [by apply settled_write_to|]. rewrite m_symbolMap_write_to.
    split; [apply keeps_names_refl|]. split; [apply sink_write_to|].
    intros m' Hm'. by destruct (Hm' x Hc).
  - destruct (local st) eqn:Hl.
    + eexists. split; [reflexivity|].
      split; [by apply settled_write_to|]. rewrite m_symbolMap_write_to.
      split; [by apply set_local_keeps_names|].
      split; [by rewrite sink_write_to|].
      intros m' Hm'. simpl in Hm'.
      by destruct (Hm' x (contains_set_local x _)).
    + eexists. split; [reflexivity|].
      split; [by apply settled_write_to|]. rewrite m_symbolMap_write_to.
      split; [by apply set_global_keeps_names|].
      split; [by rewrite sink_write_to|].
      intros m' Hm'. simpl in Hm'.
      by destruct (Hm' x (contains_set_global x _ _)).
Qed.

Section WithUtils.
Context `{Utils}.

(** The arguments of a call, with [", "] before each but the first. *)
Lemma emits_arguments (args : list AstNode) i :
  (∀ a, a ∈ args → emits (visit a) (λ m, expression_text m a)) →
  emits (for_index (λ i arg, when (negb (i =? 0)%nat) (write ", ");; visit arg)
                   i args)
        (λ m, if (i =? 0)%nat then join ", " (map (expression_text m) args)
              else fold_right (λ x acc, ", " +:+ x +:+ acc) ""
                              (map (expression_text m) args)).
Proof.
  revert i. induction args as [|a rest IH]; intros i Ha; simpl.
  { eapply emits_ext; [apply emits_ret|]. intros m. by destruct (i =? 0)%nat. }
  eapply emits_ext.
  - apply emits_bind.
    + apply emits_bind; [apply emits_when, emits_write|apply Ha; left].
    + apply (IH (S i)). intros b Hb. apply Ha. by right.
  - intros m. cbn beta. destruct (i =? 0)%nat; cbn [negb Nat.eqb].
    + done.
    + by rewrite <- !append_assoc.
Qed.

(** The elements of a list literal, with [","] after each but the last. *)
Lemma emits_elements (n : nat) (elements : list AstNode) i :
  (i + length elements = n)%nat →
  (∀ a, a ∈ elements → emits (visit a) (λ m, expression_text m a)) →
  emits (for_index (λ i e, visit e;; when (i <? n - 1)%nat (write ","))
                   i elements)
        (λ m, join "," (map (expression_text m) elements)).
Proof.
  revert i. induction elements as [|a rest IH]; intros i Hn Ha; simpl.
  { apply emits_ret. }
  eapply emits_ext.
  - apply emits_bind.
    + apply emits_bind; [apply Ha; left|apply emits_when, emits_write].
    + apply (IH (S i)); [simpl in Hn; lia|].
      intros b Hb. apply Ha. by right.
  - intros m. cbn beta. destruct rest as [|b rest]; simpl in Hn |- *.
    + replace (i <? n - 1)%nat with false
        by (symmetry; apply Nat.ltb_ge; lia).
      by rewrite !append_nil_r.
    + replace (i <? n - 1)%nat with true
        by (symmetry; apply Nat.ltb_lt; lia).
      by rewrite <- !append_assoc.
Qed.

Lemma forallb_elem {A} (f : A → bool) l x :
  forallb f l = true → x ∈ l → f x = true.
Proof.
  intros Hf Hx. rewrite forallb_forall in Hf. apply Hf.
  by apply list_elem_of_In.
Qed.

Ltac pieces :=
  repeat lazymatch goal with
  | |- emits (_ ≫= _) _ => apply emits_bind
  | |- emits (write _) _ => apply emits_write
  | |- emits (handle_ref _) _ => apply emits_handle_ref
  end.

Lemma visit_emits_below n :
  ∀ e, (size e < n)%nat → plain e = true →
       emits (visit e) (λ m, expression_text m e).
Proof.
  induction n as [|n IH]; intros e Hsz Hp; [lia|].
  destruct e; try discriminate Hp; cbn [visit expression_text];
    cbn [plain] in Hp; cbn [size] in Hsz.
  - (* list literal *)
    eapply emits_ext.
    + pieces. apply (emits_elements (length elements) elements 0); [done|].
      intros a Ha. apply IH; [|by eapply forallb_elem].
      pose proof (elem_sum_le size elements a Ha). lia.
    + intros m. cbn beta. by rewrite <- !append_assoc.
  - (* binary operation *)
    apply andb_prop in Hp as [Hl Hr].
    assert (emits (visit e1) (λ m, expression_text m e1)) by (apply IH; [lia|done]).
    assert (emits (visit e2) (λ m, expression_text m e2)) by (apply IH; [lia|done]).
    destruct (String.eqb (keyword op) "**");
      [|destruct (String.eqb (keyword op) "//");
        [|destruct (is_kind tk_in tok); [|destruct (is_kind tk_not_in tok)]]].
    all: eapply emits_ext; [pieces; eassumption|].
    all: intros m; cbn beta; by rewrite <- ?append_assoc.
  - (* prefix *)
    eapply emits_ext; [pieces; (apply IH; [lia|done])|].
    intros m. cbn beta. by rewrite <- ?append_assoc.
  - (* postfix *)
    eapply emits_ext; [pieces; (apply IH; [lia|done])|].
    intros m. cbn beta. by rewrite <- ?append_assoc.
  - (* call *)
    apply andb_prop in Hp as [Hf Ha].
    eapply emits_ext.
    + pieces; [apply IH; [lia|done]|].
      apply (emits_arguments arguments 0).
      intros a Hin. apply IH; [|by eapply forallb_elem].
      pose proof (elem_sum_le size arguments a Hin). lia.
    + intros m. cbn beta. simpl. by rewrite <- ?append_assoc.
  - (* identifier *)
    apply emits_visit_IdentifierExpression.
  - apply emits_write.
  - apply emits_write.
  - apply emits_write.
  - apply emits_write.
  - apply emits_write.
  - (* conditional expression *)
    apply andb_prop in Hp as [Hp Hc]. apply andb_prop in Hp as [Ha Hb].
    eapply emits_ext; [pieces; (apply IH; [lia|done])|].
    intros m. cbn beta. by rewrite <- ?append_assoc.
Qed.

(** A plain expression is written in full: every operation in its own
    parentheses, the arguments of a call and the elements of a list in their
    order, and every name as the symbol map holds it once the expression is
    written. A name that was bound before keeps its text. *)
Theorem plain_expression_is_written_in_full (e : AstNode) (st : Codegen) :
  plain e = true → settled st →
  ∃ st', exec (visit e) st = Some st'
    ∧ sink st' = sink st +:+ expression_text (m_symbolMap st') e
    ∧ ∀ x, contains (m_symbolMap st) x = true →
           lookup (m_symbolMap st') x = lookup (m_symbolMap st) x.
Proof.
  intros Hp Hs.
  destruct (visit_emits_below (S (size e)) e (Nat.lt_succ_diag_r _) Hp st Hs)
    as (st' & Hr & _ & Hk & Hx & _).
  exists st'. split; [by apply exec_intro|]. split; [done|].
  intros x Hc. by destruct (Hk x Hc).
Qed.

End WithUtils.

Lemma plain_expression_witness :
  ∃ st', exec (visit (H := example_utils) example_sum) (Codegen_new "a.pg")
         = Some st'
    ∧ sink st' = sink (Codegen_new "a.pg")
                 +:+ expression_text (m_symbolMap st') example_sum
    ∧ ∀ x, contains (m_symbolMap (Codegen_new "a.pg")) x = true →
           lookup (m_symbolMap st') x
           = lookup (m_symbolMap (Codegen_new "a.pg")) x.
Proof.
  apply (plain_expression_is_written_in_full (H := example_utils) example_sum).
  - reflexivity.
  - by vm_compute.
Defined.
End CodegenText.

Module CodegenSettled.
Import SymbolTable Codegen MangleFacts CodegenFacts CodegenMore CodegenFlags CodegenText.

Lemma contains_set_local_mono y m x :
  contains m x = true → contains (set_local y m) x = true.
Proof.
  unfold contains, set_local, count_ne_0. simpl.
  destruct (decide (y = x)) as [->|Hne];
    [rewrite lookup_insert_eq|by rewrite lookup_insert_ne].
  intros _. destruct (_ || _); [done|].
  by rewrite bool_decide_eq_true_2 by eauto.
Qed.

Lemma contains_set_global_mono y g m x :
  contains m x = true → contains (set_global y g m) x = true.
Proof.
  unfold contains, set_global, count_ne_0. simpl.
  destruct (decide (y = x)) as [->|Hne];
    [rewrite lookup_insert_eq|by rewrite lookup_insert_ne].
  intros _. destruct (_ || _); [done|]. destruct (bool_decide _); [done|].
  by rewrite bool_decide_eq_true_2 by eauto.
Qed.

Lemma holds_write_to a s st : holds a st → holds a (write_to s st).
Proof. unfold write_to. by destruct a, (save st). Qed.

Lemma upholds_ret a {A} (x : A) : upholds a false (mret x).
Proof. intros st r st' [= _ <-] [?|?]; done. Qed.

Lemma upholds_gets a {A} (f : Codegen → A) : upholds a false (gets f).
Proof. intros st r st' [= _ <-] [?|?]; done. Qed.

Lemma upholds_undefined a b {A} : upholds a b (@undefined A).
Proof. intros st r st' [=]. Qed.

Lemma upholds_lift a (f : Codegen → Codegen) :
  (∀ st, holds a st → holds a (f st)) → upholds a false (lift f).
Proof. intros Hf st r st'. unfold lift. intros [= _ <-] [?|?]; [done|auto]. Qed.

Lemma upholds_lift_reset a b (f : Codegen → Codegen) :
  (∀ st, holds a (f st)) → upholds a b (lift f).
Proof. intros Hf st r st'. unfold lift. intros [= _ <-] _. apply Hf. Qed.

Lemma upholds_write a s : upholds a false (write s).
Proof. apply upholds_lift. intros st. apply holds_write_to. Qed.

Lemma upholds_bind a b {A B} (m : M A) (f : A → M B) :
  upholds a b m → (∀ x, upholds a false (f x)) → upholds a b (m ≫= f).
Proof.
  intros Hm Hf st r st'. rewrite bind_eq.
  destruct (m st) as [[x s1]|] eqn:E; [|discriminate].
  intros Hr Hpre. apply (Hf x _ _ _ Hr). right. by apply (Hm _ _ _ E).
Qed.

Lemma upholds_bind_reset a b {A B} (m : M A) (f : A → M B) :
  (∀ x, upholds a true (f x)) → upholds a b (m ≫= f).
Proof.
  intros Hf st r st'. rewrite bind_eq.
  destruct (m st) as [[x s1]|] eqn:E; [|discriminate].
  intros Hr _. apply (Hf x _ _ _ Hr). by left.
Qed.

Lemma upholds_when a c (m : M unit) :
  upholds a false m → upholds a false (when c m).
Proof. intros Hm. destruct c; [done|apply upholds_ret]. Qed.

Lemma upholds_local_mangle a (m : M unit) :
  upholds a false m → upholds a false (local_mangle m).
Proof.
  intros Hm st r st'. unfold local_mangle.
  destruct (m (with_local true st)) as [[[] s1]|] eqn:E; [|discriminate].
  intros [= _ <-] [?|Hpre]; [done|].
  destruct a; [exact Hpre| |]; apply (Hm _ _ _ E); right; exact Hpre.
Qed.

Lemma upholds_handle_ref a b (m : M unit) :
  upholds a b m → upholds a b (handle_ref m).
Proof.
  intros Hm st r st'. unfold handle_ref.
  destruct (m (with_is_ref false st)) as [[[] s1]|] eqn:E; [|discriminate].
  intros [= _ <-] Hpre.
  assert (Hs1 : holds a s1).
  { apply (Hm _ _ _ E). destruct Hpre as [?|Hpre]; [by left|right].
    by destruct a. }
  by destruct a.
Qed.

Lemma upholds_for_each a {A} (body : A → M unit) (v : list A) :
  (∀ x, x ∈ v → upholds a false (body x)) → upholds a false (for_each body v).
Proof.
  induction v as [|x v IH]; intros Hb; simpl; [apply upholds_ret|].
  apply upholds_bind; [apply Hb; left|].
  intros _. apply IH. intros y Hy. apply Hb. by right.
Qed.

Lemma upholds_for_index a {A} (body : nat → A → M unit) (v : list A) i :
  (∀ j x, x ∈ v → upholds a false (body j x)) →
  upholds a false (for_index body i v).
Proof.
  revert i. induction v as [|x v IH]; intros i Hb; simpl; [apply upholds_ret|].
  apply upholds_bind; [apply Hb; left|].
  intros _. apply IH. intros j y Hy. apply Hb. by right.
Qed.

Lemma upholds_for_index2 a {A B} (body : nat → A → B → M unit) v w i :
  (∀ j x y, x ∈ v → y ∈ w → upholds a false (body j x y)) →
  upholds a false (for_index2 body i v w).
Proof.
  revert i w. induction v as [|x v IH]; intros i w Hb; simpl.
  { destruct w; apply upholds_ret. }
  destruct w as [|y w]; [apply upholds_undefined|].
  apply upholds_bind; [apply Hb; left|].
  intros _. apply IH. intros j x' y' Hx Hy. apply Hb; by right.
Qed.

Lemma upholds_visit_IdentifierExpression a x :
  upholds a false (visit_IdentifierExpression x).
Proof.
  intros st r st' Hr [?|Hpre]; [done|].
  unfold visit_IdentifierExpression in Hr.
  destruct (is_ref st).
  { injection Hr as _ <-. by apply holds_write_to. }
  destruct (negb (String.eqb _ _)).
  { apply bind_inv in Hr as ([] & s1 & [= <-] & [= _ <-]).
    by do 2 apply holds_write_to. }
  cbv zeta in Hr. injection Hr as _ <-. apply holds_write_to.
  destruct (negb _); [destruct (local st)|destruct (is_define st)];
    destruct a; try exact Hpre.
  - by apply contains_set_local_mono.
  - by apply contains_set_global_mono.
  - by apply contains_set_local_mono.
Qed.

Section WithUtils.
Context `{UtilsSettled}.

Lemma upholds_wrap_all a items n contains :
  upholds a false (wrap_all items n contains).
Proof.
  revert contains. induction n as [|n IH]; intros contains; simpl.
  - apply upholds_ret.
  - destruct (items !! n); [|apply upholds_undefined].
    apply upholds_bind; [apply wrap_upholds|intros c; apply IH].
Qed.

Lemma upholds_drop a {A} (body : nat → A → M unit) (v : list A) i k :
  (∀ j x, x ∈ v → upholds a false (body j x)) →
  upholds a false (for_index body i (drop k v)).
Proof.
  intros Hb. apply upholds_for_index. intros j x Hin. apply Hb.
  apply list_elem_of_lookup in Hin as [n Hn].
  rewrite lookup_drop in Hn. by apply list_elem_of_lookup_2 in Hn.
Qed.

Ltac elem_facts :=
  repeat match goal with
  | Hx : ?x ∈ TurpleTypes ?l |- _ =>
      lazymatch goal with
      | _ : (size x < size l)%nat |- _ => fail
      | _ => pose proof (TurpleTypes_size l x Hx)
      end
  | Hx : ?x ∈ TurpleExpression ?l |- _ =>
      lazymatch goal with
      | _ : (size x < size l)%nat |- _ => fail
      | _ => pose proof (TurpleExpression_size l x Hx)
      end
  | Hx : ?x ∈ ?l, Hsz : context [list_sum (map ?f ?l)] |- _ =>
      lazymatch goal with
      | _ : (f x ≤ list_sum (map f l))%nat |- _ => fail
      | _ => pose proof (elem_sum_le f l x Hx)
      end
  end.

Ltac smaller IH :=
  apply IH; cbn [size] in *; elem_facts; cbv beta in *; elem_facts;
  cbv beta in *; cbn [list_sum fold_right map fst snd size] in *; lia.

Ltac setter :=
  first [ apply upholds_lift_reset; intros ?; reflexivity
        | apply upholds_lift; intros ? ?;
          first [ assumption
                | by apply contains_set_global_mono
                | by apply contains_set_local_mono ] ].

Ltac upholds_step IH :=
  lazymatch goal with
  | |- upholds _ false (visit _) => smaller IH
  | |- upholds _ false (mret _) => apply upholds_ret
  | |- upholds _ false (gets _) => apply upholds_gets
  | |- upholds _ _ undefined => apply upholds_undefined
  | |- upholds _ false (write _) => apply upholds_write
  | |- upholds _ _ (lift _) => setter
  | |- upholds _ false (visit_IdentifierExpression _) =>
      apply upholds_visit_IdentifierExpression
  | |- upholds _ false (matchArg _ _) => apply matchArg_upholds
  | |- upholds _ false (magic_methord _ _) => apply magic_methord_upholds
  | |- upholds _ false (visit_TypeTuple _ _) => apply visit_TypeTuple_upholds
  | |- upholds _ false (visit_ExpressionTuple _ _) =>
      apply visit_ExpressionTuple_upholds
  | |- upholds _ false (wrap_all _ _ _) => apply upholds_wrap_all
  | |- upholds _ false (when _ _) => apply upholds_when
  | |- upholds _ false (local_mangle _) => apply upholds_local_mangle
  | |- upholds _ _ (handle_ref _) => apply upholds_handle_ref
  | |- upholds _ false (for_each _ _) => apply upholds_for_each; intros ? ?
  | |- upholds _ false (for_index _ _ (drop _ _)) =>
      apply upholds_drop; intros ? ? ?
  | |- upholds _ false (for_index _ _ _) =>
      apply upholds_for_index; intros ? ? ?
  | |- upholds _ false (for_index2 _ _ _ _) =>
      apply upholds_for_index2;
      intros ? ? ? [? [-> ?]]%elem_of_map [? [-> ?]]%elem_of_map;
      cbn [fst snd]
  | |- upholds _ _ (codegenFuncParams _ _ _) => unfold codegenFuncParams
  | |- upholds _ _ (codegenReturnParams _ _) => unfold codegenReturnParams
  | |- upholds _ _ (codegenReturnParamsDecorator _ _) =>
      unfold codegenReturnParamsDecorator
  | |- upholds _ _ (over_tuple_types _ _) => rewrite over_tuple_types_eq
  | |- upholds _ _ (over_tuple_values _ _) => rewrite over_tuple_values_eq
  | |- upholds _ _ (codegenCase _ _ _ _) => unfold codegenCase
  | |- upholds _ _ (codegenExceptClause _ _) => unfold codegenExceptClause
  | |- upholds _ _ (codegenClassMembers _ _ _ _) => unfold codegenClassMembers
  | |- upholds _ _ (codegenDecorated _ _ _ _ _) => unfold codegenDecorated
  | |- upholds _ _ (_ ≫= _) =>
      first [ apply upholds_bind; [solve [repeat upholds_step IH]|intros ?]
            | apply upholds_bind_reset; intros ? ]
  | |- upholds _ _ (if ?c then _ else _) => destruct c
  | |- upholds _ _ (match ?x with _ => _ end) => destruct x
  end.

Lemma visit_upholds_below a n :
  ∀ node, (size node < n)%nat → upholds a false (visit node).
Proof.
  induction n as [|n IH]; intros node Hsz; [lia|].
  destruct a, node; cbn [visit]; cbv zeta; simpl in Hsz.
  all: solve [repeat upholds_step IH].
Qed.

(** A name that is bound when a visit begins is bound when it ends. *)
Theorem bound_names_stay_bound (node : AstNode) (x : string)
    (st st' : Codegen) :
  exec (visit node) st = Some st' →
  contains (m_symbolMap st) x = true →
  contains (m_symbolMap st') x = true.
Proof.
  intros Hr%exec_inv Hx.
  apply (visit_upholds_below (Bound x) (S (size node)) node
           (Nat.lt_succ_diag_r _) _ _ _ Hr).
  by right.
Qed.

End WithUtils.

Section Settled.
Context `{UtilsKeep} `{!UtilsSettled}.

Lemma visit_settled node st st' :
  visit node st = Some (tt, st') → settled st → settled st'.
Proof.
  intros Hr (Href & Henum & Hdef).
  destruct (visit_keeps_below (S (size node)) node (Nat.lt_succ_diag_r _)
              _ _ _ Hr) as (_ & _ & Hr' & _).
  split; [by rewrite Hr'|]. split.
  - apply (visit_upholds_below NoEnum (S (size node)) node
             (Nat.lt_succ_diag_r _) _ _ _ Hr). by right.
  - apply (visit_upholds_below NoDefine (S (size node)) node
             (Nat.lt_succ_diag_r _) _ _ _ Hr). by right.
Qed.

(** A visit that starts outside a reference, an enumeration value and the
    name of a definition ends outside them. *)
Theorem visit_leaves_the_generator_settled (node : AstNode)
    (st st' : Codegen) :
  settled st → exec (visit node) st = Some st' → settled st'.
Proof. intros Hs Hr%exec_inv. by eapply visit_settled. Qed.

End Settled.

Lemma identifier_defines x st :
  is_ref st = false → curr_enum_name st = "" → is_define st = true →
  contains (m_symbolMap st) x = true →
  visit_IdentifierExpression x st
  = Some (tt, write_to (lookup (set_local x (m_symbolMap st)) x)
                       (with_m_symbolMap (set_local x (m_symbolMap st)) st)).
Proof.
  intros Hr He Hd Hc. unfold visit_IdentifierExpression.
  by rewrite Hr, He, Hd, Hc.
Qed.

Section Exported.
Context `{UtilsKeep} `{!UtilsSettled} `{!UtilsAppend}.

(** The exported function is written and bound under its local name, the
    prefix followed by the name, not under the name itself. *)
Theorem export_writes_the_local_name (tok ftok ntok : Token)
    (rt body : AstNode) (parameters : list (parameter AstNode))
    (f : string) (st st' : Codegen) :
  ok st → settled st → is_func_def st = false →
  f ≠ "main" → ¬ reserved f →
  exec (visit (ExportStatement tok
                 (FunctionDefinition ftok rt (IdentifierExpression ntok f)
                                     parameters body))) st = Some st' →
  lookup (m_symbolMap st') f = local_prefix +:+ f
  ∧ ∃ R rest,
      sink st' = sink st +:+ "extern " +:+ dquote +:+ "C" +:+ dquote +:+ " "
                 +:+ R +:+ " " +:+ local_prefix +:+ f +:+ "(" +:+ rest.
Proof.
  intros Hok Hs Hf Hmain Hres Hr%exec_inv.
  cbn [visit] in Hr. cbv zeta in Hr.
  apply bind_inv in Hr as ([] & s0 & [= <-] & Hr).
  apply bind_inv in Hr as ([] & s1 & [= <-] & Hr).
  match type of Hr with _ ?S = _ => remember S as s1 eqn:Hs1 end.
  assert (Hok1 : ok s1) by (subst s1; exact (write_to_ok _ st Hok)).
  assert (Hset1 : settled s1) by (subst s1; exact (settled_write_to _ st Hs)).
  assert (Hf1 : is_func_def s1 = false).
  { subst s1. simpl. unfold write_to. by destruct (save st). }
  assert (Hc1 : contains (m_symbolMap s1) f = true).
  { subst s1. simpl. apply contains_set_global. }
  assert (Hx1 : sink s1 = sink st +:+ "extern " +:+ dquote +:+ "C" +:+ dquote
                         +:+ " ").
  { subst s1. exact (sink_write_to _ st). }
  clear Hs1.
  apply bind_inv in Hr as (inf & s1' & [= <- <-] & Hr).
  rewrite Hf1 in Hr. cbn [negb] in Hr.
  apply bind_inv in Hr as ([] & s2 & [= <-] & Hr).
  apply bind_inv in Hr as ([] & s8 & Hr & [= <-]).
  rewrite (proj2 (String.eqb_neq f "main") Hmain) in Hr.
  apply bind_inv in Hr as ([] & s3 & Hrt & Hr).
  assert (Hfacts : ok s3 ∧ settled s3 ∧ contains (m_symbolMap s3) f = true
                   ∧ ∃ R, sink s3 = sink s1 +:+ R).
  { assert (Hok2 : ok (with_is_func_def true s1)) by exact Hok1.
    assert (Hset2 : settled (with_is_func_def true s1)) by exact Hset1.
    change (sink s1) with (sink (with_is_func_def true s1)).
    destruct (length (TurpleTypes rt) =? 0)%nat.
    - destruct (appends_sink _ _ _ _ (visit_appends rt) Hok2 Hrt) as [? ?].
      split; [done|]. split; [by apply (visit_settled _ _ _ Hrt)|].
      split; [|done].
      apply (visit_upholds_below (Bound f) (S (size rt)) rt
               (Nat.lt_succ_diag_r _) _ _ _ Hrt). by right.
    - injection Hrt as <-.
      split; [exact (write_to_ok _ _ Hok2)|].
      split; [exact (settled_write_to _ _ Hset2)|].
      split; [by rewrite m_symbolMap_write_to|].
      exists "void". apply sink_write_to. }
  destruct Hfacts as (Hok3 & (Href3 & Henum3 & Hdef3) & Hc3 & R & Hx3).
  apply bind_inv in Hr as ([] & s4 & [= <-] & Hr).
  apply bind_inv in Hr as ([] & s5 & [= <-] & Hr).
  apply bind_inv in Hr as ([] & s6 & Hname & Hr).
  apply bind_inv in Hr as ([] & s7 & [= <-] & Hr).
  apply bind_inv in Hr as ([] & s7' & [= <-] & Hr).
  apply local_mangle_inv in Hr as (s & Hbody & ->).
  rewrite (identifier_defines f (with_is_define true (write_to " " s3)))
    in Hname; try done;
    [|simpl; by rewrite (proj1 (proj2 (write_to_flags _ _)))
     |simpl; by rewrite (proj1 (proj2 (proj2 (write_to_flags _ _))))
     |simpl; by rewrite m_symbolMap_write_to].
  injection Hname as <-.
  assert (Hl : lookup (set_local f (m_symbolMap s3)) f = local_prefix +:+ f).
  { apply lookup_local; [done|]. simpl. by rewrite lookup_insert_eq. }
  split.
  { simpl. rewrite !m_symbolMap_write_to. simpl.
    by rewrite !m_symbolMap_write_to. }
  assert (Happ : appends
    (codegenFuncParams visit parameters 0
     ≫= λ _ : (),
          when
            ((0 <? length (TurpleTypes rt))%nat &&
             (0 <? length parameters)%nat)
            (write ",")
          ≫= λ _ : (),
               over_tuple_types rt (codegenReturnParams visit)
               ≫= λ _ : (),
                    write (") {" +:+ nl)
                    ≫= λ _ : (), visit body ≫= λ _ : (), write (nl +:+ "}"))).
  { apply appends_bind; [apply appends_codegenFuncParams_visit|intros _].
    apply appends_bind; [apply appends_when, appends_write|intros _].
    apply appends_bind.
    { rewrite over_tuple_types_eq. apply appends_codegenReturnParams.
      intros t _. apply visit_appends. }
    intros _. apply appends_bind; [apply appends_write|intros _].
    apply appends_bind; [apply visit_appends|intros _]. apply appends_write. }
  match type of Hbody with _ ?S = _ =>
    assert (Hok0 : ok S);
      [|destruct (appends_sink _ _ _ _ Happ Hok0 Hbody) as [_ [rest Hrest]]]
  end.
  { apply (write_to_ok "(" (with_is_define false _)).
    apply (write_to_ok _ (with_m_symbolMap _ (with_is_define true _))).
    exact (write_to_ok " " s3 Hok3). }
  exists R, rest.
  match goal with |- sink ?S = _ => change (sink S) with (sink s) end.
  rewrite Hrest.
  match goal with |- context [sink (with_local true ?S)] =>
    change (sink (with_local true S)) with (sink S) end.
  rewrite sink_write_to.
  match goal with |- context [sink (with_is_define false ?S)] =>
    change (sink (with_is_define false S)) with (sink S) end.
  rewrite sink_write_to.
  match goal with
  | |- context [sink (with_m_symbolMap ?m (with_is_define true ?S))] =>
      change (sink (with_m_symbolMap m (with_is_define true S)))
        with (sink S)
  end.
  rewrite sink_write_to, m_symbolMap_write_to, Hl, Hx3, Hx1.
  by rewrite <- !append_assoc.
Qed.

End Exported.

(** The helpers of [example_utils] leave the state as it is. *)
Lemma example_utils_settled : @UtilsSettled example_utils.
Proof.
  split; try (intros; apply upholds_ret).
  intros a item contains st contains' st'. cbn [wrap example_utils].
  destruct (wrap_call item contains); [|discriminate].
  by intros [= _ <-] [?|?].
Qed.

Lemma bound_names_stay_bound_witness :
  contains (m_symbolMap (run example_function
                           (run (example_name "x") (Codegen_new "a.pg"))))
           "x" = true.
Proof.
  apply (bound_names_stay_bound (H := example_utils)
           (H0 := example_utils_settled) example_function "x"
           (run (example_name "x") (Codegen_new "a.pg"))).
  - vm_compute. reflexivity.
  - vm_compute. reflexivity.
Defined.

Lemma visit_leaves_the_generator_settled_witness :
  settled (run example_function (Codegen_new "a.pg")).
Proof.
  apply (visit_leaves_the_generator_settled (H := example_utils)
           (H0 := example_utils_keep) (H1 := example_utils_settled)
           example_function (Codegen_new "a.pg")).
  - by vm_compute.
  - vm_compute. reflexivity.
Defined.

Lemma export_writes_the_local_name_witness :
  lookup (m_symbolMap (run example_export (Codegen_new "a.pg"))) "f"
  = local_prefix +:+ "f"
  ∧ ∃ R rest,
      sink (run example_export (Codegen_new "a.pg"))
      = sink (Codegen_new "a.pg") +:+ "extern " +:+ dquote +:+ "C" +:+ dquote
        +:+ " " +:+ R +:+ " " +:+ local_prefix +:+ "f" +:+ "(" +:+ rest.
Proof.
  apply (export_writes_the_local_name (H := example_utils)
           (H0 := example_utils_keep) (H1 := example_utils_settled)
           (H2 := example_utils_append)
           (example_tok "export") (example_tok "def") (example_tok "f")
           example_int (BlockStatement []) [] "f" (Codegen_new "a.pg")).
  - reflexivity.
  - by vm_compute.
  - reflexivity.
  - discriminate.
  - intros [Hp|He]; discriminate.
  - vm_compute. reflexivity.
Defined.
End CodegenSettled.

Module ParseGroups.
Import Parse ParseFacts ParseMore.
Section WithExternals.
Context `{Externals}.

Lemma member_binds_tighter k :
  is_binary_operator k = true →
  pr_gt pr_dot_ref (precedenceMap_at k) = true.
Proof. destruct k; try discriminate; intros _; reflexivity. Qed.

(** An operand with a member access: [a o1 b . c o2 d] is parsed as
    [a o1 (b . (c o2 d))]. *)
Lemma member_operand_takes_the_rest
    (filename : string) (a o1 b dot c o2 d : Token) (after : list Token)
    (fuel : nat) :
  tkType a = tk_identifier → tkType b = tk_identifier →
  tkType c = tk_identifier → tkType d = tk_identifier →
  tkType dot = tk_dot →
  is_binary_operator (tkType o1) = true →
  is_binary_operator (tkType o2) = true →
  ends_statement after = true →
  ∃ p',
    parseExpression (4 + fuel) pr_lowest
      (mkParser (a :: o1 :: b :: dot :: c :: o2 :: d :: after) 0 a []
                filename)
    = Some (BinaryOperation o1 (IdentifierExpression a (keyword a)) o1
              (DotExpression dot (IdentifierExpression b (keyword b))
                 (BinaryOperation o2 (IdentifierExpression c (keyword c)) o2
                                  (IdentifierExpression d (keyword d)))),
            p').
Proof.
  intros Ha Hb Hc Hd Hdot Ho1 Ho2 Hend.
  destruct (binary_operator_facts _ Ho1) as (Hgt1 & Hpr1 & Hnl1).
  destruct (binary_operator_facts _ Ho2) as (Hgt2 & Hpr2 & Hnl2).
  set (toks := a :: o1 :: b :: dot :: c :: o2 :: d :: after).
  set (p0 := mkParser toks 0 a [] filename).
  set (p2 := mkParser toks 2 b [] filename).
  set (p4 := mkParser toks 4 c [] filename).
  set (p6 := mkParser toks 6 d [] filename).
  destruct (ends_statement_settles p6 Hend) as (Hlow & Hidem & Hn6).
  (* the member: [c o2 d] *)
  assert (Hmember :
    parseExpression (S (S fuel)) pr_lowest p4
    = Some (BinaryOperation o2 (IdentifierExpression c (keyword c)) o2
                            (IdentifierExpression d (keyword d)),
            advanceOnNewLine p6)).
  { rewrite parseExpression_unfold. unfold parseExpression_.
    rewrite parser_bind_eq.
    rewrite parsePrefix_identifier by (by apply cur_is_intro).
    change (parseIdentifier p4) with (IdentifierExpression c (keyword c)).
    rewrite parser_bind_eq.
    erewrite (while_loop_step _ _ _ _ _ p4 (advanceOnNewLine p6)); cycle 1.
    { unfold nextPrecedence, next. simpl. by rewrite Hpr2. }
    { rewrite parser_bind_eq, parseInfix_binary by done.
      rewrite parseBinaryOperation_operand.
      - reflexivity.
      - by apply cur_is_intro.
      - change (advance (advance p4)) with p6. rewrite Hn6.
        apply pr_gt_lowest. }
    rewrite while_loop_exit by (rewrite Hlow; apply pr_gt_lowest).
    cbv beta iota. unfold mbind, M_bind, lift, mret, M_ret.
    by rewrite Hidem. }
  (* the right operand of [o1]: [b . (c o2 d)] *)
  assert (Hoperand :
    parseExpression (S (S (S fuel))) (precedenceMap_at (tkType o1)) p2
    = Some (DotExpression dot (IdentifierExpression b (keyword b))
              (BinaryOperation o2 (IdentifierExpression c (keyword c)) o2
                               (IdentifierExpression d (keyword d))),
            advanceOnNewLine p6)).
  { rewrite parseExpression_unfold. unfold parseExpression_.
    rewrite parser_bind_eq.
    rewrite parsePrefix_identifier by (by apply cur_is_intro).
    change (parseIdentifier p2) with (IdentifierExpression b (keyword b)).
    rewrite parser_bind_eq.
    erewrite (while_loop_step _ _ _ _ _ p2 (advanceOnNewLine p6)); cycle 1.
    { unfold nextPrecedence, next. simpl. rewrite Hdot. simpl.
      by apply member_binds_tighter. }
    { rewrite parser_bind_eq. unfold parseInfix. rewrite parser_bind_eq.
      unfold lift at 1. rewrite parser_bind_eq. unfold gets at 1.
      change (m_currentToken (advance p2)) with dot. rewrite Hdot.
      unfold parseDotExpression. rewrite parser_bind_eq. unfold gets at 1.
      rewrite parser_bind_eq. unfold lift at 1. rewrite parser_bind_eq.
      change (self_parseExpression (parser_at (S (S fuel))))
        with (parseExpression (S (S fuel))).
      change (advance (advance p2)) with p4.
      rewrite Hmember. reflexivity. }
    rewrite while_loop_exit
      by (rewrite Hlow; unfold pr_gt; simpl; apply Nat.ltb_ge; lia).
    cbv beta iota. unfold mbind, M_bind, lift, mret, M_ret.
    by rewrite Hidem. }
  change (4 + fuel) with (S (S (S (S fuel)))).
  rewrite parseExpression_unfold. unfold parseExpression_.
  rewrite parser_bind_eq.
  rewrite parsePrefix_identifier by (by apply cur_is_intro).
  change (parseIdentifier p0) with (IdentifierExpression a (keyword a)).
  rewrite parser_bind_eq.
  erewrite (while_loop_step _ _ _ _ _ p0 (advanceOnNewLine p6)); cycle 1.
  { unfold nextPrecedence, next. simpl. by rewrite Hpr1. }
  { rewrite parser_bind_eq, parseInfix_binary by done.
    unfold parseBinaryOperation. rewrite parser_bind_eq. unfold gets at 1.
    rewrite parser_bind_eq. unfold lift at 1. rewrite parser_bind_eq.
    change (self_parseExpression (parser_at (S (S (S fuel)))))
      with (parseExpression (S (S (S fuel)))).
    change (advance (advance p0)) with p2.
    change (m_currentToken (advance p0)) with o1.
    rewrite Hoperand. reflexivity. }
  rewrite while_loop_exit by (rewrite Hlow; apply pr_gt_lowest).
  rewrite parser_bind_eq. eexists. reflexivity.
Qed.

(** A member access takes the whole expression to its right as the member:
    [a . b o c] is parsed as [a . (b o c)] whatever the operator [o]. *)
Theorem member_access_takes_the_rest
    (filename : string) (a dot b o c : Token) (after : list Token)
    (fuel : nat) (p : Parser) :
  tkType a = tk_identifier → tkType dot = tk_dot →
  tkType b = tk_identifier → tkType c = tk_identifier →
  is_binary_operator (tkType o) = true →
  ends_statement after = true →
  Parser_new filename (a :: dot :: b :: o :: c :: after) = Some p →
  ∃ p',
    parseExpression (3 + fuel) pr_lowest p
    = Some (DotExpression dot (IdentifierExpression a (keyword a))
              (BinaryOperation o (IdentifierExpression b (keyword b)) o
                               (IdentifierExpression c (keyword c))), p').
Proof.
  intros Ha Hdot Hb Hc Ho Hend [= <-].
  destruct (binary_operator_facts _ Ho) as (Hgt & Hpr & Hnl).
  set (toks := a :: dot :: b :: o :: c :: after).
  set (p0 := mkParser toks 0 a [] filename).
  set (p1 := mkParser toks 1 dot [] filename).
  set (p2 := mkParser toks 2 b [] filename).
  set (p4 := mkParser toks 4 c [] filename).
  destruct (ends_statement_settles p4 Hend) as (Hlow & Hidem & Hn4).
  (* the member: [b o c] *)
  assert (Hinner :
    parseExpression (S (S fuel)) pr_lowest p2
    = Some (BinaryOperation o (IdentifierExpression b (keyword b)) o
                            (IdentifierExpression c (keyword c)),
            advanceOnNewLine p4)).
  { rewrite parseExpression_unfold. unfold parseExpression_.
    rewrite parser_bind_eq.
    rewrite parsePrefix_identifier by (by apply cur_is_intro).
    change (parseIdentifier p2) with (IdentifierExpression b (keyword b)).
    rewrite parser_bind_eq.
    erewrite (while_loop_step _ _ _ _ _ p2 (advanceOnNewLine p4)); cycle 1.
    { unfold nextPrecedence, next. simpl. by rewrite Hpr. }
    { rewrite parser_bind_eq, parseInfix_binary by done.
      rewrite parseBinaryOperation_operand.
      - reflexivity.
      - by apply cur_is_intro.
      - change (advance (advance p2)) with p4. rewrite Hn4.
        apply pr_gt_lowest. }
    rewrite while_loop_exit by (rewrite Hlow; apply pr_gt_lowest).
    cbv beta iota. unfold mbind, M_bind, lift, mret, M_ret.
    by rewrite Hidem. }
  change (3 + fuel) with (S (S (S fuel))).
  rewrite parseExpression_unfold. unfold parseExpression_.
  rewrite parser_bind_eq.
  rewrite parsePrefix_identifier by (by apply cur_is_intro).
  change (parseIdentifier p0) with (IdentifierExpression a (keyword a)).
  rewrite parser_bind_eq.
  erewrite (while_loop_step _ _ _ _ _ p0 (advanceOnNewLine p4)); cycle 1.
  { unfold nextPrecedence, next. simpl. by rewrite Hdot. }
  { rewrite parser_bind_eq. unfold parseInfix. rewrite parser_bind_eq.
    unfold lift at 1. rewrite parser_bind_eq. unfold gets at 1.
    change (m_currentToken (advance p0)) with dot. rewrite Hdot.
    unfold parseDotExpression. rewrite parser_bind_eq. unfold gets at 1.
    rewrite parser_bind_eq. unfold lift at 1. rewrite parser_bind_eq.
    change (self_parseExpression (parser_at (S (S fuel))))
      with (parseExpression (S (S fuel))).
    change (advance (advance p0)) with p2.
    rewrite Hinner. reflexivity. }
  rewrite while_loop_exit by (rewrite Hlow; apply pr_gt_lowest).
  rewrite parser_bind_eq. eexists. reflexivity.
Qed.

(** Parentheses group whatever the precedences: [( a o1 b ) o2 c] is parsed
    as [(a o1 b) o2 c], and no error is recorded. *)
Theorem parentheses_group_their_content
    (filename : string) (lp a o1 b rp o2 c : Token) (after : list Token)
    (fuel : nat) (p : Parser) :
  tkType lp = tk_l_paren → tkType rp = tk_r_paren →
  tkType a = tk_identifier → tkType b = tk_identifier →
  tkType c = tk_identifier →
  is_binary_operator (tkType o1) = true →
  is_binary_operator (tkType o2) = true →
  ends_statement after = true →
  Parser_new filename (lp :: a :: o1 :: b :: rp :: o2 :: c :: after) = Some p →
  ∃ p',
    parseExpression (3 + fuel) pr_lowest p
    = Some (BinaryOperation o2
              (BinaryOperation o1 (IdentifierExpression a (keyword a)) o1
                               (IdentifierExpression b (keyword b)))
              o2 (IdentifierExpression c (keyword c)), p')
    ∧ m_errors p' = [].
Proof.
  intros Hlp Hrp Ha Hb Hc Ho1 Ho2 Hend [= <-].
  destruct (binary_operator_facts _ Ho1) as (Hgt1 & Hpr1 & Hnl1).
  destruct (binary_operator_facts _ Ho2) as (Hgt2 & Hpr2 & Hnl2).
  set (toks := lp :: a :: o1 :: b :: rp :: o2 :: c :: after).
  set (p0 := mkParser toks 0 lp [] filename).
  set (p1 := mkParser toks 1 a [] filename).
  set (p3 := mkParser toks 3 b [] filename).
  set (p4 := mkParser toks 4 rp [] filename).
  set (p6 := mkParser toks 6 c [] filename).
  destruct (ends_statement_settles p6 Hend) as (Hlow & Hidem & Hn6).
  assert (Hn3 : nextPrecedence p3 = pr_lowest).
  { unfold nextPrecedence, next. simpl. by rewrite Hrp. }
  assert (Ha3 : advanceOnNewLine p3 = p3).
  { unfold advanceOnNewLine, next, is_kind. simpl. rewrite Hrp.
    by rewrite bool_decide_eq_false_2. }
  (* inside the parentheses: [a o1 b] *)
  assert (Hinner :
    parseExpression (S (S fuel)) pr_lowest p1
    = Some (BinaryOperation o1 (IdentifierExpression a (keyword a)) o1
                            (IdentifierExpression b (keyword b)), p3)).
  { rewrite parseExpression_unfold. unfold parseExpression_.
    rewrite parser_bind_eq.
    rewrite parsePrefix_identifier by (by apply cur_is_intro).
    change (parseIdentifier p1) with (IdentifierExpression a (keyword a)).
    rewrite parser_bind_eq.
    erewrite (while_loop_step _ _ _ _ _ p1 p3); cycle 1.
    { unfold nextPrecedence, next. simpl. by rewrite Hpr1. }
    { rewrite parser_bind_eq, parseInfix_binary by done.
      rewrite parseBinaryOperation_operand.
      - change (advance (advance p1)) with p3. by rewrite Ha3.
      - by apply cur_is_intro.
      - change (advance (advance p1)) with p3. rewrite Hn3.
        apply pr_gt_lowest. }
    rewrite while_loop_exit by (rewrite Hn3; apply pr_gt_lowest).
    cbv beta iota. unfold mbind, M_bind, lift, mret, M_ret.
    by rewrite Ha3. }
  assert (Hexpect : expect tk_r_paren p3 = p4).
  { unfold expect, next, is_kind. simpl. rewrite Hrp.
    by rewrite bool_decide_eq_true_2. }
  change (3 + fuel) with (S (S (S fuel))).
  rewrite parseExpression_unfold. unfold parseExpression_.
  rewrite parser_bind_eq.
  assert (Hprefix : parsePrefix (parser_at (S (S fuel))) p0
    = Some (BinaryOperation o1 (IdentifierExpression a (keyword a)) o1
                            (IdentifierExpression b (keyword b)), p4)).
  { unfold parsePrefix. rewrite parser_bind_eq. unfold gets at 1.
    change (m_currentToken p0) with lp. rewrite Hlp.
    unfold parseGroupedExpr. rewrite parser_bind_eq. unfold lift at 1.
    rewrite parser_bind_eq.
    change (self_parseExpression (parser_at (S (S fuel))))
      with (parseExpression (S (S fuel))).
    change (advance p0) with p1. rewrite Hinner.
    rewrite parser_bind_eq. unfold lift at 1. by rewrite Hexpect. }
  rewrite Hprefix, parser_bind_eq.
  erewrite (while_loop_step _ _ _ _ _ p4 (advanceOnNewLine p6)); cycle 1.
  { unfold nextPrecedence, next. simpl. by rewrite Hpr2. }
  { rewrite parser_bind_eq, parseInfix_binary by done.
    rewrite parseBinaryOperation_operand.
    - reflexivity.
    - by apply cur_is_intro.
    - change (advance (advance p4)) with p6. rewrite Hn6.
      apply pr_gt_lowest. }
  rewrite while_loop_exit by (rewrite Hlow; apply pr_gt_lowest).
  rewrite parser_bind_eq. eexists. split; [reflexivity|].
  unfold lift. cbv beta iota. rewrite Hidem.
  unfold advanceOnNewLine. by destruct (is_kind _ _); [unfold advance; destruct (_ !! _)|].
Qed.

End WithExternals.

Lemma member_access_witness :
  ∃ p',
    parseExpression (H := example_externals) 3 pr_lowest
      (mkParser tokens_member_sum 0 (example_token tk_identifier "a") []
                "a.pg")
    = Some (DotExpression (example_token tk_dot ".")
              (IdentifierExpression (example_token tk_identifier "a") "a")
              (BinaryOperation (example_token tk_plus "+")
                 (IdentifierExpression (example_token tk_identifier "b") "b")
                 (example_token tk_plus "+")
                 (IdentifierExpression (example_token tk_identifier "c") "c")),
            p').
Proof.
  apply (member_access_takes_the_rest (H := example_externals) "a.pg"
           (example_token tk_identifier "a") (example_token tk_dot ".")
           (example_token tk_identifier "b") (example_token tk_plus "+")
           (example_token tk_identifier "c")
           [example_token tk_new_line ""; example_token tk_eof ""] 0);
    reflexivity.
Defined.

Lemma parentheses_witness :
  ∃ p',
    parseExpression (H := example_externals) 3 pr_lowest
      (mkParser tokens_grouped_sum 0 (example_token tk_l_paren "(") []
                "a.pg")
    = Some (BinaryOperation (example_token tk_multiply "*")
              (BinaryOperation (example_token tk_plus "+")
                 (IdentifierExpression (example_token tk_identifier "a") "a")
                 (example_token tk_plus "+")
                 (IdentifierExpression (example_token tk_identifier "b") "b"))
              (example_token tk_multiply "*")
              (IdentifierExpression (example_token tk_identifier "c") "c"),
            p')
    ∧ m_errors p' = [].
Proof.
  apply (parentheses_group_their_content (H := example_externals) "a.pg"
           (example_token tk_l_paren "(") (example_token tk_identifier "a")
           (example_token tk_plus "+") (example_token tk_identifier "b")
           (example_token tk_r_paren ")") (example_token tk_multiply "*")
           (example_token tk_identifier "c")
           [example_token tk_new_line ""; example_token tk_eof ""] 0);
    reflexivity.
Defined.

End ParseGroups.
